(** * Project-Lifeline: the Gemini API key manager (src/gemini_manager.py)

    A shallow embedding of [GeminiKeyManager] (round-robin key selection,
    cooldown recovery, error accounting), of the retrying executor
    [call_with_retry] and of the module-level convenience functions, with
    the properties the specification states about them.

    Conventions of the embedding.
    - An [APIKey] object lives in [self.keys] for the whole life of the
      manager (the list is built once in [__init__] and never resized), so
      a reference to a key object is its position in that list.
    - Every method body runs under [self.lock]; one method call is one
      atomic step on the manager state, and concurrent callers are
      interleavings of such steps.
    - [time.time()] is an input: the scheduler operations take the value
      read from the clock as the argument [now].  Timestamps are integers
      (clock ticks); the code only compares them and adds a cooldown.
    - Python exceptions are values of [PyExn]; a computation that may
      raise returns a [Res]. *)

From Stdlib Require Import ZArith Lia Ascii String PrimFloat.
From stdpp Require Import base numbers list gmap strings pretty.

Local Open Scope Z_scope.
Local Open Scope nat_scope.

(** ** Data model *)

Inductive KeyStatus : Type :=
  | AVAILABLE
  | RATE_LIMITED
  | EXHAUSTED
  | ERROR.

#[global] Instance KeyStatus_eq_dec : EqDecision KeyStatus.
Proof. solve_decision. Defined.

Record APIKey : Type := mkAPIKey {
  key : string;
  index : nat;
  status : KeyStatus;
  last_used : Z;
  error_count : Z;
  cooldown_until : Z
}.

(** [APIKey(key=k, index=i)]: the dataclass defaults. *)
Definition new_APIKey (k : string) (i : nat) : APIKey :=
  mkAPIKey k i AVAILABLE 0 0 0.

Definition set_status (v : KeyStatus) (k : APIKey) : APIKey :=
  mkAPIKey (key k) (index k) v (last_used k) (error_count k) (cooldown_until k).
Definition set_last_used (v : Z) (k : APIKey) : APIKey :=
  mkAPIKey (key k) (index k) (status k) v (error_count k) (cooldown_until k).
Definition set_error_count (v : Z) (k : APIKey) : APIKey :=
  mkAPIKey (key k) (index k) (status k) (last_used k) v (cooldown_until k).
Definition set_cooldown_until (v : Z) (k : APIKey) : APIKey :=
  mkAPIKey (key k) (index k) (status k) (last_used k) (error_count k) v.

(** A client handle is opaque; it is identified by the secret it was
    created with. *)
Record Client : Type := mkClient { api_key : string }.

Record GeminiKeyManager : Type := mkManager {
  keys : list APIKey;
  current_index : nat;
  clients : gmap nat Client
}.

Definition with_keys (ks : list APIKey) (m : GeminiKeyManager) : GeminiKeyManager :=
  mkManager ks (current_index m) (clients m).
Definition with_current_index (c : nat) (m : GeminiKeyManager) : GeminiKeyManager :=
  mkManager (keys m) c (clients m).
Definition with_clients (cs : gmap nat Client) (m : GeminiKeyManager) : GeminiKeyManager :=
  mkManager (keys m) (current_index m) cs.

(** In-place mutation of the key object at position [i]. *)
Definition update_key (i : nat) (f : APIKey → APIKey) (m : GeminiKeyManager)
  : GeminiKeyManager :=
  with_keys (alter f i (keys m)) m.

(** [enumerate(api_keys)] *)
Fixpoint enumerate_from {A} (i : nat) (l : list A) : list (nat * A) :=
  match l with
  | [] => []
  | x :: l' => (i, x) :: enumerate_from (S i) l'
  end.

(** [GeminiKeyManager.__init__] *)
Definition init (api_keys : list string) : GeminiKeyManager :=
  mkManager (map (λ p, new_APIKey (snd p) (fst p)) (enumerate_from 0 api_keys))
            0 ∅.

(** [self.models] *)
Definition models : gmap string string :=
  list_to_map [("orchestrator", "gemini-3-flash-preview");
               ("vision", "gemini-3-flash-preview");
               ("fallback", "gemini-3-flash-preview");
               ("creative", "gemini-3-flash-preview");
               ("pro", "gemini-3-pro-preview")]%string.

(** ** Exceptions and results *)

Inductive PyExn : Type :=
  | PyException (msg : string)
  | IndexError
  | UnboundLocalError (name : string).

Inductive Res (A : Type) : Type :=
  | Return (a : A)
  | Raise (e : PyExn).
Arguments Return {A} a.
Arguments Raise {A} e.

(** ** The scheduler *)

(** The [while attempts < len(self.keys)] loop of [get_next_key]; [fuel]
    is [len(self.keys) - attempts].  The result is the position of the
    returned key object, [None] for Python's [None]. *)
Fixpoint get_next_key_loop (current_time : Z) (fuel : nat) (m : GeminiKeyManager)
  : Res (option nat) * GeminiKeyManager :=
  match fuel with
  | O => (Return None, m)
  | S fuel' =>
    let pos := current_index m in
    match keys m !! pos with
    | None => (Raise IndexError, m)
    | Some k =>
      let m1 := with_current_index ((pos + 1) mod length (keys m)) m in
      match status k with
      | AVAILABLE => (Return (Some pos), m1)
      | RATE_LIMITED =>
        if (cooldown_until k <? current_time)%Z then
          (Return (Some pos),
           update_key pos (λ k, set_error_count 0 (set_status AVAILABLE k)) m1)
        else get_next_key_loop current_time fuel' m1
      | _ => get_next_key_loop current_time fuel' m1
      end
    end
  end.

Definition get_next_key (current_time : Z) (m : GeminiKeyManager)
  : Res (option nat) * GeminiKeyManager :=
  get_next_key_loop current_time (length (keys m)) m.

Definition mark_rate_limited (now : Z) (i : nat) (cooldown_seconds : Z)
    (m : GeminiKeyManager) : GeminiKeyManager :=
  update_key i (λ k,
    let k1 := set_status RATE_LIMITED k in
    let k2 := set_cooldown_until (now + cooldown_seconds)%Z k1 in
    set_error_count (error_count k2 + 1)%Z k2) m.

Definition mark_error (i : nat) (m : GeminiKeyManager) : GeminiKeyManager :=
  update_key i (λ k,
    let k1 := set_error_count (error_count k + 1)%Z k in
    if (3 <=? error_count k1)%Z then set_status ERROR k1 else k1) m.

Definition mark_success (now : Z) (i : nat) (m : GeminiKeyManager)
  : GeminiKeyManager :=
  update_key i (λ k, set_error_count 0 (set_last_used now k)) m.

(** One atomic scheduler operation, as a concurrent caller or the executor
    issues it. *)
Inductive Op : Type :=
  | OpSelect (now : Z)
  | OpMarkRateLimited (now : Z) (i : nat) (cooldown_seconds : Z)
  | OpMarkError (i : nat)
  | OpMarkSuccess (now : Z) (i : nat).

Definition run_op (o : Op) (m : GeminiKeyManager) : GeminiKeyManager :=
  match o with
  | OpSelect now => snd (get_next_key now m)
  | OpMarkRateLimited now i c => mark_rate_limited now i c m
  | OpMarkError i => mark_error i m
  | OpMarkSuccess now i => mark_success now i m
  end.

(** What a [select()] operation hands to its caller. *)
Definition op_result (o : Op) (m : GeminiKeyManager) : Res (option nat) :=
  match o with
  | OpSelect now => fst (get_next_key now m)
  | _ => Return None
  end.

Definition run_ops (os : list Op) (m : GeminiKeyManager) : GeminiKeyManager :=
  foldl (λ m o, run_op o m) m os.

(** The results of the successive operations of a run. *)
Fixpoint results (os : list Op) (m : GeminiKeyManager) : list (Res (option nat)) :=
  match os with
  | [] => []
  | o :: os' => op_result o m :: results os' (run_op o m)
  end.

(** ** Strings: [str.lower()], [sub in s], [str.split(",")], [str.strip()]

    Text is a string of bytes (UTF-8).  [lower] maps the ASCII capitals;
    the keywords searched for below are ASCII, and no other code point
    lower-cases to one of their letters. *)

Definition lower_ascii (c : ascii) : ascii :=
  let n := Ascii.N_of_ascii c in
  if ((65 <=? n) && (n <=? 90))%N then Ascii.ascii_of_N (n + 32) else c.

Fixpoint lower (s : string) : string :=
  match s with
  | EmptyString => EmptyString
  | String c s' => String (lower_ascii c) (lower s')
  end.

(** [sub in s] *)
Fixpoint str_in (sub s : string) : bool :=
  String.prefix sub s ||
  match s with
  | EmptyString => false
  | String _ s' => str_in sub s'
  end.

(** [s.split(sep)] for a one-character separator. *)
Fixpoint split (sep : ascii) (s : string) : list string :=
  match s with
  | EmptyString => [EmptyString]
  | String c s' =>
    if Ascii.eqb c sep then EmptyString :: split sep s'
    else match split sep s' with
         | x :: r => String c x :: r
         | [] => [String c EmptyString]
         end
  end.

(** The ASCII characters for which [str.isspace()] holds. *)
Definition is_space (c : ascii) : bool :=
  let n := Ascii.N_of_ascii c in
  ((9 <=? n) && (n <=? 13) || (28 <=? n) && (n <=? 32))%N.

Fixpoint lstrip (s : string) : string :=
  match s with
  | EmptyString => EmptyString
  | String c s' => if is_space c then lstrip s' else s
  end.

Definition strip (s : string) : string :=
  String.rev (lstrip (String.rev (lstrip s))).

Definition nonempty (s : string) : bool :=
  match s with EmptyString => false | _ => true end.

(** ** The executor: [get_client], [get_model], [call_with_retry] *)

(** One call to the external service. *)
Record Request : Type := mkRequest {
  req_client : Client;
  req_model : string;
  req_contents : string
}.

(** What the executor touches outside the manager: the clock (the number
    of readings taken so far), the requests sent to the service, the lines
    printed, and the seconds slept. *)
Record World : Type := mkWorld {
  ticks : nat;
  requests : list Request;
  stdout : list string;
  slept : Z
}.

Definition world0 : World := mkWorld 0 [] [] 0.

(** [str(e)] *)
Definition str (e : PyExn) : string :=
  match e with
  | PyException msg => msg
  | IndexError => "list index out of range"
  | UnboundLocalError name =>
      "cannot access local variable '" +:+ name +:+
      "' where it is not associated with a value"
  end.

(** Computations over the manager and the world that may raise. *)
Definition M (A : Type) : Type :=
  GeminiKeyManager * World → Res A * (GeminiKeyManager * World).

Definition ret {A} (a : A) : M A := λ s, (Return a, s).
Definition raise {A} (e : PyExn) : M A := λ s, (Raise e, s).
Definition bind {A B} (c : M A) (k : A → M B) : M B :=
  λ s, match c s with
       | (Return a, s') => k a s'
       | (Raise e, s') => (Raise e, s')
       end.

Declare Scope exec_scope.
Delimit Scope exec_scope with exec.
Notation "x <- c ;; k" := (bind c (λ x, k))
  (at level 100, c at next level, right associativity) : exec_scope.
Notation "c ;; k" := (bind c (λ _, k))
  (at level 100, right associativity) : exec_scope.
Local Open Scope exec_scope.

(** A mutation of the manager under the lock. *)
Definition locked (f : GeminiKeyManager → GeminiKeyManager) : M unit :=
  λ '(m, w), (Return tt, (f m, w)).

Definition print (line : string) : M unit :=
  λ '(m, w), (Return tt,
    (m, mkWorld (ticks w) (requests w) (stdout w ++ [line]) (slept w))).

(** [time.sleep(seconds)] *)
Definition time_sleep (seconds : Z) : M unit :=
  λ '(m, w), (Return tt,
    (m, mkWorld (ticks w) (requests w) (stdout w) (slept w + seconds)%Z)).

(** Reading a local variable of the running function. *)
Definition local {A} (name : string) (v : option A) : M A :=
  match v with
  | Some a => ret a
  | None => raise (UnboundLocalError name)
  end.

(** The key object behind a reference. *)
Definition key_object (k : nat) (m : GeminiKeyManager) : APIKey :=
  default (new_APIKey "" k) (keys m !! k).

Section Executor.

  (** [clock n] is the value of the [n]-th reading of [time.time()];
      [generate_content n req] is the service's answer to the request
      [req] when [n] requests were sent before it: the response text, or
      the exception the client library raises.  The generation options
      ([**kwargs]) are handed to the service unexamined; they are part of
      [generate_content]. *)
Variable clock : nat → Z.
Variable generate_content : nat → Request → Res string.

Definition time_time : M Z :=
    λ '(m, w), (Return (clock (ticks w)),
      (m, mkWorld (S (ticks w)) (requests w) (stdout w) (slept w))).

Definition self_get_next_key : M (option nat) :=
    current_time <- time_time ;;
    λ '(m, w), let '(r, m') := get_next_key current_time m in (r, (m', w)).

Definition self_mark_rate_limited (k : nat) (cooldown_seconds : Z) : M unit :=
    now <- time_time ;; locked (mark_rate_limited now k cooldown_seconds).

Definition self_mark_error (k : nat) : M unit := locked (mark_error k).

Definition self_mark_success (k : nat) : M unit :=
    now <- time_time ;; locked (mark_success now k).

Definition get_client (k : nat) : M Client :=
    λ '(m, w),
      let ko := key_object k m in
      match clients m !! index ko with
      | Some c => (Return c, (m, w))
      | None =>
        let c := mkClient (key ko) in
        (Return c, (with_clients (<[index ko := c]> (clients m)) m, w))
      end.

Definition get_model (purpose : string) : M (Client * string * nat) :=
    key <- self_get_next_key ;;
    match key with
    | None => raise (PyException "All API keys exhausted or rate limited")
    | Some k =>
      client <- get_client k ;;
      let model_name := default (models !!! "fallback"%string) (models !! purpose) in
      ret (client, model_name, k)
    end.

Definition models_generate_content (client : Client) (model_name prompt : string)
    : M string :=
    λ '(m, w),
      let req := mkRequest client model_name prompt in
      (generate_content (length (requests w)) req,
       (m, mkWorld (ticks w) (requests w ++ [req]) (stdout w) (slept w))).

  (** The [except Exception as e] clause of [call_with_retry]; [key] is
      the local variable of that name, [None] while it is unbound. *)
Definition except_clause (e : PyExn) (key : option nat) : M unit :=
    let error_str := lower (str e) in
    (if str_in "quota" error_str || str_in "rate" error_str
        || str_in "429" error_str then
       k <- local "key" key ;; self_mark_rate_limited k 60
     else if str_in "resource" error_str || str_in "exhausted" error_str then
       k <- local "key" key ;; self_mark_rate_limited k 300
     else
       k <- local "key" key ;; self_mark_error k ;;
       print ("[ERROR] " +:+ str e)) ;;
    time_sleep 1.

  (** The [for attempt in range(max_retries)] loop; [n] attempts remain
      and [key] is the binding of the local variable left by the earlier
      attempts. *)
Fixpoint call_with_retry_loop (purpose prompt : string) (n : nat)
      (key : option nat) : M (option string) :=
    match n with
    | O => ret None
    | S n' => λ s,
      match get_model purpose s with
      | (Raise e, s1) =>
        (except_clause e key ;; call_with_retry_loop purpose prompt n' key) s1
      | (Return (client, model_name, k), s1) =>
        match (response <- models_generate_content client model_name prompt ;;
               self_mark_success k ;; ret response) s1 with
        | (Return text, s2) => (Return (Some text), s2)
        | (Raise e, s2) =>
          (except_clause e (Some k) ;;
           call_with_retry_loop purpose prompt n' (Some k)) s2
        end
      end
    end.

Definition call_with_retry (purpose prompt : string) (max_retries : Z)
    : M (option string) :=
    call_with_retry_loop purpose prompt (Z.to_nat max_retries) None.

End Executor.

(** ** Module level: [_load_keys], [key_manager], the convenience functions *)

(** [_load_keys()]: the keys and the lines printed. [environ] is
    [os.environ]. *)
Definition _load_keys (environ : gmap string string) : list string * list string :=
  let env_keys := default ""%string (environ !! "GOOGLE_API_KEY"%string) in
  if negb (nonempty env_keys) then
    ([], ["[WARNING] No GOOGLE_API_KEY found in environment"%string])
  else
    (filter (λ k, nonempty k = true) (map strip (split "," env_keys)), []).

(** The module's globals once its top-level code has run. *)
Record Module : Type := mkModule {
  API_KEYS : list string;
  key_manager : option GeminiKeyManager;
  module_stdout : list string
}.

Definition import_module (environ : gmap string string) : Module :=
  let '(api_keys, out) := _load_keys environ in
  match api_keys with
  | _ :: _ => mkModule api_keys (Some (init api_keys)) out
  | [] =>
    mkModule api_keys None
      (out ++ ["[ERROR] No API keys configured. Set GOOGLE_API_KEY environment variable."%string])
  end.

Section Convenience.

Variable clock : nat → Z.
Variable generate_content : nat → Request → Res string.

  (** The state of a convenience call is the global [key_manager] and the
      world. *)
Definition with_key_manager (purpose prompt : string)
      (s : option GeminiKeyManager * World)
    : Res (option string) * (option GeminiKeyManager * World) :=
    match fst s with
    | None => (Return None, s)
    | Some m =>
      let '(r, (m', w')) :=
        call_with_retry clock generate_content purpose prompt 3 (m, snd s) in
      (r, (Some m', w'))
    end.

Definition call_orchestrator (prompt : string) := with_key_manager "orchestrator" prompt.
Definition call_vision (prompt : string) := with_key_manager "vision" prompt.

End Convenience.

(** ** Vocabulary of the statements *)

(** The test [get_next_key] applies to the key it examines: hand it out
    or step over it. *)
Definition selectable (now : Z) (k : APIKey) : bool :=
  match status k with
  | AVAILABLE => true
  | RATE_LIMITED => (cooldown_until k <? now)%Z
  | _ => false
  end.

(** The key as [get_next_key] hands it out. *)
Definition recovered (k : APIKey) : APIKey :=
  match status k with
  | RATE_LIMITED => set_error_count 0 (set_status AVAILABLE k)
  | _ => k
  end.

(** The scan of [get_next_key] at time [now] reaches position [i]: [i]
    lies [d] places after the cursor and every key before it on the way
    is stepped over. *)
Definition examines (now : Z) (m : GeminiKeyManager) (i : nat) : Prop :=
  ∃ d, d < length (keys m) ∧
       i = (current_index m + d) mod length (keys m) ∧
       ∀ d', d' < d →
         ∃ k, keys m !! ((current_index m + d') mod length (keys m)) = Some k ∧
              selectable now k = false.

(** [o] is one of the three marking operations applied to the key at
    position [i]. *)
Definition marks (i : nat) (o : Op) : bool :=
  match o with
  | OpSelect _ => false
  | OpMarkRateLimited _ j _ | OpMarkError j | OpMarkSuccess _ j => bool_decide (j = i)
  end.

Definition rate_limits (i : nat) (o : Op) : bool :=
  match o with
  | OpMarkRateLimited _ j _ => bool_decide (j = i)
  | _ => false
  end.

(** [o] leaves the key at [i] alone until [deadline]: no marking of it,
    and no scan later than [deadline]. *)
Definition quiet_until (i : nat) (deadline : Z) (o : Op) : bool :=
  match o with
  | OpSelect now => (now <=? deadline)%Z
  | _ => negb (marks i o)
  end.

(** The three classes of failure of the specification and the transition
    each one stands for. *)
Inductive FailureClass : Type :=
  | RateLimit
  | ResourceExhausted
  | TransientError.

Definition classify (error_text : string) : FailureClass :=
  let t := lower error_text in
  if str_in "quota" t || str_in "rate" t || str_in "429" t then RateLimit
  else if str_in "resource" t || str_in "exhausted" t then ResourceExhausted
  else TransientError.

Definition transition (c : FailureClass) (now : Z) (k : nat) : Op :=
  match c with
  | RateLimit => OpMarkRateLimited now k 60
  | ResourceExhausted => OpMarkRateLimited now k 300
  | TransientError => OpMarkError k
  end.

(** What the [except] clause leaves of the world: a failure classed as a
    rate limit or as resource exhaustion reads the clock once, any other
    failure prints a line; then one second is slept. *)
Definition world_after_failure (c : FailureClass) (e : PyExn) (w : World) : World :=
  match c with
  | TransientError =>
      mkWorld (ticks w) (requests w) (stdout w ++ ["[ERROR] " +:+ str e])
        (slept w + 1)
  | _ => mkWorld (S (ticks w)) (requests w) (stdout w) (slept w + 1)
  end.

(** The three statuses of the specification. *)
Definition three_state (k : APIKey) : Prop :=
  status k = AVAILABLE ∨ status k = RATE_LIMITED ∨ status k = ERROR.

(** The cursor points into the pool (or the pool is empty) and no
    [error_count] is negative. *)
Definition well_formed (m : GeminiKeyManager) : Prop :=
  (keys m = [] ∨ current_index m < length (keys m)) ∧
  Forall (λ k, (0 ≤ error_count k)%Z) (keys m).

(** The computation [c] keeps the property [P] of the manager, whether it
    returns or raises. *)
Definition preserves (P : GeminiKeyManager → Prop) {A} (c : M A) : Prop :=
  ∀ m w, P m → P (fst (snd (c (m, w)))).

(** The states a manager goes through: built by [__init__], then changed
    by scheduler operations and by calls of the executor, against any
    clock and any service. *)
Inductive reachable : GeminiKeyManager → Prop :=
  | reach_init api_keys : reachable (init api_keys)
  | reach_op o m : reachable m → reachable (run_op o m)
  | reach_get_model clock purpose m w :
      reachable m → reachable (fst (snd (get_model clock purpose (m, w))))
  | reach_call clock generate_content purpose prompt max_retries m w :
      reachable m →
      reachable (fst (snd (call_with_retry clock generate_content
                             purpose prompt max_retries (m, w)))).

(** ** Pools used in the examples *)

Definition pool1 : GeminiKeyManager := init ["k0"%string].

(** [pool1] after its key was rate limited at time 0 for 60 seconds. *)
Definition pool1_limited : GeminiKeyManager := mark_rate_limited 0 0 60 pool1.

(** [pool1] after three failures that are not rate limits. *)
Definition pool1_error : GeminiKeyManager :=
  mark_error 0 (mark_error 0 (mark_error 0 pool1)).

(** [pool1_limited] rate limited once more, at time 10. *)
Definition pool1_limited_twice : GeminiKeyManager :=
  mark_rate_limited 10 0 60 pool1_limited.

Definition pool3 : GeminiKeyManager := init ["A"; "B"; "C"]%string.

(** A pool of two keys, and a service that answers the second request
    with a rate limit and every other request with an internal error. *)
Definition pool2 : GeminiKeyManager := init ["A"; "B"]%string.

Definition flaky_service : nat → Request → Res string :=
  λ n _, if Nat.eqb n 1 then Raise (PyException "429 Too Many Requests")
         else Raise (PyException "Internal error").

Definition clock0 : nat → Z := λ n, Z.of_nat n.
Definition service_down (msg : string) : nat → Request → Res string :=
  λ _ _, Raise (PyException msg).

(** ** [get_status] *)

(** [k.status.value] *)
Definition KeyStatus_value (s : KeyStatus) : string :=
  match s with
  | AVAILABLE => "available"
  | RATE_LIMITED => "rate_limited"
  | EXHAUSTED => "exhausted"
  | ERROR => "error"
  end.

(** One value of the dictionary [get_status] returns. *)
Record StatusEntry : Type := mkStatusEntry {
  entry_status : string;
  entry_error_count : Z
}.

(** [f"key_{k.index + 1}"] *)
Definition status_name (k : APIKey) : string := "key_" +:+ pretty (index k + 1).

(** The dictionary comprehension of [get_status]: the keys are gone
    through in order, a later one overwriting an earlier one of the same
    name. *)
Definition get_status (m : GeminiKeyManager) : gmap string StatusEntry :=
  foldl (λ d k, <[status_name k :=
                    mkStatusEntry (KeyStatus_value (status k)) (error_count k)]> d)
        ∅ (keys m).


(** The characters of a string. *)
Fixpoint chars (s : string) : list ascii :=
  match s with
  | EmptyString => []
  | String c s' => c :: chars s'
  end.

(** The key at each position carries that position as its [index]. *)
Definition keys_identified (m : GeminiKeyManager) : Prop :=
  index <$> keys m = seq 0 (length (keys m)).

(** Every cached client was created with the secret of the key whose
    [index] it is filed under. *)
Definition cache_consistent (m : GeminiKeyManager) : Prop :=
  ∀ i c, clients m !! i = Some c →
    ∃ k, keys m !! i = Some k ∧ api_key c = key k.

Definition coherent (m : GeminiKeyManager) : Prop :=
  keys_identified m ∧ cache_consistent m.

(** The model name [get_model] resolves a purpose to. *)
Definition model_for (purpose : string) : string :=
  default (models !!! "fallback"%string) (models !! purpose).

(** A request as [call_with_retry] is meant to send it: the caller's
    prompt, the model of the purpose, a client made with one of the
    secrets [ks]. *)
Definition good_request (ks : list string) (purpose prompt : string)
    (req : Request) : Prop :=
  req_contents req = prompt ∧ req_model req = model_for purpose ∧
  api_key (req_client req) ∈ ks.

(** What a run of the retry loop with [n] attempts, started in the world
    [w] with the local [key] bound as [bound] says, may end in: the requests [sent], the seconds slept and, by
    result, what the caller can rely on. *)
Definition retry_outcome (generate_content : nat → Request → Res string)
    (ks : list string) (purpose prompt : string) (n : nat) (bound : option nat)
    (w : World) (res : Res (option string) * (GeminiKeyManager * World)) : Prop :=
  ∃ sent,
    requests (snd (snd res)) = requests w ++ sent ∧
    length sent ≤ n ∧
    Forall (good_request ks purpose prompt) sent ∧
    (slept w ≤ slept (snd (snd res)) ≤ slept w + Z.of_nat n)%Z ∧
    match fst res with
    | Return None => slept (snd (snd res)) = (slept w + Z.of_nat n)%Z
    | Return (Some text) =>
        (Z.of_nat (length sent) - 1 ≤ slept (snd (snd res)) - slept w)%Z ∧
        ∃ req k ko,
          last sent = Some req ∧
          generate_content (length (requests (snd (snd res))) - 1) req
            = Return text ∧
          keys (fst (snd res)) !! k = Some ko ∧
          status ko = AVAILABLE ∧ error_count ko = 0%Z ∧
          api_key (req_client req) = key ko
    | Raise e =>
        e = UnboundLocalError "key" ∧ bound = None ∧ sent = [] ∧
        slept (snd (snd res)) = slept w
    end.

(** A service that fails the first [n] requests with an internal error
    and answers [text] from then on. *)
Definition service_after (n : nat) (text : string) : nat → Request → Res string :=
  λ i _, if i <? n then Raise (PyException "Internal error") else Return text.


(** The states of a manager that is used as [vision_agent.py],
    [hierarchical_analyzer.py] and [orchestrator.py] use it: through
    [get_model] and [mark_success] only. *)
Inductive used_by_analyzers : GeminiKeyManager → Prop :=
  | used_init api_keys : used_by_analyzers (init api_keys)
  | used_get_model clock purpose m w :
      used_by_analyzers m →
      used_by_analyzers (fst (snd (get_model clock purpose (m, w))))
  | used_mark_success now i m :
      used_by_analyzers m → used_by_analyzers (mark_success now i m).

(** * The callers of the key manager *)

(** ** Python values

    The values [json.loads] yields.  A dictionary is kept as the list of
    its items; the first item of a name is the one the dictionary
    holds. *)

#[local] Set Warnings "-register-all".
Inductive PyVal : Type :=
  | VNone
  | VBool (b : bool)
  | VInt (z : Z)
  | VFloat (f : float)
  | VStr (s : string)
  | VList (l : list PyVal)
  | VDict (d : list (string * PyVal)).
#[local] Set Warnings "register-all".

Abbreviation PyDict := (list (string * PyVal)).

(** [d.get(name, default)] *)
Fixpoint dict_get (d : PyDict) (name : string) (default : PyVal) : PyVal :=
  match d with
  | [] => default
  | (n, v) :: d' => if String.eqb n name then v else dict_get d' name default
  end.

(** [v in [s1, s2, ...]] for a list of string literals: [v == s] holds
    for the string [s] only. *)
Definition is_str (v : PyVal) (s : string) : bool :=
  match v with
  | VStr s' => String.eqb s' s
  | _ => false
  end.

(** The exceptions met outside the key manager. *)
Inductive AppExn : Type :=
  | FromManager (e : PyExn)
  | AttributeError (msg : string)
  | TypeError (msg : string)
  | ValueError (msg : string)
  | KeyError (name : string)
  | OSError (msg : string).

Definition app_str (e : AppExn) : string :=
  match e with
  | FromManager e => str e
  | AttributeError msg | TypeError msg | ValueError msg | OSError msg => msg
  | KeyError name => "'" +:+ name +:+ "'"
  end.

Inductive AppRes (A : Type) : Type :=
  | AReturn (a : A)
  | ARaise (e : AppExn).
Arguments AReturn {A} a.
Arguments ARaise {A} e.

(** [len(v)] *)
Definition py_len (v : PyVal) : AppRes nat :=
  match v with
  | VStr s => AReturn (String.length s)
  | VList l => AReturn (length l)
  | VDict d => AReturn (length d)
  | VNone => ARaise (TypeError "object of type 'NoneType' has no len()")
  | VBool _ => ARaise (TypeError "object of type 'bool' has no len()")
  | VInt _ => ARaise (TypeError "object of type 'int' has no len()")
  | VFloat _ => ARaise (TypeError "object of type 'float' has no len()")
  end.

(** ** [hierarchical_analyzer.py] *)

(** A request with a video: the client, the model, the bytes of the
    file and the prompt. *)
Record MediaRequest : Type := mkMediaRequest {
  media_client : Client;
  media_model : string;
  media_bytes : string;
  media_prompt : string
}.

(** The state the analyzers act on: the module global [key_manager], the
    world of the key manager, and the requests with a video sent so
    far. *)
Record AppState : Type := mkAppState {
  app_key_manager : option GeminiKeyManager;
  app_world : World;
  media_requests : list MediaRequest
}.

Definition app_print (line : string) (s : AppState) : AppState :=
  mkAppState (app_key_manager s)
    (mkWorld (ticks (app_world s)) (requests (app_world s))
       (stdout (app_world s) ++ [line]) (slept (app_world s)))
    (media_requests s).

(** The error report of an analyzer. *)
Definition error_dict (msg : string) : PyDict := [("error"%string, VStr msg)].

Section Analyzers.

(** What the analyzers take from outside: the clock, the file system
    ([os.path.exists], [Path(...).name], reading a file), the service
    ([generate_media n req] answers the request [req] sent when [n]
    requests with a video were sent before), [_parse_response] (a regular
    expression and [json.loads]; it returns a dictionary and raises
    nothing), and the texts of the prompts (constants of the source; the
    visual prompt is built from the focus areas at the time of the
    call). *)
Variable clock : nat → Z.
Variable path_exists : string → bool.
Variable path_name : string → string.
Variable read_file : string → AppRes string.
Variable generate_media : nat → MediaRequest → AppRes string.
Variable parse_response : string → PyDict.
Variable audio_prompt : string.
Variable visual_prompt : nat → PyVal → string.

(** [key_manager.get_model(purpose)] on the module global. *)
Definition app_get_model (purpose : string) (s : AppState)
  : AppRes (Client * string * nat) * AppState :=
  match app_key_manager s with
  | None =>
    (ARaise (AttributeError "'NoneType' object has no attribute 'get_model'"), s)
  | Some m =>
    match get_model clock purpose (m, app_world s) with
    | (Return r, (m', w')) =>
        (AReturn r, mkAppState (Some m') w' (media_requests s))
    | (Raise e, (m', w')) =>
        (ARaise (FromManager e), mkAppState (Some m') w' (media_requests s))
    end
  end.

(** [key_manager.mark_success(key)] on the module global, after a
    [get_model] that returned. *)
Definition app_mark_success (k : nat) (s : AppState) : AppState :=
  match app_key_manager s with
  | None => s
  | Some m =>
    let '(_, (m', w')) := self_mark_success clock k (m, app_world s) in
    mkAppState (Some m') w' (media_requests s)
  end.

(** The body of the [try] of [analyze_audio_first] and of
    [analyze_visual_deep]: [tag] is the tag of the line printed, [verb]
    the word after it, [prompt] the prompt as it is built once the file
    is read. *)
Definition analyze_try (tag verb : string) (prompt : AppState → string)
    (video_path : string) (s : AppState) : AppRes PyDict * AppState :=
  match app_get_model "vision" s with
  | (ARaise e, s1) => (ARaise e, s1)
  | (AReturn (client, model_name, k), s1) =>
    let s2 := app_print (tag +:+ " " +:+ verb +:+ ": " +:+ path_name video_path +:+ "...") s1 in
    match read_file video_path with
    | ARaise e => (ARaise e, s2)
    | AReturn video_bytes =>
      let req := mkMediaRequest client model_name video_bytes (prompt s2) in
      let s3 := mkAppState (app_key_manager s2) (app_world s2)
                  (media_requests s2 ++ [req]) in
      match generate_media (length (media_requests s2)) req with
      | ARaise e => (ARaise e, s3)
      | AReturn text =>
        (AReturn (parse_response text), app_mark_success k s3)
      end
    end
  end.

(** The [except Exception as e] clause of the two analyzers. *)
Definition analyze_except (tag : string) (e : AppExn) (s : AppState)
  : PyDict * AppState :=
  (error_dict (app_str e), app_print (tag +:+ " Error: " +:+ app_str e) s).

Definition analyze (tag verb : string) (prompt : AppState → string)
    (video_path : string) (s : AppState) : PyDict * AppState :=
  if negb (path_exists video_path) then
    (error_dict ("Video not found: " +:+ video_path), s)
  else
    match analyze_try tag verb prompt video_path s with
    | (AReturn d, s') => (d, s')
    | (ARaise e, s') => analyze_except tag e s'
    end.

Definition analyze_audio_first (video_path : string) (s : AppState)
  : PyDict * AppState :=
  analyze "[AUDIO]" "Scanning" (λ _, audio_prompt) video_path s.

Definition analyze_visual_deep (video_path : string) (focus_areas : PyVal)
    (s : AppState) : PyDict * AppState :=
  analyze "[VISUAL]" "Deep analysis"
    (λ s, visual_prompt (ticks (app_world s)) focus_areas) video_path s.

(** The decision [hierarchical_analysis] falls back on when the visual
    phase is skipped. *)
Definition routine_decision : PyDict :=
  [("zone_status", VStr "NORMAL"); ("recommended_asset", VStr "TRUCK");
   ("action_trigger", VStr "MONITOR"); ("urgency_level", VStr "routine")]%string.

Definition skipped_visual : PyDict :=
  [("skipped", VBool true); ("reason", VStr "Low audio priority")]%string.

(** The result dictionary of [hierarchical_analysis]. *)
Definition hierarchical_result (video_path : string)
    (audio_result visual_result : PyDict) (final_decision : PyVal) : PyDict :=
  [("video", VStr (path_name video_path));
   ("analysis_type", VStr "hierarchical");
   ("phases", VDict [("audio", VDict audio_result);
                     ("visual", VDict visual_result)]);
   ("final_decision", final_decision)]%string.

Definition hierarchical_analysis (video_path : string) (s : AppState)
  : AppRes PyDict * AppState :=
  let s0 := app_print (String "010" "=== PHASE 1: AUDIO SCAN ===") s in
  let '(audio_result, s1) := analyze_audio_first video_path s0 in
  let priority := dict_get audio_result "priority_for_visual" (VStr "medium") in
  let distress_events := dict_get audio_result "distress_events" (VList []) in
  let go_visual : AppRes bool :=
    if is_str priority "high" || is_str priority "critical" then AReturn true
    else match py_len distress_events with
         | AReturn n => AReturn (0 <? n)
         | ARaise e => ARaise e
         end in
  match go_visual with
  | ARaise e => (ARaise e, s1)
  | AReturn true =>
    let s2 := app_print (String "010" "=== PHASE 2: VISUAL DEEP ANALYSIS ===") s1 in
    let '(visual_result, s3) := analyze_visual_deep video_path distress_events s2 in
    (AReturn (hierarchical_result video_path audio_result visual_result
                (dict_get visual_result "logistics_decision" (VDict []))), s3)
  | AReturn false =>
    let s2 := app_print
      "[SKIP] Audio indicates low priority. Skipping deep visual analysis." s1 in
    (AReturn (hierarchical_result video_path audio_result skipped_visual
                (VDict routine_decision)), s2)
  end.

End Analyzers.

(** ** [asset_manager.py] *)

(** The three subclasses of [Asset]; the base class itself is never
    instantiated. *)
Inductive AssetClass : Type :=
  | Truck
  | Okada
  | Canoe.

(** An asset object: its class and the attributes [Asset.__init__]
    sets. *)
Record Asset : Type := mkAsset {
  asset_class : AssetClass;
  asset_id : string;
  asset_type : string;
  current_location : string;
  asset_status : string
}.

(** [Truck(id, loc)], [Okada(id, loc)], [Canoe(id, loc)] *)
Definition new_asset (c : AssetClass) (id current_location : string) : Asset :=
  mkAsset c id
    (match c with Truck => "TRUCK" | Okada => "OKADA" | Canoe => "CANOE" end)
    current_location "IDLE".

(** [self.max_depth] of a truck (0.4) and of an okada (0.2),
    [self.min_depth] of a canoe (0.3): the doubles nearest to these
    decimals. *)
Definition depth_limit (c : AssetClass) : float :=
  match c with
  | Truck => 0x1.999999999999ap-2
  | Okada => 0x1.999999999999ap-3
  | Canoe => 0x1.3333333333333p-2
  end%float.

(** [asset.can_traverse(water_depth_m)] *)
Definition can_traverse (a : Asset) (water_depth_m : float) : bool :=
  match asset_class a with
  | Truck | Okada => PrimFloat.leb water_depth_m (depth_limit (asset_class a))
  | Canoe => PrimFloat.leb (depth_limit (asset_class a)) water_depth_m
  end.

(** [get_asset_manager()[name]] *)
Definition get_asset_manager (name : string) : option AssetClass :=
  if String.eqb name "Truck" then Some Truck
  else if String.eqb name "Okada" then Some Okada
  else if String.eqb name "Canoe" then Some Canoe
  else None.

(** ** [orchestrator.py] *)

Definition upper_ascii (c : ascii) : ascii :=
  let n := Ascii.N_of_ascii c in
  if ((97 <=? n) && (n <=? 122))%N then Ascii.ascii_of_N (n - 32) else c.

(** [s.upper()], on ASCII letters. *)
Fixpoint upper (s : string) : string :=
  match s with
  | EmptyString => EmptyString
  | String c s' => String (upper_ascii c) (upper s')
  end.

(** A decision dictionary: its four items; [None] is Python's [None]. *)
Record Decision : Type := mkDecision {
  action : string;
  target_asset : option string;
  new_type : option string;
  reasoning : string
}.

(** The attributes of an [Orchestrator] besides its vision agent;
    [assets] is the dictionary, in insertion order, [thought_history] and
    [mission_log] are lists of dictionaries. *)
Record Orchestrator : Type := mkOrchestrator {
  assets : list (string * Asset);
  thought_history : list PyDict;
  last_thought_signature : string;
  mission_log : list PyDict
}.

(** [Orchestrator.__init__] *)
Definition new_Orchestrator : Orchestrator :=
  mkOrchestrator [("logistics_1"%string, new_asset Truck "logistics_1" "Mainland Depot")]
    [] "init_state_000" [].

(** [d[name]], [None] when the name is missing. *)
Fixpoint assets_lookup (d : list (string * Asset)) (name : string) : option Asset :=
  match d with
  | [] => None
  | (n, a) :: d' => if String.eqb n name then Some a else assets_lookup d' name
  end.

(** [d[name] = a] for a name the dictionary holds. *)
Fixpoint assets_update (d : list (string * Asset)) (name : string) (a : Asset)
  : list (string * Asset) :=
  match d with
  | [] => []
  | (n, a') :: d' =>
    if String.eqb n name then (n, a) :: d' else (n, a') :: assets_update d' name a
  end.

(** [water_level >= 40] *)
Definition at_least_40 (water_level : PyVal) : AppRes bool :=
  match water_level with
  | VInt z => AReturn (40 <=? z)%Z
  | VBool _ => AReturn false
  | VFloat f => AReturn (PrimFloat.leb 40 f)
  | VNone =>
    ARaise (TypeError "'>=' not supported between instances of 'NoneType' and 'int'")
  | VStr _ =>
    ARaise (TypeError "'>=' not supported between instances of 'str' and 'int'")
  | VList _ =>
    ARaise (TypeError "'>=' not supported between instances of 'list' and 'int'")
  | VDict _ =>
    ARaise (TypeError "'>=' not supported between instances of 'dict' and 'int'")
  end.

(** The elements of the tuple [get_model] returns. *)
Inductive PyObj : Type :=
  | OClient (c : Client)
  | OStr (s : string)
  | OKey (k : nat).

Section Brain.

(** [clock] is the clock of the key manager.  [py_str v] is [str(v)] and
    [py_hash s] is [hash(s)] (salted per process); [unpack_message n] is
    the text of the [ValueError] raised when a tuple of [n] elements is
    unpacked into two names.  [rest_of_try] stands for what the [try] of
    [_call_gemini_brain] does once [model, key = ...] has bound its two
    names: calling the model, marking the key, parsing, signing and
    recording the decision. *)
Variable clock : nat → Z.
Variable py_str : PyVal → string.
Variable py_hash : string → Z.
Variable unpack_message : nat → string.
Variable rest_of_try :
  PyObj → PyObj → Orchestrator * AppState →
  AppRes (Decision * string) * (Orchestrator * AppState).

(** [a, b = t] *)
Definition unpack2 (t : list PyObj) : AppRes (PyObj * PyObj) :=
  match t with
  | [a; b] => AReturn (a, b)
  | _ => ARaise (ValueError (unpack_message (length t)))
  end.

Definition _fallback_decision (water_level : PyVal) (asset_type previous_signature : string)
  : AppRes (Decision * string) :=
  let new_signature :=
    "fallback_" +:+ pretty (py_hash (py_str water_level +:+ previous_signature)) in
  match at_least_40 water_level with
  | ARaise e => ARaise e
  | AReturn big =>
    if big && String.eqb asset_type "TRUCK" then
      AReturn (mkDecision "SWAP_ASSET" (Some "logistics_1"%string) (Some "Canoe"%string)
                 ("Water " +:+ py_str water_level +:+
                  "cm exceeds Truck limit (40cm). Switching to Canoe."),
               new_signature)
    else
      AReturn (mkDecision "MAINTAIN" None None
                 ("Conditions acceptable for " +:+ asset_type +:+ "."),
               new_signature)
  end.

(** The [except Exception as e] clause of [_call_gemini_brain]. *)
Definition brain_except (e : AppExn) (water_level : PyVal)
    (asset_type previous_signature : string) (st : Orchestrator * AppState)
  : AppRes (Decision * string) * (Orchestrator * AppState) :=
  (_fallback_decision water_level asset_type previous_signature,
   (fst st,
    app_print ("[BRAIN] API Error: " +:+ app_str e +:+ " - Using fallback logic")
      (snd st))).

Definition _call_gemini_brain (vision_data : PyDict) (previous_signature : string)
    (st : Orchestrator * AppState)
  : AppRes (Decision * string) * (Orchestrator * AppState) :=
  let water_level :=
    dict_get vision_data "water_level_estimate_cm"
      (dict_get vision_data "raw_level" (VInt 0)) in
  match assets_lookup (assets (fst st)) "logistics_1" with
  | None => (ARaise (KeyError "logistics_1"), st)
  | Some current_asset =>
    let asset_type := asset_type current_asset in
    match app_get_model clock "orchestrator" (snd st) with
    | (ARaise e, s1) =>
        brain_except e water_level asset_type previous_signature (fst st, s1)
    | (AReturn (client, model_name, k), s1) =>
      match unpack2 [OClient client; OStr model_name; OKey k] with
      | ARaise e =>
          brain_except e water_level asset_type previous_signature (fst st, s1)
      | AReturn (model, key) =>
        match rest_of_try model key (fst st, s1) with
        | (AReturn r, st') => (AReturn r, st')
        | (ARaise e, st') =>
            brain_except e water_level asset_type previous_signature st'
        end
      end
    end
  end.

Definition execute_swap (asset_id new_type_str : string)
    (st : Orchestrator * AppState) : AppRes unit * (Orchestrator * AppState) :=
  let s1 := app_print ("[ACTION] Swapping " +:+ asset_id +:+ " to " +:+
                       upper new_type_str +:+ "...") (snd st) in
  match assets_lookup (assets (fst st)) asset_id with
  | None => (ARaise (KeyError asset_id), (fst st, s1))
  | Some a =>
    match get_asset_manager new_type_str with
    | None => (ARaise (KeyError new_type_str), (fst st, s1))
    | Some new_class =>
      (AReturn tt,
       (mkOrchestrator
          (assets_update (assets (fst st)) asset_id
             (new_asset new_class asset_id (current_location a)))
          (thought_history (fst st)) (last_thought_signature (fst st))
          (mission_log (fst st)),
        app_print ("[SUCCESS] " +:+ asset_id +:+ " is now a " +:+ new_type_str +:+
                   ". Physics updated.") s1))
    end
  end.

End Brain.

(** [float(p)] for a positive integer, bit by bit; below 2^53 every
    step is exact. *)
Fixpoint float_of_pos (p : positive) : float :=
  match p with
  | xH => 1
  | xO p' => 2 * float_of_pos p'
  | xI p' => 2 * float_of_pos p' + 1
  end%float.

(** [float(z)], for an integer of less than 2^53 in absolute value. *)
Definition float_of_Z (z : Z) : float :=
  match z with
  | Z0 => 0
  | Zpos p => float_of_pos p
  | Zneg p => - float_of_pos p
  end%float.

(** [water_depth_cm / 100.0] *)
Definition cm_to_m (water_depth_cm : Z) : float :=
  (float_of_Z water_depth_cm / 100)%float.

(** A check of [P] on [z], [z] + 1, ..., [z] + [n] - 1. *)
Fixpoint all_from (n : nat) (z : Z) (P : Z → bool) : bool :=
  match n with
  | O => true
  | S n' => if P z then all_from n' (z + 1)%Z P else false
  end.

(** At [cm] centimetres of water, converted as [verify_assets] converts
    them, each class of asset can traverse exactly when the limits of
    the prompt of [_call_gemini_brain] say so: truck up to 40 cm, okada
    up to 20 cm, canoe from 30 cm. *)
Definition limits_agree (cm : Z) : bool :=
  Bool.eqb (can_traverse (new_asset Truck "" "") (cm_to_m cm)) (cm <=? 40)%Z
  && Bool.eqb (can_traverse (new_asset Okada "" "") (cm_to_m cm)) (cm <=? 20)%Z
  && Bool.eqb (can_traverse (new_asset Canoe "" "") (cm_to_m cm)) (30 <=? cm)%Z.

(** Files, services and parsers used in the examples. *)
Definition no_files : string → bool := λ _, false.
Definition all_files : string → bool := λ _, true.
Definition read_ok : string → AppRes string := λ _, AReturn "bytes"%string.
Definition media_down : nat → MediaRequest → AppRes string :=
  λ _ _, ARaise (OSError "503 Service Unavailable").
Definition media_ok : nat → MediaRequest → AppRes string :=
  λ _ _, AReturn "{}"%string.
Definition parse_raw : string → PyDict :=
  λ text, [("raw_response"%string, VStr text)].
Definition parse_null_events : string → PyDict :=
  λ _, [("distress_events"%string, VNone)].
Definition app0 (km : option GeminiKeyManager) : AppState :=
  mkAppState km world0 [].

(** ** [vision_agent.py] *)

(** [bool(v)], as [and], [not] and [if] take it. *)
Definition truthy (v : PyVal) : bool :=
  match v with
  | VNone => false
  | VBool b => b
  | VInt z => negb (z =? 0)%Z
  | VFloat f => negb (PrimFloat.eqb f 0)
  | VStr s => negb (String.eqb s "")
  | VList l => negb (Nat.eqb (length l) 0)
  | VDict d => negb (Nat.eqb (length d) 0)
  end.

(** [type(v).__name__] *)
Definition type_name (v : PyVal) : string :=
  match v with
  | VNone => "NoneType"
  | VBool _ => "bool"
  | VInt _ => "int"
  | VFloat _ => "float"
  | VStr _ => "str"
  | VList _ => "list"
  | VDict _ => "dict"
  end.

(** The attribute [v.get]: a dictionary has it, the other values raise
    [AttributeError]. *)
Definition get_of (v : PyVal) : AppRes PyDict :=
  match v with
  | VDict d => AReturn d
  | _ => ARaise (AttributeError
           ("'" +:+ type_name v +:+ "' object has no attribute 'get'"))
  end.

(** [v.get(name, default)] *)
Definition py_get (v : PyVal) (name : string) (default : PyVal) : AppRes PyVal :=
  match get_of v with
  | AReturn d => AReturn (dict_get d name default)
  | ARaise e => ARaise e
  end.

(** [v > 10] *)
Definition greater_than_10 (v : PyVal) : AppRes bool :=
  match v with
  | VInt z => AReturn (10 <? z)%Z
  | VBool _ => AReturn false
  | VFloat f => AReturn (PrimFloat.ltb 10 f)
  | _ => ARaise (TypeError
           ("'>' not supported between instances of '" +:+ type_name v +:+
            "' and 'int'"))
  end.

(** [d[name] = v]: the item of the name is replaced where it is, a new
    item goes to the end. *)
Fixpoint dict_set (d : PyDict) (name : string) (v : PyVal) : PyDict :=
  match d with
  | [] => [(name, v)]
  | (n, v') :: d' =>
    if String.eqb n name then (n, v) :: d' else (n, v') :: dict_set d' name v
  end.

(** An entry of [previous_readings]. *)
Record Reading : Type := mkReading {
  reading_water_level_cm : PyVal;
  reading_timestamp : Z
}.

Record VisionAgent : Type := mkVisionAgent {
  model_purpose : string;
  previous_readings : gmap string Reading
}.

Definition new_VisionAgent : VisionAgent := mkVisionAgent "vision" ∅.

(** The trend the single-shot branch of [_add_temporal_analysis]
    infers, with the conditions in the order of the source. *)
Definition inferred_trend (is_raining rain_intensity flooding_detected : PyVal)
  : string :=
  if truthy is_raining
     && (is_str rain_intensity "heavy" || is_str rain_intensity "moderate")
     && truthy flooding_detected
  then (if is_str rain_intensity "heavy" then "RISING_RAPIDLY" else "RISING")
  else if truthy is_raining && truthy flooding_detected then "RISING"
  else if negb (truthy is_raining) && truthy flooding_detected then "STABLE"
  else if negb (truthy flooding_detected) then "NOT_APPLICABLE"
  else "UNKNOWN".

Section Vision.

(** Beside what the analyzers take from outside: [vision_prompt n
    location_id] is the prompt built at clock tick [n] (it holds the time
    of day), [datetime_now n] the reading of [datetime.now()] at tick
    [n], and [py_str v] is [str(v)].  [compare_with_previous n
    current_level prev] stands for the branch of [_add_temporal_analysis]
    that compares with the previous reading of the location: it raises,
    or finds that no time has passed and adds nothing ([None]), or gives
    the dictionary to store under "temporal_analysis". *)
Variable clock : nat → Z.
Variable path_exists : string → bool.
Variable path_name : string → string.
Variable read_file : string → AppRes string.
Variable generate_media : nat → MediaRequest → AppRes string.
Variable parse_response : string → PyDict.
Variable vision_prompt : nat → string → string.
Variable datetime_now : nat → Z.
Variable py_str : PyVal → string.
Variable compare_with_previous : nat → PyVal → Reading → AppRes (option PyDict).

(** The dictionary of the single-shot inference. *)
Definition single_shot (is_raining rain_intensity flooding_detected : PyVal)
  : PyDict :=
  [("comparison_frame", VStr "SINGLE_SHOT_INFERENCE");
   ("inferred_from",
    VStr ("rain_intensity=" +:+ py_str rain_intensity +:+
          ", flooding=" +:+ py_str flooding_detected));
   ("trend", VStr (inferred_trend is_raining rain_intensity flooding_detected))
  ]%string.

Definition _add_temporal_analysis (a : VisionAgent) (result : PyDict)
    (location_id : string) (n : nat) : AppRes PyDict :=
  let flood_data :=
    dict_get result "flood_assessment"
      (dict_get result "visual_evidence" (VDict [])) in
  match py_get flood_data "water_level_cm" (VInt 0) with
  | ARaise e => ARaise e
  | AReturn current_level =>
    match previous_readings a !! location_id with
    | Some prev =>
      match compare_with_previous n current_level prev with
      | ARaise e => ARaise e
      | AReturn None => AReturn result
      | AReturn (Some analysis) =>
        AReturn (dict_set result "temporal_analysis" (VDict analysis))
      end
    | None =>
      let weather := dict_get result "weather_conditions" (VDict []) in
      match py_get weather "rain_intensity" (VStr "none") with
      | ARaise e => ARaise e
      | AReturn rain_intensity =>
        match py_get weather "is_raining" (VBool false) with
        | ARaise e => ARaise e
        | AReturn is_raining =>
          match get_of flood_data with
          | ARaise e => ARaise e
          | AReturn flood_items =>
            match greater_than_10 current_level with
            | ARaise e => ARaise e
            | AReturn above =>
              let flooding_detected :=
                dict_get flood_items "flooding_detected" (VBool above) in
              AReturn (dict_set result "temporal_analysis"
                         (VDict (single_shot is_raining rain_intensity
                                   flooding_detected)))
            end
          end
        end
      end
    end
  end.

(** The [try] of [analyze_video_frame]: up to [mark_success] and
    [_parse_response] it is the [try] of the other analyzers. *)
Definition video_frame_try (video_path location_id : string)
    (a : VisionAgent) (s : AppState)
  : AppRes PyDict * (VisionAgent * AppState) :=
  match analyze_try clock path_name read_file generate_media parse_response
          "[Vision]" "Uploading video"
          (λ s, vision_prompt (ticks (app_world s)) location_id)
          video_path s with
  | (ARaise e, s1) => (ARaise e, (a, s1))
  | (AReturn parsed, s1) =>
    match _add_temporal_analysis a parsed location_id (ticks (app_world s1)) with
    | ARaise e => (ARaise e, (a, s1))
    | AReturn result =>
      match py_get (dict_get result "visual_evidence" (VDict []))
              "water_level_cm" (VInt 0) with
      | ARaise e => (ARaise e, (a, s1))
      | AReturn water_level =>
        (AReturn result,
         (mkVisionAgent (model_purpose a)
            (<[location_id :=
                 mkReading water_level (datetime_now (ticks (app_world s1)))]>
               (previous_readings a)),
          s1))
      end
    end
  end.

(** The report of the [except Exception as e] clause. *)
Definition frame_error (msg : string) : PyDict :=
  [("error", VStr msg); ("source", VStr "error")]%string.

Definition analyze_video_frame (video_path location_id : string)
    (a : VisionAgent) (s : AppState) : PyDict * (VisionAgent * AppState) :=
  if negb (path_exists video_path) then
    (error_dict ("Video not found: " +:+ video_path), (a, s))
  else
    match video_frame_try video_path location_id a s with
    | (AReturn result, st) => (result, st)
    | (ARaise e, (a', s')) =>
      (frame_error (app_str e),
       (a', app_print ("[Vision] Error: " +:+ app_str e) s'))
    end.

End Vision.

(** An answer that follows the schema of the prompt of the vision agent:
    knee-deep water under heavy rain. *)
Definition knee_deep : PyDict :=
  [("flood_assessment",
    VDict [("flooding_detected", VBool true); ("water_level_cm", VInt 40)]);
   ("weather_conditions",
    VDict [("is_raining", VBool true); ("rain_intensity", VStr "heavy")])
  ]%string.

(** The same with the water level given as a text. *)
Definition knee_deep_text : PyDict :=
  [("flood_assessment",
    VDict [("flooding_detected", VBool true); ("water_level_cm", VStr "40cm")]);
   ("weather_conditions",
    VDict [("is_raining", VBool true); ("rain_intensity", VStr "heavy")])
  ]%string.

Definition str_of_example : PyVal → string :=
  λ v, match v with
       | VStr s => s
       | VBool true => "True"
       | VBool false => "False"
       | _ => "?"
       end.

Definition no_comparison : nat → PyVal → Reading → AppRes (option PyDict) :=
  λ _ _ _, AReturn None.

Definition parse_knee_deep : string → PyDict := λ _, knee_deep.
Definition parse_knee_deep_text : string → PyDict := λ _, knee_deep_text.

(** * Properties *)

(** ** Updating one key *)

Lemma keys_update_key i f m :
  keys (update_key i f m) = alter f i (keys m).
Proof. reflexivity. Qed.

Lemma lookup_update_key i j f m :
  keys (update_key i f m) !! j =
  if decide (i = j) then f <$> keys m !! i else keys m !! j.
Proof.
  rewrite keys_update_key. apply list_lookup_alter.
Qed.

Lemma length_update_key i f m :
  length (keys (update_key i f m)) = length (keys m).
Proof. rewrite keys_update_key. apply length_alter. Qed.

Lemma with_current_index_id m : with_current_index (current_index m) m = m.
Proof. by destruct m. Qed.

(** ** The scan *)

(** What a scan does to the keys, whatever the cursor. *)
Lemma get_next_key_loop_keys now fuel m :
  match fst (get_next_key_loop now fuel m) with
  | Return (Some p) =>
      ∃ k, keys m !! p = Some k ∧ selectable now k = true ∧
           keys (snd (get_next_key_loop now fuel m)) = <[p := recovered k]> (keys m)
  | _ => keys (snd (get_next_key_loop now fuel m)) = keys m
  end.
Proof.
  revert m. induction fuel as [|fuel IH]; intros m; simpl; [done|].
  destruct (keys m !! current_index m) as [k|] eqn:Hk; simpl; [|done].
  set (m1 := with_current_index _ m).
  assert (Hm1 : keys m1 = keys m) by done.
  destruct (status k) eqn:Hs; simpl.
  - exists k. unfold selectable, recovered. rewrite Hs.
    split_and!; [done..|]. by rewrite list_insert_id.
  - destruct (cooldown_until k <? now)%Z eqn:Hc; simpl.
    + exists k. unfold selectable, recovered. rewrite Hs.
      split_and!; [done..|].
      apply list_eq. intros j. rewrite list_lookup_alter, list_lookup_insert.
      apply lookup_lt_Some in Hk as Hlt. simpl.
      repeat case_decide; try lia; subst; rewrite ?Hk; naive_solver.
    + specialize (IH m1). rewrite Hm1 in IH. exact IH.
  - specialize (IH m1). rewrite Hm1 in IH. exact IH.
  - specialize (IH m1). rewrite Hm1 in IH. exact IH.
Qed.

Lemma get_next_key_keys now m :
  match fst (get_next_key now m) with
  | Return (Some p) =>
      ∃ k, keys m !! p = Some k ∧ selectable now k = true ∧
           keys (snd (get_next_key now m)) = <[p := recovered k]> (keys m)
  | _ => keys (snd (get_next_key now m)) = keys m
  end.
Proof. apply get_next_key_loop_keys. Qed.

Lemma cursor_step c d n : ((c + 1) mod n + d) mod n = (c + S d) mod n.
Proof.
  rewrite Nat.Div0.add_mod_idemp_l. f_equal. lia.
Qed.

(** With the cursor inside the pool a scan raises nothing and leaves the
    cursor inside the pool. *)
Lemma get_next_key_loop_cursor now fuel m :
  current_index m < length (keys m) →
  (∃ r, fst (get_next_key_loop now fuel m) = Return r) ∧
  current_index (snd (get_next_key_loop now fuel m)) < length (keys m) ∧
  clients (snd (get_next_key_loop now fuel m)) = clients m.
Proof.
  revert m. induction fuel as [|fuel IH]; intros m Hc; simpl; [eauto|].
  destruct (lookup_lt_is_Some_2 _ _ Hc) as [k Hk]. rewrite Hk.
  set (m1 := with_current_index _ m).
  assert (Hc1 : current_index m1 < length (keys m1)).
  { simpl. apply Nat.mod_upper_bound. lia. }
  destruct (status k); [simpl; eauto| |by apply (IH m1)..].
  destruct (cooldown_until k <? now)%Z; [simpl; eauto|by apply (IH m1)].
Qed.

(** The scan steps over a run of [d] keys that cannot be handed out. *)
Lemma get_next_key_loop_skip now d : ∀ fuel m,
  d ≤ fuel →
  current_index m < length (keys m) →
  (∀ d', d' < d →
     ∃ k, keys m !! ((current_index m + d') mod length (keys m)) = Some k ∧
          selectable now k = false) →
  get_next_key_loop now fuel m =
  get_next_key_loop now (fuel - d)
    (with_current_index ((current_index m + d) mod length (keys m)) m).
Proof.
  induction d as [|d IH]; intros fuel m Hd Hc Hskip.
  - rewrite Nat.sub_0_r, Nat.add_0_r, Nat.mod_small by done.
    by rewrite with_current_index_id.
  - destruct fuel as [|fuel]; [lia|]. simpl.
    destruct (Hskip 0) as (k & Hk & Hsel); [lia|].
    rewrite Nat.add_0_r, Nat.mod_small in Hk by done. rewrite Hk.
    set (m1 := with_current_index _ m).
    assert (Hnext : get_next_key_loop now fuel m1 =
                    get_next_key_loop now (fuel - d)
                      (with_current_index
                         ((current_index m + S d) mod length (keys m)) m)).
    { rewrite (IH fuel m1); simpl.
      - by rewrite cursor_step.
      - lia.
      - apply Nat.mod_upper_bound. lia.
      - intros d' Hd'. rewrite cursor_step. apply Hskip. lia. }
    unfold selectable in Hsel.
    destruct (status k); [done| |done..].
    by rewrite Hsel.
Qed.

(** The scan hands out the first key, counting from the cursor, that can
    be handed out. *)
Lemma get_next_key_hit now m d k :
  let n := length (keys m) in
  let p := (current_index m + d) mod n in
  d < n →
  current_index m < n →
  (∀ d', d' < d →
     ∃ k', keys m !! ((current_index m + d') mod n) = Some k' ∧
           selectable now k' = false) →
  keys m !! p = Some k →
  selectable now k = true →
  get_next_key now m =
  (Return (Some p),
   with_keys (<[p := recovered k]> (keys m))
     (with_current_index ((p + 1) mod n) m)).
Proof.
  intros n p Hd Hc Hskip Hk Hsel. unfold get_next_key.
  rewrite (get_next_key_loop_skip now d) by (done || lia).
  destruct (length (keys m) - d) as [|fuel] eqn:Hfuel; [lia|].
  simpl. fold n p. rewrite Hk.
  unfold selectable in Hsel. unfold recovered.
  destruct (status k) eqn:Hs; [|rewrite Hsel|done..].
  - rewrite list_insert_id by done. by destruct m.
  - unfold update_key, with_keys. simpl. do 2 f_equal.
    apply list_eq. intros j. rewrite list_lookup_alter, list_lookup_insert.
    apply lookup_lt_Some in Hk as Hlt.
    repeat case_decide; try lia; subst; rewrite ?Hk; naive_solver.
Qed.

(** A scan over a pool none of whose keys can be handed out returns
    [None] and changes nothing: the cursor has gone once around. *)
Lemma get_next_key_miss now m :
  current_index m < length (keys m) ∨ keys m = [] →
  Forall (λ k, selectable now k = false) (keys m) →
  get_next_key now m = (Return None, m).
Proof.
  intros [Hc|Hnil] Hall; unfold get_next_key.
  - rewrite (get_next_key_loop_skip now (length (keys m))); [|done..|].
    + rewrite Nat.sub_diag. simpl.
      rewrite <- (Nat.mul_1_l (length (keys m))) at 1.
      rewrite Nat.Div0.mod_add, Nat.mod_small by done.
      by rewrite with_current_index_id.
    + intros d' _.
      destruct (lookup_lt_is_Some_2 (keys m)
                  ((current_index m + d') mod length (keys m))) as [k Hk].
      { apply Nat.mod_upper_bound. lia. }
      exists k. split; [done|].
      rewrite Forall_forall in Hall. apply Hall.
      by eapply list_elem_of_lookup_2.
  - by rewrite Hnil.
Qed.

(** The key a scan returns was fit to be handed out and comes back
    recovered; every other key is as before. *)
Lemma get_next_key_returned now m j :
  fst (get_next_key now m) = Return (Some j) →
  ∃ k, keys m !! j = Some k ∧ selectable now k = true ∧
       keys (snd (get_next_key now m)) !! j = Some (recovered k).
Proof.
  intros Hr. pose proof (get_next_key_keys now m) as H. rewrite Hr in H.
  destruct H as (k & Hk & Hsel & Hkeys). exists k. split_and!; [done..|].
  rewrite Hkeys. apply list_lookup_insert_eq. by eapply lookup_lt_Some.
Qed.

Lemma get_next_key_other now m j :
  fst (get_next_key now m) ≠ Return (Some j) →
  keys (snd (get_next_key now m)) !! j = keys m !! j.
Proof.
  intros Hr. pose proof (get_next_key_keys now m) as H.
  destruct (fst (get_next_key now m)) as [[p|]|e]; [|by rewrite H..].
  destruct H as (k & Hk & Hsel & Hkeys). rewrite Hkeys.
  apply list_lookup_insert_ne. congruence.
Qed.

Lemma recovered_status now k :
  selectable now k = true → status (recovered k) = AVAILABLE.
Proof.
  unfold selectable, recovered. destruct (status k) eqn:Hs; simpl; congruence.
Qed.

(** ** Round robin over a pool whose keys are all available *)

Lemma mod_wrap c j n :
  c < n → j < n →
  (c + j) mod n = if decide (c + j < n) then c + j else c + j - n.
Proof.
  intros Hc Hj. case_decide as Hlt.
  - by apply Nat.mod_small.
  - replace (c + j) with (c + j - n + 1 * n) at 1 by lia.
    rewrite Nat.Div0.mod_add. apply Nat.mod_small. lia.
Qed.

(** Going once around from the cursor meets every position once. *)
Lemma rotation_perm c n :
  c < n → (λ j, (c + j) mod n) <$> seq 0 n ≡ₚ seq 0 n.
Proof.
  intros Hc. apply NoDup_Permutation.
  - apply NoDup_fmap_2_strong; [|apply NoDup_seq].
    intros x y [_ Hx]%elem_of_seq [_ Hy]%elem_of_seq.
    rewrite !mod_wrap by lia. repeat case_decide; lia.
  - apply NoDup_seq.
  - intros x. rewrite list_elem_of_fmap, elem_of_seq. split.
    + intros (j & -> & _). split; [lia|]. apply Nat.mod_upper_bound. lia.
    + intros [_ Hx].
      exists (if decide (c ≤ x) then x - c else x + n - c).
      rewrite elem_of_seq. case_decide; (split; [|lia]);
        rewrite mod_wrap by lia; case_decide; lia.
Qed.

Lemma get_next_key_all_available now m :
  current_index m < length (keys m) →
  Forall (λ k, status k = AVAILABLE) (keys m) →
  get_next_key now m =
  (Return (Some (current_index m)),
   with_current_index ((current_index m + 1) mod length (keys m)) m).
Proof.
  intros Hc Hall.
  destruct (lookup_lt_is_Some_2 _ _ Hc) as [k Hk].
  assert (Hs : status k = AVAILABLE) by (by eapply Forall_lookup_1 in Hall).
  pose proof (get_next_key_hit now m 0 k) as Hhit. simpl in Hhit.
  rewrite Nat.add_0_r, Nat.mod_small in Hhit by done.
  rewrite Hhit; [|lia|done|intros; lia|done|].
  - unfold recovered. rewrite Hs, list_insert_id by done. by destruct m.
  - unfold selectable. by rewrite Hs.
Qed.

Lemma results_all_available nows : ∀ m,
  current_index m < length (keys m) →
  Forall (λ k, status k = AVAILABLE) (keys m) →
  results (OpSelect <$> nows) m =
    (λ j, Return (Some ((current_index m + j) mod length (keys m))))
      <$> seq 0 (length nows)
  ∧ keys (run_ops (OpSelect <$> nows) m) = keys m
  ∧ current_index (run_ops (OpSelect <$> nows) m) =
      (current_index m + length nows) mod length (keys m).
Proof.
  induction nows as [|now nows IH]; intros m Hc Hall.
  - simpl. rewrite Nat.add_0_r, Nat.mod_small by done. done.
  - simpl. rewrite (get_next_key_all_available now m) by done. simpl.
    set (m1 := with_current_index _ m).
    destruct (IH m1) as (Hres & Hkeys & Hcur); [|done|].
    { simpl. apply Nat.mod_upper_bound. lia. }
    change (list_fmap Z Op OpSelect nows) with (OpSelect <$> nows).
    change (list_fmap nat (Res (option nat)) ?f ?l) with (f <$> l).
    unfold run_ops in *. rewrite Hres, Hkeys, Hcur. simpl.
    rewrite Nat.add_0_r, (Nat.mod_small (current_index m)) by done.
    split_and!; [|done|by rewrite cursor_step].
    f_equal. rewrite <- fmap_S_seq, <- list_fmap_compose.
    apply list_fmap_ext. intros _ j _. simpl. by rewrite cursor_step.
Qed.

(** C2.  In a pool of N >= 1 keys that are all AVAILABLE, N consecutive
    calls of [get_next_key] (at whatever times) return the keys at
    positions cursor, cursor+1, ... modulo N, in that order; these are
    the N positions of the pool, each exactly once; the keys are left as
    they were and the cursor is back where it started. *)
Theorem round_robin_all_available (m : GeminiKeyManager) (nows : list Z) :
  let n := length (keys m) in
  let c := current_index m in
  c < n →
  Forall (λ k, status k = AVAILABLE) (keys m) →
  length nows = n →
  results (OpSelect <$> nows) m =
    (λ j, Return (Some ((c + j) mod n))) <$> seq 0 n
  ∧ (λ j, (c + j) mod n) <$> seq 0 n ≡ₚ seq 0 n
  ∧ keys (run_ops (OpSelect <$> nows) m) = keys m
  ∧ current_index (run_ops (OpSelect <$> nows) m) = c.
Proof.
  intros n c Hc Hall Hlen.
  destruct (results_all_available nows m Hc Hall) as (Hres & Hkeys & Hcur).
  rewrite Hlen in Hres, Hcur. split_and!; [done|by apply rotation_perm|done|].
  rewrite Hcur. fold n c.
  rewrite <- (Nat.mul_1_l n) at 1.
  rewrite Nat.Div0.mod_add. by apply Nat.mod_small.
Qed.

Lemma round_robin_all_available_witness :
  results (OpSelect <$> [5; 6; 7]%Z) (with_current_index 1 pool3) =
    [Return (Some 1); Return (Some 2); Return (Some 0)].
Proof.
  apply (round_robin_all_available (with_current_index 1 pool3) [5; 6; 7]%Z).
  - simpl. lia.
  - repeat constructor.
  - reflexivity.
Defined.

(** ** What one operation does to one key *)

Lemma run_op_length o m : length (keys (run_op o m)) = length (keys m).
Proof.
  destruct o as [now| | |]; simpl; try apply length_update_key.
  pose proof (get_next_key_keys now m) as H.
  destruct (fst (get_next_key now m)) as [[p|]|e]; [|by rewrite H..].
  destruct H as (k & _ & _ & ->). apply length_insert.
Qed.

Lemma run_op_lookup_is_Some o m j :
  is_Some (keys m !! j) → is_Some (keys (run_op o m) !! j).
Proof. rewrite !lookup_lt_is_Some. by rewrite run_op_length. Qed.

(** A scan either leaves the key at [j] as it is, or returns it,
    recovered. *)
Lemma select_lookup now m j k :
  keys m !! j = Some k →
  (fst (get_next_key now m) = Return (Some j) ∧ selectable now k = true ∧
   keys (snd (get_next_key now m)) !! j = Some (recovered k))
  ∨ (fst (get_next_key now m) ≠ Return (Some j) ∧
     keys (snd (get_next_key now m)) !! j = Some k).
Proof.
  intros Hk.
  destruct (fst (get_next_key now m)) as [[p|]|e] eqn:Hr.
  - destruct (decide (p = j)) as [->|Hne].
    + left. destruct (get_next_key_returned now m j Hr) as (k' & Hk' & ? & ?).
      by simplify_eq.
    + right. split; [congruence|]. rewrite get_next_key_other; [done|].
      rewrite Hr. congruence.
  - right. split; [done|]. rewrite get_next_key_other; [done|]. by rewrite Hr.
  - right. split; [done|]. rewrite get_next_key_other; [done|]. by rewrite Hr.
Qed.

(** ** [mark_success] *)

(** C9.  [mark_success] on the key at position [i] sets its [last_used]
    to the time read, its [error_count] to 0 whatever it was, and leaves
    its [status], [cooldown_until], [key] and [index] as they were; the
    other keys, the cursor and the client cache are untouched. *)
Theorem mark_success_frame (now : Z) (i : nat) (m : GeminiKeyManager) (k : APIKey) :
  keys m !! i = Some k →
  (∃ k', keys (mark_success now i m) !! i = Some k' ∧
         last_used k' = now ∧ error_count k' = 0%Z ∧
         status k' = status k ∧ cooldown_until k' = cooldown_until k ∧
         key k' = key k ∧ index k' = index k)
  ∧ (∀ j, j ≠ i → keys (mark_success now i m) !! j = keys m !! j)
  ∧ length (keys (mark_success now i m)) = length (keys m)
  ∧ current_index (mark_success now i m) = current_index m
  ∧ clients (mark_success now i m) = clients m.
Proof.
  intros Hk. unfold mark_success. split_and!; [| |apply length_update_key|done..].
  - rewrite lookup_update_key, decide_True, Hk by done. simpl. eauto 10.
  - intros j Hj. by rewrite lookup_update_key, decide_False.
Qed.

Lemma mark_success_frame_witness :
  ∃ k', keys (mark_success 7 0 pool1_error) !! 0 = Some k' ∧
        last_used k' = 7%Z ∧ error_count k' = 0%Z ∧ status k' = ERROR.
Proof.
  destruct (mark_success_frame 7 0 pool1_error
              (mkAPIKey "k0" 0 ERROR 0 3 0) eq_refl)
    as [(k' & Hk' & Hlu & Hec & Hst & _) _].
  exists k'. split_and!; [exact Hk'|exact Hlu|exact Hec|exact Hst].
Defined.

(** ** [error_count] *)

Lemma run_op_error_count o m j k :
  keys m !! j = Some k →
  ∃ k', keys (run_op o m) !! j = Some k' ∧
    match o with
    | OpMarkSuccess _ i =>
        error_count k' = if decide (i = j) then 0%Z else error_count k
    | OpMarkError i | OpMarkRateLimited _ i _ =>
        error_count k' =
        if decide (i = j) then (error_count k + 1)%Z else error_count k
    | OpSelect now =>
        (op_result o m = Return (Some j) ∧ status k = RATE_LIMITED →
         error_count k' = 0%Z ∧ (cooldown_until k < now)%Z)
        ∧ (¬ (op_result o m = Return (Some j) ∧ status k = RATE_LIMITED) →
           error_count k' = error_count k)
    end.
Proof.
  intros Hk. destruct o as [now|now i c|i|now i]; cbn [run_op op_result].
  - destruct (select_lookup now m j k Hk) as [(Hr & Hsel & Hk')|[Hr Hk']];
      eexists; (split; [exact Hk'|]).
    + unfold selectable in Hsel. unfold recovered.
      destruct (status k) eqn:Hs; try done; simpl.
      * split; [intros [_ ?]; done|done].
      * split; [|intros []; done].
        intros _. split; [done|]. by apply Z.ltb_lt.
    + split; [intros [? _]; done|done].
  - unfold mark_rate_limited. rewrite lookup_update_key.
    case_decide; subst; rewrite ?Hk; simpl; eauto.
  - unfold mark_error. rewrite lookup_update_key.
    case_decide; subst; rewrite ?Hk; simpl; [|eauto].
    eexists. split; [done|]. by case_match.
  - unfold mark_success. rewrite lookup_update_key.
    case_decide; subst; rewrite ?Hk; simpl; eauto.
Qed.

(** C4, as the code has it.  [mark_success] sets the [error_count] of its
    key to 0; [mark_error] and [mark_rate_limited] add exactly 1 to that of
    their key; a scan sets it to 0 for the key it returns when that key
    was RATE_LIMITED (its cooldown then lies before the time of the scan);
    in every other case an operation leaves a key's [error_count] as it
    was. *)
Theorem error_count_by_operation (o : Op) (m : GeminiKeyManager) (j : nat) (k : APIKey) :
  keys m !! j = Some k →
  ∃ k', keys (run_op o m) !! j = Some k' ∧
    match o with
    | OpMarkSuccess _ i =>
        error_count k' = if decide (i = j) then 0%Z else error_count k
    | OpMarkError i | OpMarkRateLimited _ i _ =>
        error_count k' =
        if decide (i = j) then (error_count k + 1)%Z else error_count k
    | OpSelect now =>
        (op_result o m = Return (Some j) ∧ status k = RATE_LIMITED →
         error_count k' = 0%Z ∧ (cooldown_until k < now)%Z)
        ∧ (¬ (op_result o m = Return (Some j) ∧ status k = RATE_LIMITED) →
           error_count k' = error_count k)
    end.
Proof. apply run_op_error_count. Qed.

Lemma error_count_by_operation_witness :
  ∃ k', keys (run_op (OpMarkError 0) pool1_limited) !! 0 = Some k' ∧
        error_count k' = 2%Z.
Proof.
  exact (error_count_by_operation (OpMarkError 0) pool1_limited 0
           (mkAPIKey "k0" 0 RATE_LIMITED 0 1 60) eq_refl).
Defined.

(** C4 as stated fails: a scan is not a successful call, yet it takes the
    [error_count] of the key it recovers from 2 down to 0. *)
Lemma error_count_decreases_in_select :
  keys pool1_limited_twice !! 0 = Some (mkAPIKey "k0" 0 RATE_LIMITED 0 2 70) ∧
  keys (run_op (OpSelect 100) pool1_limited_twice) !! 0 =
    Some (mkAPIKey "k0" 0 AVAILABLE 0 0 70).
Proof. split; reflexivity. Qed.

(** ** The ERROR status *)

(** A key whose status is ERROR is never handed out. *)
Lemma error_not_selectable now k : status k = ERROR → selectable now k = false.
Proof. unfold selectable. by intros ->. Qed.

Lemma run_op_error_kept o m j k :
  keys m !! j = Some k →
  status k = ERROR →
  rate_limits j o = false →
  ∃ k', keys (run_op o m) !! j = Some k' ∧ status k' = ERROR.
Proof.
  intros Hk Hs Ho. destruct o as [now|now i c|i|now i]; cbn [run_op].
  - destruct (select_lookup now m j k Hk) as [(_ & Hsel & _)|[_ Hk']]; [|eauto].
    by rewrite error_not_selectable in Hsel.
  - simpl in Ho. apply bool_decide_eq_false in Ho.
    unfold mark_rate_limited. rewrite lookup_update_key, decide_False by done.
    eauto.
  - unfold mark_error. rewrite lookup_update_key.
    case_decide; subst; rewrite ?Hk; simpl; [|eauto].
    eexists. split; [done|]. by case_match.
  - unfold mark_success. rewrite lookup_update_key.
    case_decide; subst; rewrite ?Hk; simpl; eauto.
Qed.

(** C5, as the code has it.  A scan (cooldown recovery included),
    [mark_error] and [mark_success] leave the status of a key whose status
    is ERROR at ERROR, and so does [mark_rate_limited] applied to another
    key. *)
Theorem error_status_kept (o : Op) (m : GeminiKeyManager) (j : nat) (k : APIKey) :
  keys m !! j = Some k →
  status k = ERROR →
  rate_limits j o = false →
  ∃ k', keys (run_op o m) !! j = Some k' ∧ status k' = ERROR.
Proof. apply run_op_error_kept. Qed.

Lemma error_status_kept_witness :
  ∃ k', keys (run_op (OpMarkSuccess 9 0) pool1_error) !! 0 = Some k' ∧
        status k' = ERROR.
Proof.
  exact (error_status_kept (OpMarkSuccess 9 0) pool1_error 0
           (mkAPIKey "k0" 0 ERROR 0 3 0) eq_refl eq_refl eq_refl).
Defined.

(** C5 as stated fails: [mark_rate_limited] assigns RATE_LIMITED whatever
    the status was, and the next scan after the cooldown makes the key
    AVAILABLE again. *)
Lemma error_left_by_mark_rate_limited :
  status <$> keys pool1_error !! 0 = Some ERROR ∧
  status <$> keys (run_op (OpMarkRateLimited 0 0 60) pool1_error) !! 0
    = Some RATE_LIMITED ∧
  status <$> keys (run_ops [OpMarkRateLimited 0 0 60; OpSelect 61] pool1_error) !! 0
    = Some AVAILABLE.
Proof. split_and!; reflexivity. Qed.

(** ** The statuses that occur *)

Lemma run_op_three_state o m :
  Forall three_state (keys m) → Forall three_state (keys (run_op o m)).
Proof.
  rewrite !Forall_lookup. intros Hall j k' Hk'.
  assert (is_Some (keys m !! j)) as [k Hk].
  { apply lookup_lt_is_Some. rewrite <- (run_op_length o).
    by eapply lookup_lt_Some. }
  specialize (Hall j k Hk). revert Hk'.
  destruct o as [now|now i c|i|now i]; cbn [run_op].
  - destruct (select_lookup now m j k Hk) as [(_ & Hsel & ->)|[_ ->]];
      intros [= <-]; [|done].
    left. by eapply recovered_status.
  - unfold mark_rate_limited. rewrite lookup_update_key.
    case_decide; subst; rewrite ?Hk; intros [= <-]; [|done].
    right; left. done.
  - unfold mark_error. rewrite lookup_update_key.
    case_decide; subst; rewrite ?Hk; intros [= <-]; [|done].
    simpl. case_match; [by right; right|done].
  - unfold mark_success. rewrite lookup_update_key.
    case_decide; subst; rewrite ?Hk; intros [= <-]; done.
Qed.

Lemma init_three_state api_keys : Forall three_state (keys (init api_keys)).
Proof.
  unfold init. simpl. apply Forall_fmap, Forall_true. intros p. by left.
Qed.

Lemma run_ops_three_state os : ∀ m,
  Forall three_state (keys m) → Forall three_state (keys (run_ops os m)).
Proof.
  induction os as [|o os IH]; intros m Hm; [done|].
  apply (IH (run_op o m)). by apply run_op_three_state.
Qed.

(** ** The executor acts on the keys through the scheduler operations only *)

Section ExecutorInvariant.

Variable P : GeminiKeyManager → Prop.
Hypothesis P_op : ∀ o m, P m → P (run_op o m).
Hypothesis P_clients : ∀ cs m, P m → P (with_clients cs m).

Variable clock : nat → Z.
Variable generate_content : nat → Request → Res string.

Lemma preserves_ret {A} (a : A) : preserves P (ret a).
Proof. by intros m w. Qed.

Lemma preserves_raise {A} e : preserves P (@raise A e).
Proof. by intros m w. Qed.

Lemma preserves_bind {A B} (c : M A) (k : A → M B) :
  preserves P c → (∀ a, preserves P (k a)) → preserves P (bind c k).
Proof.
  intros Hc Hk m w HP. specialize (Hc m w HP). unfold bind.
  destruct (c (m, w)) as [[a|e] [m1 w1]]; simpl in *; [by apply Hk|done].
Qed.

Lemma preserves_locked_op o : preserves P (locked (run_op o)).
Proof. intros m w HP. by apply P_op. Qed.

Lemma preserves_print line : preserves P (print line).
Proof. by intros m w. Qed.

Lemma preserves_time_sleep s : preserves P (time_sleep s).
Proof. by intros m w. Qed.

Lemma preserves_time_time : preserves P (time_time clock).
Proof. by intros m w. Qed.

Lemma preserves_local {A} name (v : option A) : preserves P (local name v).
Proof. destruct v; [apply preserves_ret|apply preserves_raise]. Qed.

Lemma preserves_self_get_next_key : preserves P (self_get_next_key clock).
Proof.
  apply preserves_bind; [apply preserves_time_time|].
  intros t m w HP. pose proof (P_op (OpSelect t) m HP) as HP'. simpl in HP'.
  by destruct (get_next_key t m).
Qed.

Lemma preserves_get_client k : preserves P (get_client k).
Proof.
  intros m w HP. unfold get_client. case_match; [done|]. by apply P_clients.
Qed.

Lemma preserves_get_model purpose : preserves P (get_model clock purpose).
Proof.
  apply preserves_bind; [apply preserves_self_get_next_key|].
  intros [k|]; [|apply preserves_raise].
  apply preserves_bind; [apply preserves_get_client|].
  intros c. apply preserves_ret.
Qed.

Lemma preserves_self_mark_rate_limited k c :
  preserves P (self_mark_rate_limited clock k c).
Proof.
  apply preserves_bind; [apply preserves_time_time|].
  intros now. apply (preserves_locked_op (OpMarkRateLimited now k c)).
Qed.

Lemma preserves_self_mark_success k : preserves P (self_mark_success clock k).
Proof.
  apply preserves_bind; [apply preserves_time_time|].
  intros now. apply (preserves_locked_op (OpMarkSuccess now k)).
Qed.

Lemma preserves_self_mark_error k : preserves P (self_mark_error k).
Proof. apply (preserves_locked_op (OpMarkError k)). Qed.

Lemma preserves_models_generate_content client model_name prompt :
  preserves P (models_generate_content generate_content client model_name prompt).
Proof. by intros m w. Qed.

Lemma preserves_except_clause e key : preserves P (except_clause clock e key).
Proof.
  unfold except_clause.
  apply preserves_bind; [|intros; apply preserves_time_sleep].
  repeat case_match;
    (apply preserves_bind; [apply preserves_local|intros k]).
  - apply preserves_self_mark_rate_limited.
  - apply preserves_self_mark_rate_limited.
  - apply preserves_bind; [apply preserves_self_mark_error|].
    intros _. apply preserves_print.
Qed.

Lemma preserves_call_with_retry_loop purpose prompt n : ∀ key,
  preserves P (call_with_retry_loop clock generate_content purpose prompt n key).
Proof.
  induction n as [|n IH]; intros key; [apply preserves_ret|].
  intros m w HP. cbn [call_with_retry_loop].
  pose proof (preserves_get_model purpose m w HP) as H1.
  destruct (get_model clock purpose (m, w))
    as [[[[client model_name] k]|e] [m1 w1]]; simpl in H1.
  - assert (preserves P
      (response <- models_generate_content generate_content
                     client model_name prompt ;;
       self_mark_success clock k ;; ret response)) as H2.
    { apply preserves_bind; [apply preserves_models_generate_content|].
      intros r. apply preserves_bind; [apply preserves_self_mark_success|].
      intros _. apply preserves_ret. }
    specialize (H2 m1 w1 H1).
    match goal with |- context [bind ?c ?f (m1, w1)] =>
      destruct (bind c f (m1, w1)) as [[text|e] [m2 w2]] end;
      simpl in H2; [done|].
    apply (preserves_bind (except_clause clock e (Some k))); [|by auto|done].
    apply preserves_except_clause.
  - apply (preserves_bind (except_clause clock e key)); [|by auto|done].
    apply preserves_except_clause.
Qed.

Lemma preserves_call_with_retry purpose prompt max_retries :
  preserves P (call_with_retry clock generate_content purpose prompt max_retries).
Proof. apply preserves_call_with_retry_loop. Qed.

End ExecutorInvariant.

Lemma with_clients_three_state cs m :
  Forall three_state (keys m) → Forall three_state (keys (with_clients cs m)).
Proof. done. Qed.

(** C10.  In every state a manager goes through (from [__init__], by
    scheduler operations and by calls of [call_with_retry]) the status of
    every key is AVAILABLE, RATE_LIMITED or ERROR: EXHAUSTED is declared
    but never assigned. *)
Theorem exhausted_never_assigned (m : GeminiKeyManager) :
  reachable m →
  Forall (λ k, status k ≠ EXHAUSTED ∧ three_state k) (keys m).
Proof.
  intros Hm.
  assert (Forall three_state (keys m)) as H.
  { induction Hm as [api_keys|o m _ IH|clock purpose m w _ IH
                     |clock svc purpose prompt n m w _ IH].
    - apply init_three_state.
    - by apply run_op_three_state.
    - apply (preserves_get_model (λ m, Forall three_state (keys m)));
        [apply run_op_three_state|apply with_clients_three_state|done].
    - apply (preserves_call_with_retry (λ m, Forall three_state (keys m)));
        [apply run_op_three_state|apply with_clients_three_state|done]. }
  eapply Forall_impl; [exact H|]. intros k Hk. split; [|done].
  destruct Hk as [->|[->| ->]]; done.
Qed.

Lemma exhausted_never_assigned_witness :
  Forall (λ k, status k ≠ EXHAUSTED ∧ three_state k)
    (keys (run_op (OpMarkError 0) (init ["k0"; "k1"]%string))).
Proof.
  apply exhausted_never_assigned. apply reach_op, reach_init.
Defined.

(** ** Runs of operations *)

Lemma run_ops_app os1 os2 m : run_ops (os1 ++ os2) m = run_ops os2 (run_ops os1 m).
Proof. apply foldl_app. Qed.

Lemma run_ops_cons o os m : run_ops (o :: os) m = run_ops os (run_op o m).
Proof. done. Qed.

Lemma run_op_cursor o m :
  current_index m < length (keys m) →
  current_index (run_op o m) < length (keys (run_op o m)).
Proof.
  intros Hc. rewrite run_op_length.
  destruct o as [now| | |]; cbn [run_op]; try done.
  by apply get_next_key_loop_cursor.
Qed.

Lemma run_ops_cursor os : ∀ m,
  current_index m < length (keys m) →
  current_index (run_ops os m) < length (keys (run_ops os m)).
Proof.
  induction os as [|o os IH]; intros m Hc; [done|].
  rewrite run_ops_cons. by apply IH, run_op_cursor.
Qed.

(** A property of the key at [i] that every operation of a run keeps, and
    under which no scan of the run returns that key. *)
Lemma run_ops_key_invariant (Q : APIKey → Prop) (ok : Op → bool) i :
  (∀ o m k, ok o = true → keys m !! i = Some k → Q k →
     op_result o m ≠ Return (Some i) ∧
     ∃ k', keys (run_op o m) !! i = Some k' ∧ Q k') →
  ∀ os m k,
    Forall (λ o, ok o = true) os → keys m !! i = Some k → Q k →
    Forall (λ r, r ≠ Return (Some i)) (results os m) ∧
    ∃ k', keys (run_ops os m) !! i = Some k' ∧ Q k'.
Proof.
  intros Hstep os. induction os as [|o os IH]; intros m k Hos Hk HQ.
  - split; [constructor|eauto].
  - apply Forall_cons in Hos as [Ho Hos].
    destruct (Hstep o m k Ho Hk HQ) as (Hr & k1 & Hk1 & HQ1).
    destruct (IH (run_op o m) k1 Hos Hk1 HQ1) as [Hrs Hlast].
    split; [by constructor|done].
Qed.

(** ** Cooldown *)

Lemma lookup_mark_rate_limited now i c m k :
  keys m !! i = Some k →
  keys (mark_rate_limited now i c m) !! i =
  Some (mkAPIKey (key k) (index k) RATE_LIMITED (last_used k)
          (error_count k + 1) (now + c)).
Proof.
  intros Hk. unfold mark_rate_limited.
  by rewrite lookup_update_key, decide_True, Hk.
Qed.

(** While its cooldown runs, a rate limited key that nobody marks is
    stepped over by every scan and stays as it is. *)
Lemma quiet_op i deadline o m k :
  quiet_until i deadline o = true →
  keys m !! i = Some k →
  status k = RATE_LIMITED ∧ cooldown_until k = deadline →
  op_result o m ≠ Return (Some i) ∧
  ∃ k', keys (run_op o m) !! i = Some k' ∧
        (status k' = RATE_LIMITED ∧ cooldown_until k' = deadline).
Proof.
  intros Ho Hk [Hs Hd].
  destruct o as [now|now j c|j|now j]; cbn [run_op op_result]; simpl in Ho.
  - apply Z.leb_le in Ho.
    destruct (select_lookup now m i k Hk) as [(_ & Hsel & _)|[Hr Hk']]; [|eauto].
    unfold selectable in Hsel. rewrite Hs in Hsel. apply Z.ltb_lt in Hsel. lia.
  - apply negb_true_iff, bool_decide_eq_false in Ho. split; [done|].
    unfold mark_rate_limited. rewrite lookup_update_key, decide_False by done.
    eauto.
  - apply negb_true_iff, bool_decide_eq_false in Ho. split; [done|].
    unfold mark_error. rewrite lookup_update_key, decide_False by done. eauto.
  - apply negb_true_iff, bool_decide_eq_false in Ho. split; [done|].
    unfold mark_success. rewrite lookup_update_key, decide_False by done. eauto.
Qed.

(** C3, as the code has it.  A key marked RATE_LIMITED at time [t] with
    cooldown [C] is RATE_LIMITED with [cooldown_until = t + C]; as long as
    nobody marks it again, every scan at a time up to and including
    [t + C] steps over it and leaves it so; and a scan at a time strictly
    after [t + C] that reaches it returns it, AVAILABLE and with
    [error_count] 0. *)
Theorem cooldown_skip_then_recover (m : GeminiKeyManager) (i : nat) (t C : Z)
    (os : list Op) (now : Z) :
  i < length (keys m) →
  current_index m < length (keys m) →
  Forall (λ o, quiet_until i (t + C) o = true) os →
  (∃ k1, keys (mark_rate_limited t i C m) !! i = Some k1 ∧
         status k1 = RATE_LIMITED ∧ cooldown_until k1 = (t + C)%Z)
  ∧ Forall (λ r, r ≠ Return (Some i)) (results os (mark_rate_limited t i C m))
  ∧ (∃ k2, keys (run_ops os (mark_rate_limited t i C m)) !! i = Some k2 ∧
           status k2 = RATE_LIMITED ∧ cooldown_until k2 = (t + C)%Z)
  ∧ ((t + C < now)%Z →
     examines now (run_ops os (mark_rate_limited t i C m)) i →
     fst (get_next_key now (run_ops os (mark_rate_limited t i C m)))
       = Return (Some i) ∧
     ∃ k', keys (snd (get_next_key now
                   (run_ops os (mark_rate_limited t i C m)))) !! i = Some k' ∧
           status k' = AVAILABLE ∧ error_count k' = 0%Z).
Proof.
  intros Hi Hc Hos.
  destruct (lookup_lt_is_Some_2 _ _ Hi) as [k Hk].
  pose proof (lookup_mark_rate_limited t i C m k Hk) as Hk1.
  set (m1 := mark_rate_limited t i C m) in *.
  destruct (run_ops_key_invariant
              (λ k, status k = RATE_LIMITED ∧ cooldown_until k = (t + C)%Z)
              (quiet_until i (t + C)) i (quiet_op i (t + C)) os m1 _ Hos Hk1)
    as (Hres & k2 & Hk2 & Hs2 & Hd2); [done|].
  split_and!; [eauto|done|eauto|].
  intros Hnow (d & Hd & Hp & Hskip).
  set (m2 := run_ops os m1) in *.
  assert (Hc2 : current_index m2 < length (keys m2)).
  { apply run_ops_cursor. unfold m1, mark_rate_limited.
    by rewrite length_update_key. }
  assert (Hsel : selectable now k2 = true).
  { unfold selectable. rewrite Hs2, Hd2. by apply Z.ltb_lt. }
  rewrite Hp in Hk2.
  rewrite (get_next_key_hit now m2 d k2 Hd Hc2 Hskip Hk2 Hsel). simpl.
  rewrite <- Hp. split; [done|].
  exists (recovered k2). split.
  - apply list_lookup_insert_eq. rewrite Hp. apply Nat.mod_upper_bound. lia.
  - unfold recovered. by rewrite Hs2.
Qed.

Lemma cooldown_skip_then_recover_witness :
  fst (get_next_key 61 (run_ops [OpSelect 60] (mark_rate_limited 0 0 60 pool1)))
    = Return (Some 0).
Proof.
  refine (proj1 (proj2 (proj2 (proj2
    (cooldown_skip_then_recover pool1 0 0 60 [OpSelect 60] 61 _ _ _))) _ _)).
  - simpl. lia.
  - simpl. lia.
  - repeat constructor.
  - lia.
  - exists 0. split_and!; [simpl; lia|done|intros; lia].
Defined.

(** C3 as stated fails at the boundary: the test is
    [current_time > key.cooldown_until], so the scan at time [t + C]
    itself reaches the key and steps over it. *)
Lemma cooldown_boundary_not_recovered :
  examines 60 pool1_limited 0 ∧
  get_next_key 60 pool1_limited = (Return None, pool1_limited) ∧
  status <$> keys pool1_limited !! 0 = Some RATE_LIMITED ∧
  cooldown_until <$> keys pool1_limited !! 0 = Some (0 + 60)%Z.
Proof.
  split_and!; try reflexivity.
  exists 0. split_and!; [simpl; lia|done|intros; lia].
Qed.

(** ** Three failures in a row *)

Lemma lookup_mark_error i m k :
  keys m !! i = Some k →
  ∃ k', keys (mark_error i m) !! i = Some k' ∧
        error_count k' = (error_count k + 1)%Z ∧
        status k' = (if (3 <=? error_count k + 1)%Z then ERROR else status k).
Proof.
  intros Hk. unfold mark_error.
  rewrite lookup_update_key, decide_True, Hk by done. simpl.
  eexists. split; [done|]. by case_match.
Qed.

(** An operation that does not mark a key that is not RATE_LIMITED leaves
    it as it is: a scan may return it but has nothing to recover. *)
Lemma unmarked_op i o m k :
  marks i o = false →
  keys m !! i = Some k →
  status k ≠ RATE_LIMITED →
  keys (run_op o m) !! i = Some k.
Proof.
  intros Ho Hk Hs.
  destruct o as [now|now j c|j|now j]; cbn [run_op]; simpl in Ho;
    try apply bool_decide_eq_false in Ho.
  - destruct (select_lookup now m i k Hk) as [(_ & _ & Hk')|[_ Hk']]; [|done].
    rewrite Hk'. unfold recovered. by destruct (status k).
  - unfold mark_rate_limited. by rewrite lookup_update_key, decide_False.
  - unfold mark_error. by rewrite lookup_update_key, decide_False.
  - unfold mark_success. by rewrite lookup_update_key, decide_False.
Qed.

Lemma unmarked_ops i os : ∀ m k,
  Forall (λ o, marks i o = false) os →
  keys m !! i = Some k →
  status k ≠ RATE_LIMITED →
  keys (run_ops os m) !! i = Some k.
Proof.
  induction os as [|o os IH]; intros m k Hos Hk Hs; [done|].
  apply Forall_cons in Hos as [Ho Hos]. rewrite run_ops_cons.
  apply IH; [done| |done]. by apply unmarked_op.
Qed.

(** A failure that is not a rate limit, followed by operations that do
    not mark the key. *)
Lemma failure_then_unmarked i os m k :
  Forall (λ o, marks i o = false) os →
  keys m !! i = Some k →
  status k ≠ RATE_LIMITED →
  ∃ k', keys (run_ops (OpMarkError i :: os) m) !! i = Some k' ∧
        error_count k' = (error_count k + 1)%Z ∧
        status k' = (if (3 <=? error_count k + 1)%Z then ERROR else status k).
Proof.
  intros Hos Hk Hs. rewrite run_ops_cons. cbn [run_op].
  destruct (lookup_mark_error i m k Hk) as (k' & Hk' & Hec & Hst).
  exists k'. split; [|done].
  apply unmarked_ops; [done..|]. rewrite Hst. by case_match.
Qed.

Lemma error_op i o m k :
  rate_limits i o = false →
  keys m !! i = Some k →
  status k = ERROR →
  op_result o m ≠ Return (Some i) ∧
  ∃ k', keys (run_op o m) !! i = Some k' ∧ status k' = ERROR.
Proof.
  intros Ho Hk Hs. split; [|by eapply run_op_error_kept].
  destruct o as [now| | |]; cbn [op_result]; try done.
  intros (k' & Hk' & Hsel & _)%get_next_key_returned.
  simplify_eq. by rewrite error_not_selectable in Hsel.
Qed.

(** C6, as the code has it.  Three [mark_error] calls on a key that is
    not RATE_LIMITED, with no other marking of it in between, leave its
    status at ERROR (when its [error_count] started at 0 it is still
    AVAILABLE after the second); from then on, as long as
    [mark_rate_limited] is not applied to it, its status stays ERROR and
    no scan returns it. *)
Theorem three_errors_exclude (m : GeminiKeyManager) (i : nat) (k : APIKey)
    (os1 os2 os : list Op) :
  keys m !! i = Some k →
  (0 ≤ error_count k)%Z →
  status k ≠ RATE_LIMITED →
  Forall (λ o, marks i o = false) os1 →
  Forall (λ o, marks i o = false) os2 →
  Forall (λ o, rate_limits i o = false) os →
  (error_count k = 0%Z →
   status <$> keys (run_ops (OpMarkError i :: os1 ++ OpMarkError i :: os2) m) !! i
     = Some (status k))
  ∧ status <$> keys (run_ops (OpMarkError i :: os1 ++ OpMarkError i :: os2
                               ++ [OpMarkError i]) m) !! i = Some ERROR
  ∧ Forall (λ r, r ≠ Return (Some i))
      (results os (run_ops (OpMarkError i :: os1 ++ OpMarkError i :: os2
                             ++ [OpMarkError i]) m))
  ∧ status <$> keys (run_ops os
      (run_ops (OpMarkError i :: os1 ++ OpMarkError i :: os2
                 ++ [OpMarkError i]) m)) !! i = Some ERROR.
Proof.
  intros Hk Hec Hs Hos1 Hos2 Hos.
  destruct (failure_then_unmarked i os1 m k Hos1 Hk Hs)
    as (k1 & Hk1 & Hec1 & Hs1).
  assert (Hs1' : status k1 ≠ RATE_LIMITED) by (rewrite Hs1; by case_match).
  set (m1 := run_ops (OpMarkError i :: os1) m) in *.
  destruct (failure_then_unmarked i os2 m1 k1 Hos2 Hk1 Hs1')
    as (k2 & Hk2 & Hec2 & Hs2).
  assert (Hm2 : run_ops (OpMarkError i :: os1 ++ OpMarkError i :: os2) m =
                run_ops (OpMarkError i :: os2) m1).
  { by rewrite app_comm_cons, run_ops_app. }
  rewrite <- Hm2 in Hk2.
  set (m2 := run_ops (OpMarkError i :: os1 ++ OpMarkError i :: os2) m) in *.
  destruct (lookup_mark_error i m2 k2 Hk2) as (k3 & Hk3 & Hec3 & Hs3).
  assert (Hm3 : run_ops (OpMarkError i :: os1 ++ OpMarkError i :: os2
                          ++ [OpMarkError i]) m = mark_error i m2).
  { unfold m2.
    rewrite (app_comm_cons os2), app_assoc, app_comm_cons, run_ops_app.
    done. }
  rewrite Hm3.
  assert (Hs3' : status k3 = ERROR).
  { rewrite Hs3. case_match eqn:Hle; [done|]. apply Z.leb_gt in Hle. lia. }
  split.
  { intros Hzero. rewrite Hk2. simpl. f_equal.
    rewrite Hs2, Hs1, Hec1, Hzero. reflexivity. }
  split; [by rewrite Hk3; simpl; f_equal|].
  destruct (run_ops_key_invariant (λ k, status k = ERROR)
              (λ o, negb (rate_limits i o)) i) with (os := os)
    (m := mark_error i m2) (k := k3) as (Hres & k4 & Hk4 & Hs4);
    [| |done..| ].
  - intros o m' k' Ho%negb_true_iff. by apply error_op.
  - eapply Forall_impl; [exact Hos|]. intros o ->. done.
  - split; [done|]. rewrite Hk4. simpl. by f_equal.
Qed.

Lemma three_errors_exclude_witness :
  status <$> keys (run_ops [OpMarkError 0; OpSelect 1; OpMarkError 0; OpSelect 2;
                            OpMarkError 0] pool1) !! 0 = Some ERROR
  ∧ Forall (λ r, r ≠ Return (Some 0))
      (results [OpSelect 3; OpMarkSuccess 4 0; OpSelect 5]
         (run_ops [OpMarkError 0; OpSelect 1; OpMarkError 0; OpSelect 2;
                   OpMarkError 0] pool1)).
Proof.
  destruct (three_errors_exclude pool1 0 (new_APIKey "k0" 0)
              [OpSelect 1] [OpSelect 2]
              [OpSelect 3; OpMarkSuccess 4 0; OpSelect 5])
    as (_ & H3 & Hres & _).
  - reflexivity.
  - simpl. lia.
  - discriminate.
  - repeat constructor.
  - repeat constructor.
  - repeat constructor.
  - split; [exact H3|exact Hres].
Defined.

(** C6 as stated fails: after the three failures the key is ERROR, yet a
    [mark_rate_limited] on it (from a caller that was handed the key
    before it failed, or from the [except] clause of [call_with_retry]
    acting on the key of an earlier attempt) puts it back into rotation
    and the scan after the cooldown returns it. *)
Lemma error_key_returned_again :
  pool1_error = run_ops [OpMarkError 0; OpMarkError 0; OpMarkError 0] pool1 ∧
  status <$> keys pool1_error !! 0 = Some ERROR ∧
  results [OpMarkRateLimited 0 0 60; OpSelect 61] pool1_error =
    [Return None; Return (Some 0)].
Proof. split_and!; reflexivity. Qed.

(** Nor do three [mark_error] calls without a [mark_success] in between
    always end in ERROR: when the key is RATE_LIMITED meanwhile (two
    callers held it, one was rate limited, one succeeded), the scan that
    recovers it resets the count between the failures. *)
Lemma three_errors_interrupted_by_recovery :
  (λ k, (status k, error_count k)) <$>
    keys (run_ops [OpMarkRateLimited 0 0 60; OpMarkSuccess 1 0;
                   OpMarkError 0; OpSelect 100; OpMarkError 0; OpMarkError 0]
            pool1) !! 0
  = Some (AVAILABLE, 2%Z).
Proof. reflexivity. Qed.

(** An ERROR key is put back into rotation by the executor alone, with
    the default three attempts, against [flaky_service]: the first call leaves A with two
    errors and B rate limited; in the second call A fails a third time and
    becomes ERROR, the next attempt finds the pool exhausted, and the
    [except] clause then rate limits A, the key of the attempt before. *)
Lemma error_left_through_call_with_retry :
  let s1 := snd (call_with_retry clock0 flaky_service "orchestrator" "p" 3
                   (pool2, world0)) in
  let s2 := snd (call_with_retry clock0 flaky_service "orchestrator" "p" 3 s1) in
  (λ k, (status k, error_count k)) <$> keys (fst s1) = [(AVAILABLE, 2%Z); (RATE_LIMITED, 1%Z)] ∧
  (λ k, (status k, error_count k)) <$> keys (fst s2) = [(RATE_LIMITED, 5%Z); (RATE_LIMITED, 1%Z)] ∧
  length (requests (snd s2)) = 4.
Proof. vm_compute. done. Qed.

(** ** The [except] clause *)

(** With the local [key] bound, the clause applies the one transition of
    the failure's class and sleeps. *)
Lemma except_clause_bound clock e k m w :
  except_clause clock e (Some k) (m, w) =
  (Return tt,
   (run_op (transition (classify (str e)) (clock (ticks w)) k) m,
    world_after_failure (classify (str e)) e w)).
Proof.
  unfold except_clause, classify.
  destruct (str_in "quota" (lower (str e)) || str_in "rate" (lower (str e))
            || str_in "429" (lower (str e))); [done|].
  destruct (str_in "resource" (lower (str e))
            || str_in "exhausted" (lower (str e))); done.
Qed.

(** With the local [key] unbound, the clause raises. *)
Lemma except_clause_unbound clock e m w :
  except_clause clock e None (m, w) = (Raise (UnboundLocalError "key"), (m, w)).
Proof.
  unfold except_clause.
  destruct (str_in "quota" (lower (str e)) || str_in "rate" (lower (str e))
            || str_in "429" (lower (str e))); [done|].
  destruct (str_in "resource" (lower (str e))
            || str_in "exhausted" (lower (str e))); done.
Qed.

(** [get_model] hands out the key the scan returned. *)
Lemma get_model_returns clock purpose m w client model_name k m1 w1 :
  get_model clock purpose (m, w) = (Return (client, model_name, k), (m1, w1)) →
  fst (get_next_key (clock (ticks w)) m) = Return (Some k) ∧
  keys m1 = keys (snd (get_next_key (clock (ticks w)) m)) ∧
  requests w1 = requests w ∧ stdout w1 = stdout w ∧ slept w1 = slept w ∧
  ticks w1 = S (ticks w).
Proof.
  unfold get_model, self_get_next_key, bind, time_time, get_client, ret. simpl.
  destruct (get_next_key (clock (ticks w)) m) as [[[p|]|e] m'];
    simpl; [|done..].
  destruct (clients m' !! index (key_object p m'));
    intros Heq; by simplify_eq.
Qed.

Lemma transition_key c now k m ko :
  keys m !! k = Some ko →
  ∃ k', keys (run_op (transition c now k) m) !! k = Some k' ∧
    match c with
    | RateLimit =>
        status k' = RATE_LIMITED ∧ cooldown_until k' = (now + 60)%Z
    | ResourceExhausted =>
        status k' = RATE_LIMITED ∧ cooldown_until k' = (now + 300)%Z
    | TransientError =>
        error_count k' = (error_count ko + 1)%Z ∧
        status k' = (if (3 <=? error_count ko + 1)%Z then ERROR else status ko)
    end.
Proof.
  intros Hk. destruct c; cbn [transition run_op].
  - rewrite (lookup_mark_rate_limited _ _ _ _ _ Hk). eauto.
  - rewrite (lookup_mark_rate_limited _ _ _ _ _ Hk). eauto.
  - destruct (lookup_mark_error k m ko Hk) as (k' & ? & ? & ?). eauto.
Qed.

(** C7.  When an attempt of the retry loop has selected the key [k] and
    the invocation of the service fails with [e], the loop goes on from
    the state in which exactly one scheduler operation was applied, to
    [k]: the transition of the class of the lower-cased error text
    ([mark_rate_limited] with 60 seconds for "quota", "rate" or "429",
    else [mark_rate_limited] with 300 seconds for "resource" or
    "exhausted", else [mark_error], which makes the status ERROR once the
    count reaches 3); one second is slept. *)
Theorem failed_invocation_transition (clock : nat → Z)
    (generate_content : nat → Request → Res string)
    (purpose prompt : string) (n : nat) (key : option nat)
    (m : GeminiKeyManager) (w : World)
    (client : Client) (model_name : string) (k : nat)
    (m1 : GeminiKeyManager) (w1 : World) (e : PyExn) :
  get_model clock purpose (m, w) = (Return (client, model_name, k), (m1, w1)) →
  generate_content (length (requests w1)) (mkRequest client model_name prompt)
    = Raise e →
  let c := classify (str e) in
  let now := clock (ticks w1) in
  let w2 := mkWorld (ticks w1)
              (requests w1 ++ [mkRequest client model_name prompt])
              (stdout w1) (slept w1) in
  fst (get_next_key (clock (ticks w)) m) = Return (Some k)
  ∧ call_with_retry_loop clock generate_content purpose prompt (S n) key (m, w)
    = call_with_retry_loop clock generate_content purpose prompt n (Some k)
        (run_op (transition c now k) m1, world_after_failure c e w2)
  ∧ ∃ ko k', keys m1 !! k = Some ko ∧
      keys (run_op (transition c now k) m1) !! k = Some k' ∧
      match c with
      | RateLimit =>
          status k' = RATE_LIMITED ∧ cooldown_until k' = (now + 60)%Z
      | ResourceExhausted =>
          status k' = RATE_LIMITED ∧ cooldown_until k' = (now + 300)%Z
      | TransientError =>
          error_count k' = (error_count ko + 1)%Z ∧
          status k' = (if (3 <=? error_count ko + 1)%Z then ERROR else status ko)
      end.
Proof.
  intros Hgm Hfail c now w2.
  destruct (get_model_returns _ _ _ _ _ _ _ _ _ Hgm) as (Hsel & Hkeys & _).
  split; [done|]. split.
  - cbn [call_with_retry_loop]. rewrite Hgm.
    unfold bind at 1. unfold models_generate_content at 1. rewrite Hfail.
    unfold bind at 1. by rewrite except_clause_bound.
  - destruct (get_next_key_returned _ _ _ Hsel) as (k0 & _ & _ & Hk0).
    rewrite <- Hkeys in Hk0.
    destruct (transition_key c now k m1 _ Hk0) as (k' & Hk' & Hc).
    eauto.
Qed.

Lemma failed_invocation_transition_witness :
  call_with_retry_loop clock0 (service_down "Quota exceeded") "vision" "p" 3 None
    (pool1, world0)
  = call_with_retry_loop clock0 (service_down "Quota exceeded") "vision" "p" 2 (Some 0)
      (run_op (OpMarkRateLimited 1 0 60)
         (with_clients {[0 := mkClient "k0"]} pool1),
       mkWorld 2 [mkRequest (mkClient "k0") "gemini-3-flash-preview" "p"] [] 1).
Proof.
  exact (proj1 (proj2 (failed_invocation_transition clock0
           (service_down "Quota exceeded") "vision" "p" 2 None pool1 world0
           (mkClient "k0") "gemini-3-flash-preview" 0
           (with_clients {[0 := mkClient "k0"]} pool1)
           (mkWorld 1 [] [] 0) (PyException "Quota exceeded")
           eq_refl eq_refl))).
Defined.

(** ** Exhausted pool *)

Lemma get_model_exhausted clock purpose m w :
  fst (get_next_key (clock (ticks w)) m) = Return None →
  get_model clock purpose (m, w) =
  (Raise (PyException "All API keys exhausted or rate limited"),
   (snd (get_next_key (clock (ticks w)) m),
    mkWorld (S (ticks w)) (requests w) (stdout w) (slept w))).
Proof.
  intros Hnone.
  unfold get_model, self_get_next_key, bind, time_time. simpl.
  destruct (get_next_key (clock (ticks w)) m) as [r m']. simpl in *.
  by subst r.
Qed.

(** The text of the exception [get_model] raises contains "rate": it is
    classed as a rate limit. *)
Lemma exhausted_is_classified_rate_limit :
  classify (str (PyException "All API keys exhausted or rate limited")) = RateLimit.
Proof. reflexivity. Qed.

(** An attempt that finds the pool exhausted after an earlier attempt had
    selected [k] rate limits [k] for 60 seconds. *)
Lemma exhausted_attempt_marks_earlier_key clock generate_content purpose prompt
    n k m w :
  fst (get_next_key (clock (ticks w)) m) = Return None →
  call_with_retry_loop clock generate_content purpose prompt (S n) (Some k) (m, w)
  = call_with_retry_loop clock generate_content purpose prompt n (Some k)
      (mark_rate_limited (clock (S (ticks w))) k 60
         (snd (get_next_key (clock (ticks w)) m)),
       mkWorld (S (S (ticks w))) (requests w) (stdout w) (slept w + 1)).
Proof.
  intros Hnone. cbn [call_with_retry_loop].
  rewrite get_model_exhausted by done.
  unfold bind at 1. by rewrite except_clause_bound.
Qed.

(** C1 (the code departs from the claim).  When the scan of the first
    attempt finds no key, [get_model] raises inside the [try]; the
    [except] clause classes the text as a rate limit and evaluates
    [mark_rate_limited(key, ...)] with the local [key] still unbound, so
    [call_with_retry] raises [UnboundLocalError] to its caller instead of
    going on to the next attempt and returning [None]; no request was
    sent. *)
Theorem exhausted_pool_raises (clock : nat → Z)
    (generate_content : nat → Request → Res string)
    (purpose prompt : string) (max_retries : Z)
    (m : GeminiKeyManager) (w : World) :
  (1 ≤ max_retries)%Z →
  fst (get_next_key (clock (ticks w)) m) = Return None →
  fst (call_with_retry clock generate_content purpose prompt max_retries (m, w))
    = Raise (UnboundLocalError "key")
  ∧ requests (snd (snd (call_with_retry clock generate_content purpose prompt
                          max_retries (m, w)))) = requests w.
Proof.
  intros Hmax Hnone. unfold call_with_retry.
  destruct (Z.to_nat max_retries) as [|n] eqn:Hn; [lia|].
  cbn [call_with_retry_loop]. rewrite get_model_exhausted by done.
  unfold bind at 1 2. by rewrite except_clause_unbound.
Qed.

Lemma exhausted_pool_raises_witness :
  fst (call_with_retry clock0 (service_down "unused") "orchestrator" "p" 3
         (pool1_limited, world0)) = Raise (UnboundLocalError "key").
Proof.
  refine (proj1 (exhausted_pool_raises clock0 (service_down "unused")
                   "orchestrator" "p" 3 pool1_limited world0 _ _)).
  - lia.
  - reflexivity.
Defined.

(** ** No keys configured *)

Lemma load_keys_unset : _load_keys ∅ =
  ([], ["[WARNING] No GOOGLE_API_KEY found in environment"%string]).
Proof. reflexivity. Qed.

Lemma load_keys_blank :
  _load_keys {["GOOGLE_API_KEY"%string := " , ,"%string]} = ([], []).
Proof. reflexivity. Qed.

Lemma load_keys_two :
  _load_keys {["GOOGLE_API_KEY"%string := " kA ,kB,"%string]} =
  (["kA"; "kB"]%string, []).
Proof. reflexivity. Qed.

(** C8.  When [_load_keys] yields no key, the module prints that no API
    keys are configured and binds [key_manager] to [None]; every call of
    [call_orchestrator] and [call_vision] then returns [None] at once, the
    world unchanged: no request is sent, nothing is slept. *)
Theorem no_keys_unusable (environ : gmap string string) :
  fst (_load_keys environ) = [] →
  key_manager (import_module environ) = None
  ∧ last (module_stdout (import_module environ)) =
      Some "[ERROR] No API keys configured. Set GOOGLE_API_KEY environment variable."%string
  ∧ ∀ clock generate_content prompt w,
      call_orchestrator clock generate_content prompt
        (key_manager (import_module environ), w) = (Return None, (None, w))
      ∧ call_vision clock generate_content prompt
          (key_manager (import_module environ), w) = (Return None, (None, w)).
Proof.
  intros Hnone. unfold import_module.
  destruct (_load_keys environ) as [api_keys out]. simpl in Hnone. subst.
  simpl. split_and!; [done|by rewrite last_snoc|done].
Qed.

Lemma no_keys_unusable_witness :
  key_manager (import_module ∅) = None ∧
  call_orchestrator clock0 (service_down "unused") "p"
    (key_manager (import_module ∅), world0) = (Return None, (None, world0)).
Proof.
  destruct (no_keys_unusable ∅) as (Hkm & _ & Hcall).
  - reflexivity.
  - split; [exact Hkm|].
    exact (proj1 (Hcall clock0 (service_down "unused") "p"%string world0)).
Defined.

(** ** Well-formed states *)

Lemma init_well_formed api_keys : well_formed (init api_keys).
Proof.
  split.
  - destruct api_keys; [by left|right; simpl; lia].
  - unfold init. simpl. apply Forall_fmap, Forall_true. by intros p.
Qed.

Lemma run_op_well_formed o m : well_formed m → well_formed (run_op o m).
Proof.
  intros [Hc Hec]. split.
  - destruct Hc as [Hnil|Hc]; [left|right; by apply run_op_cursor].
    apply length_zero_iff_nil. by rewrite run_op_length, Hnil.
  - rewrite Forall_lookup in Hec |- *. intros j k' Hk'.
    assert (is_Some (keys m !! j)) as [k Hk].
    { apply lookup_lt_is_Some. rewrite <- (run_op_length o).
      by eapply lookup_lt_Some. }
    specialize (Hec j k Hk).
    destruct o as [now|now i c|i|now i].
    + cbn [run_op] in Hk'.
      destruct (select_lookup now m j k Hk) as [(_ & _ & Hk'')|[_ Hk'']];
        rewrite Hk'' in Hk'; simplify_eq; [|done].
      unfold recovered. by destruct (status k).
    + destruct (run_op_error_count (OpMarkRateLimited now i c) m j k Hk)
        as (k'' & Hk'' & Hcount).
      simplify_eq. rewrite Hcount. case_decide; lia.
    + destruct (run_op_error_count (OpMarkError i) m j k Hk)
        as (k'' & Hk'' & Hcount).
      simplify_eq. rewrite Hcount. case_decide; lia.
    + destruct (run_op_error_count (OpMarkSuccess now i) m j k Hk)
        as (k'' & Hk'' & Hcount).
      simplify_eq. rewrite Hcount. case_decide; lia.
Qed.

(** Every state a manager goes through is well formed; in particular the
    scan never indexes outside the pool. *)
Lemma reachable_well_formed m : reachable m → well_formed m.
Proof.
  induction 1 as [api_keys|o m _ IH|clock purpose m w _ IH
                 |clock svc purpose prompt n m w _ IH].
  - apply init_well_formed.
  - by apply run_op_well_formed.
  - apply (preserves_get_model well_formed);
      [apply run_op_well_formed|done|done].
  - apply (preserves_call_with_retry well_formed);
      [apply run_op_well_formed|done|done].
Qed.

Lemma well_formed_scan_returns now m :
  well_formed m → ∃ r, fst (get_next_key now m) = Return r.
Proof.
  intros [[Hnil|Hc] _]; unfold get_next_key.
  - rewrite Hnil. simpl. eauto.
  - by apply get_next_key_loop_cursor.
Qed.

(** ** Where the executor returns *)

(** Once the local [key] is bound, the retry loop returns: every failure
    of an attempt is turned into a transition and the loop goes on. *)
Lemma retry_loop_returns_once_bound clock generate_content purpose prompt n :
  ∀ k s, ∃ r,
    fst (call_with_retry_loop clock generate_content purpose prompt n (Some k) s)
      = Return r.
Proof.
  induction n as [|n IH]; intros k [m w]; [by eexists|].
  cbn [call_with_retry_loop].
  destruct (get_model clock purpose (m, w))
    as [[[[client model_name] k']|e] [m1 w1]].
  - match goal with |- context [bind ?c ?f (m1, w1)] =>
      destruct (bind c f (m1, w1)) as [[text|e] [m2 w2]] end; [by eexists|].
    unfold bind at 1. rewrite except_clause_bound. apply IH.
  - unfold bind at 1. rewrite except_clause_bound. apply IH.
Qed.

(** So [call_with_retry] returns whenever the scan of its first attempt
    finds a key; with [exhausted_pool_raises], it raises exactly when
    that scan finds none. *)
Lemma call_with_retry_returns_when_key_found clock generate_content
    purpose prompt max_retries m w k :
  fst (get_next_key (clock (ticks w)) m) = Return (Some k) →
  ∃ r, fst (call_with_retry clock generate_content purpose prompt
              max_retries (m, w)) = Return r.
Proof.
  intros Hsel. unfold call_with_retry.
  destruct (Z.to_nat max_retries) as [|n]; [by eexists|].
  cbn [call_with_retry_loop].
  assert (∃ client model_name s1,
            get_model clock purpose (m, w) =
            (Return (client, model_name, k), s1)) as (client & mn & s1 & ->).
  { unfold get_model, self_get_next_key, bind, time_time, get_client, ret.
    simpl. destruct (get_next_key (clock (ticks w)) m) as [r m']. simpl in *.
    subst r. destruct (clients m' !! index (key_object k m')); eauto. }
  destruct s1 as [m1 w1].
  match goal with |- context [bind ?c ?f (m1, w1)] =>
    destruct (bind c f (m1, w1)) as [[text|e] [m2 w2]] end; [by eexists|].
  unfold bind at 1. rewrite except_clause_bound.
  apply retry_loop_returns_once_bound.
Qed.

(** ** The scenarios of the specification *)

(** Pool [A, B, C] with the cursor at A: A is selected and rate limited
    for 60 s, B is selected and succeeds, C is selected and rate limited
    for 300 s; the next scan, before the 60 s are over, steps over A and
    returns B. *)
Lemma scenario_rotation_past_limited_key :
  results [OpSelect 0; OpMarkRateLimited 1 0 60;
           OpSelect 2; OpMarkSuccess 3 1;
           OpSelect 4; OpMarkRateLimited 5 2 300;
           OpSelect 30] pool3
  = [Return (Some 0); Return None; Return (Some 1); Return None;
     Return (Some 2); Return None; Return (Some 1)].
Proof. reflexivity. Qed.

(** Pool of one key, rate limited, cooldown running: the scan yields
    nothing. *)
Lemma scenario_single_key_limited :
  fst (get_next_key 30 pool1_limited) = Return None.
Proof. reflexivity. Qed.

(** * Further properties of the key manager *)

(** ** What a scan returns *)

(** X1.  A scan returns the first key, counting from the cursor and
    wrapping around, that is AVAILABLE or RATE_LIMITED with its cooldown
    over; the cursor is left one place after it, that key comes back
    recovered and nothing else changes. *)
Theorem scan_returns_first_selectable (now : Z) (m : GeminiKeyManager)
    (d : nat) (k : APIKey) :
  let n := length (keys m) in
  let p := (current_index m + d) mod n in
  d < n →
  current_index m < n →
  (∀ d', d' < d →
     ∃ k', keys m !! ((current_index m + d') mod n) = Some k' ∧
           selectable now k' = false) →
  keys m !! p = Some k →
  selectable now k = true →
  fst (get_next_key now m) = Return (Some p)
  ∧ current_index (snd (get_next_key now m)) = (p + 1) mod n
  ∧ keys (snd (get_next_key now m)) = <[p := recovered k]> (keys m)
  ∧ clients (snd (get_next_key now m)) = clients m.
Proof.
  intros n p Hd Hc Hskip Hk Hsel.
  by rewrite (get_next_key_hit now m d k Hd Hc Hskip Hk Hsel).
Qed.

Lemma scan_returns_first_selectable_witness :
  fst (get_next_key 5 (mark_rate_limited 0 0 60 pool3)) = Return (Some 1).
Proof.
  refine (proj1 (scan_returns_first_selectable 5
            (mark_rate_limited 0 0 60 pool3) 1 (new_APIKey "B" 1) _ _ _ _ _)).
  - simpl. lia.
  - simpl. lia.
  - intros d' Hd'. assert (d' = 0) as -> by lia.
    exists (mkAPIKey "A" 0 RATE_LIMITED 0 1 60). split; reflexivity.
  - reflexivity.
  - reflexivity.
Defined.

Lemma get_next_key_loop_none now fuel : ∀ m,
  current_index m < length (keys m) →
  fst (get_next_key_loop now fuel m) = Return None →
  ∀ d, d < fuel →
    ∃ k, keys m !! ((current_index m + d) mod length (keys m)) = Some k ∧
         selectable now k = false.
Proof.
  induction fuel as [|fuel IH]; intros m Hc Hnone d Hd; [lia|].
  simpl in Hnone.
  destruct (lookup_lt_is_Some_2 _ _ Hc) as [k Hk]. rewrite Hk in Hnone.
  set (m1 := with_current_index _ m) in Hnone.
  assert (Hc1 : current_index m1 < length (keys m1)).
  { simpl. apply Nat.mod_upper_bound. lia. }
  assert (selectable now k = false ∧
          fst (get_next_key_loop now fuel m1) = Return None) as [Hsel Hrest].
  { unfold selectable. destruct (status k); [done| |done..].
    by destruct (cooldown_until k <? now)%Z. }
  destruct d as [|d].
  - rewrite Nat.add_0_r, Nat.mod_small by done. eauto.
  - destruct (IH m1 Hc1 Hrest d) as (k' & Hk' & Hsel'); [lia|].
    simpl in Hk'. rewrite cursor_step in Hk'. eauto.
Qed.

(** X2.  With the cursor inside the pool, a scan returns [None] exactly
    when no key is AVAILABLE or RATE_LIMITED with its cooldown over, and
    it then leaves the manager exactly as it was: the cursor has gone once
    around. *)
Theorem scan_none_iff_nothing_selectable (now : Z) (m : GeminiKeyManager) :
  current_index m < length (keys m) →
  (fst (get_next_key now m) = Return None ↔
   Forall (λ k, selectable now k = false) (keys m))
  ∧ (fst (get_next_key now m) = Return None → snd (get_next_key now m) = m).
Proof.
  intros Hc.
  assert (fst (get_next_key now m) = Return None →
          Forall (λ k, selectable now k = false) (keys m)) as Hfwd.
  { intros Hnone. apply Forall_lookup. intros j k Hk.
    apply lookup_lt_Some in Hk as Hj.
    set (d := if decide (current_index m ≤ j) then j - current_index m
              else j + length (keys m) - current_index m).
    assert (d < length (keys m)) as Hd by (unfold d; case_decide; lia).
    destruct (get_next_key_loop_none now _ m Hc Hnone d Hd) as (k' & Hk' & Hsel).
    rewrite mod_wrap in Hk' by done.
    replace (if decide (current_index m + d < length (keys m))
             then current_index m + d
             else current_index m + d - length (keys m)) with j in Hk'
      by (unfold d; repeat case_decide; lia).
    by simplify_eq. }
  split; [split; [done|]|].
  - intros Hall. by rewrite get_next_key_miss by auto.
  - intros Hnone. by rewrite get_next_key_miss by auto.
Qed.

Lemma scan_none_iff_nothing_selectable_witness :
  snd (get_next_key 30 pool1_limited) = pool1_limited.
Proof.
  refine (proj2 (scan_none_iff_nothing_selectable 30 pool1_limited _) _).
  - simpl. lia.
  - reflexivity.
Defined.

(** ** The identity of the keys *)

Lemma get_next_key_loop_clients now fuel : ∀ m,
  clients (snd (get_next_key_loop now fuel m)) = clients m.
Proof.
  induction fuel as [|fuel IH]; intros m; simpl; [done|].
  destruct (keys m !! current_index m) as [k|]; [|done].
  destruct (status k); simpl; rewrite ?IH; try done.
  destruct (cooldown_until k <? now)%Z; simpl; by rewrite ?IH.
Qed.

Lemma run_op_clients o m : clients (run_op o m) = clients m.
Proof.
  destruct o; cbn [run_op]; try done. apply get_next_key_loop_clients.
Qed.

Lemma run_op_key_fields o m j k :
  keys m !! j = Some k →
  ∃ k', keys (run_op o m) !! j = Some k' ∧ key k' = key k ∧ index k' = index k.
Proof.
  intros Hk. destruct o as [now|now i c|i|now i]; cbn [run_op].
  - destruct (select_lookup now m j k Hk) as [(_ & _ & Hk')|[_ Hk']];
      rewrite Hk'; eexists; (split; [done|]); [|done].
    unfold recovered. by destruct (status k).
  - unfold mark_rate_limited. rewrite lookup_update_key.
    case_decide; subst; rewrite ?Hk; simpl; eauto.
  - unfold mark_error. rewrite lookup_update_key.
    case_decide; subst; rewrite ?Hk; simpl; [|eauto].
    eexists. split; [done|]. by case_match.
  - unfold mark_success. rewrite lookup_update_key.
    case_decide; subst; rewrite ?Hk; simpl; eauto.
Qed.

Lemma run_op_fmap_field {A} (f : APIKey → A) o m :
  (∀ k k', key k' = key k → index k' = index k → f k' = f k) →
  f <$> keys (run_op o m) = f <$> keys m.
Proof.
  intros Hf. apply list_eq. intros j. rewrite !list_lookup_fmap.
  destruct (keys m !! j) as [k|] eqn:Hk.
  - destruct (run_op_key_fields o m j k Hk) as (k' & -> & Hkey & Hidx).
    simpl. f_equal. by apply Hf.
  - apply lookup_ge_None in Hk. rewrite <- (run_op_length o) in Hk.
    apply lookup_ge_None in Hk. by rewrite Hk.
Qed.

Lemma run_op_secrets o m : key <$> keys (run_op o m) = key <$> keys m.
Proof. apply run_op_fmap_field. auto. Qed.

Lemma run_op_indexes o m : index <$> keys (run_op o m) = index <$> keys m.
Proof. apply run_op_fmap_field. auto. Qed.

Lemma keys_identified_lookup m j k :
  keys_identified m → keys m !! j = Some k → index k = j.
Proof.
  intros Hid Hk. apply lookup_lt_Some in Hk as Hj.
  assert ((index <$> keys m) !! j = Some (index k)) as H
    by (by rewrite list_lookup_fmap, Hk).
  rewrite Hid, lookup_seq_lt in H by done. by simplify_eq.
Qed.

Lemma run_op_coherent o m : coherent m → coherent (run_op o m).
Proof.
  intros [Hid Hcache]. split.
  - unfold keys_identified. by rewrite run_op_indexes, run_op_length.
  - intros i c Hc. rewrite run_op_clients in Hc.
    destruct (Hcache i c Hc) as (k & Hk & Hsecret).
    destruct (run_op_key_fields o m i k Hk) as (k' & Hk' & Hkey & _).
    exists k'. split; [done|]. congruence.
Qed.

Lemma get_client_keys k m w : keys (fst (snd (get_client k (m, w)))) = keys m.
Proof. unfold get_client. by case_match. Qed.

Lemma get_client_coherent k m w :
  coherent m → is_Some (keys m !! k) →
  coherent (fst (snd (get_client k (m, w)))).
Proof.
  intros [Hid Hcache] [ko Hko]. split.
  - unfold keys_identified. by rewrite get_client_keys.
  - unfold get_client, key_object. rewrite Hko. simpl.
    rewrite (keys_identified_lookup m k ko Hid Hko).
    destruct (clients m !! k) eqn:Hc; [done|]. simpl.
    intros i c. simpl. rewrite lookup_insert.
    case_decide; [|by apply Hcache].
    intros [= <-]. subst. eauto.
Qed.

Lemma init_index_seq (api_keys : list string) i :
  index <$> (map (λ p, new_APIKey (snd p) (fst p)) (enumerate_from i api_keys))
  = seq i (length api_keys).
Proof.
  revert i. induction api_keys as [|x l IH]; intros i; [done|].
  simpl. f_equal. apply IH.
Qed.

Lemma init_length api_keys : length (keys (init api_keys)) = length api_keys.
Proof.
  unfold init. simpl. rewrite length_map.
  generalize 0. induction api_keys as [|x l IH]; intros i; [done|].
  simpl. by rewrite IH.
Qed.

Lemma init_coherent api_keys : coherent (init api_keys).
Proof.
  split.
  - unfold keys_identified. rewrite init_length. apply init_index_seq.
  - intros i c Hc. done.
Qed.

(** ** One attempt of the retry loop *)

Lemma get_model_inv clock purpose m w r m1 w1 :
  get_model clock purpose (m, w) = (r, (m1, w1)) →
  w1 = mkWorld (S (ticks w)) (requests w) (stdout w) (slept w) ∧
  keys m1 = keys (run_op (OpSelect (clock (ticks w))) m) ∧
  (coherent m → coherent m1) ∧
  match r with
  | Return (client, model_name, k) =>
      model_name = model_for purpose ∧
      fst (get_next_key (clock (ticks w)) m) = Return (Some k) ∧
      ∃ ko, keys m1 !! k = Some ko ∧ status ko = AVAILABLE ∧
            (coherent m → api_key client = key ko)
  | Raise e => True
  end.
Proof.
  unfold get_model, self_get_next_key, bind, time_time, ret, raise. simpl.
  pose proof (run_op_coherent (OpSelect (clock (ticks w))) m) as Hco.
  pose proof (get_next_key_returned (clock (ticks w)) m) as Hret.
  cbn [run_op] in *.
  destruct (get_next_key (clock (ticks w)) m) as [[[k|]|e] m'];
    simpl in *; [|intros Heq; simplify_eq; split_and!; auto..].
  destruct (Hret k eq_refl) as (k0 & _ & Hsel & Hk').
  pose proof (get_client_coherent k m'
    (mkWorld (S (ticks w)) (requests w) (stdout w) (slept w))) as Hgc.
  unfold get_client, key_object in *. rewrite Hk' in *. simpl in *.
  destruct (clients m' !! index (recovered k0)) as [c|] eqn:Hc;
    intros Heq; simplify_eq; simpl in *.
  - split_and!; [done|done|auto|done|done|].
    exists (recovered k0). split_and!; [done|by eapply recovered_status|].
    intros [Hid Hcache]%Hco.
    destruct (Hcache _ c Hc) as (k1 & Hk1 & ->).
    rewrite (keys_identified_lookup _ _ _ Hid Hk') in Hk1. by simplify_eq.
  - split_and!; [done|done|eauto|done|done|].
    exists (recovered k0). split_and!; [done|by eapply recovered_status|done].
Qed.

Lemma attempt_body_eval clock generate_content client model_name prompt k m1 w1 :
  (response <- models_generate_content generate_content client model_name prompt ;;
   self_mark_success clock k ;; ret response) (m1, w1) =
  match generate_content (length (requests w1))
          (mkRequest client model_name prompt) with
  | Return text =>
      (Return text,
       (mark_success (clock (ticks w1)) k m1,
        mkWorld (S (ticks w1))
          (requests w1 ++ [mkRequest client model_name prompt])
          (stdout w1) (slept w1)))
  | Raise e =>
      (Raise e,
       (m1, mkWorld (ticks w1)
              (requests w1 ++ [mkRequest client model_name prompt])
              (stdout w1) (slept w1)))
  end.
Proof.
  unfold bind, models_generate_content.
  by destruct (generate_content _ _).
Qed.

Lemma world_after_failure_requests c e w :
  requests (world_after_failure c e w) = requests w.
Proof. by destruct c. Qed.

Lemma world_after_failure_slept c e w :
  slept (world_after_failure c e w) = (slept w + 1)%Z.
Proof. by destruct c. Qed.

(** ** The whole retry loop *)

Lemma retry_outcome_step generate_content ks purpose prompt n b b' w w_mid pre res :
  requests w_mid = requests w ++ pre →
  length pre ≤ 1 →
  Forall (good_request ks purpose prompt) pre →
  slept w_mid = (slept w + 1)%Z →
  retry_outcome generate_content ks purpose prompt n (Some b') w_mid res →
  retry_outcome generate_content ks purpose prompt (S n) b w res.
Proof.
  intros Hreq Hlen Hgood Hslept (sent & Hreq' & Hlen' & Hgood' & Hslept' & Hres).
  exists (pre ++ sent). split_and!.
  - by rewrite Hreq', Hreq, app_assoc.
  - rewrite length_app. lia.
  - by apply Forall_app.
  - lia.
  - lia.
  - destruct (fst res) as [[text|]|e].
    + destruct Hres as (Hfailed & req & k & ko & Hlast & ?).
      split; [rewrite length_app; lia|].
      exists req, k, ko. split; [|done]. rewrite last_app. by rewrite Hlast.
    + lia.
    + by destruct Hres as (_ & ? & _).
Qed.

Lemma except_then_retry_bound {A} clock e k (next : M A) m w :
  (except_clause clock e (Some k) ;; next) (m, w) =
  next (run_op (transition (classify (str e)) (clock (ticks w)) k) m,
        world_after_failure (classify (str e)) e w).
Proof. unfold bind. by rewrite except_clause_bound. Qed.

Lemma except_then_retry_unbound {A} clock e (next : M A) m w :
  (except_clause clock e None ;; next) (m, w) =
  (Raise (UnboundLocalError "key"), (m, w)).
Proof. unfold bind. by rewrite except_clause_unbound. Qed.

Lemma retry_loop_outcome clock generate_content purpose prompt ks n :
  ∀ bound m w,
    coherent m → key <$> keys m = ks →
    retry_outcome generate_content ks purpose prompt n bound w
      (call_with_retry_loop clock generate_content purpose prompt n bound (m, w))
    ∧ coherent (fst (snd (call_with_retry_loop clock generate_content
                            purpose prompt n bound (m, w))))
    ∧ key <$> keys (fst (snd (call_with_retry_loop clock generate_content
                                purpose prompt n bound (m, w)))) = ks.
Proof.
  induction n as [|n IH]; intros bound m w Hco Hks.
  { split; [|done]. exists []. simpl.
    split_and!; [by rewrite app_nil_r|done|done|lia|lia|lia]. }
  cbn [call_with_retry_loop].
  destruct (get_model clock purpose (m, w)) as [r1 [m1 w1]] eqn:Hgm.
  apply get_model_inv in Hgm as (-> & Hkeys1 & Hco1 & Hr1).
  specialize (Hco1 Hco).
  assert (Hks1 : key <$> keys m1 = ks)
    by (by rewrite Hkeys1, run_op_secrets).
  destruct r1 as [[[client model_name] k]|e].
  - destruct Hr1 as (-> & Hsel & ko & Hko & Hst & Hsecret).
    specialize (Hsecret Hco).
    assert (Hgood : good_request ks purpose prompt
                      (mkRequest client (model_for purpose) prompt)).
    { split_and!; [done..|]. simpl. rewrite Hsecret, <- Hks1.
      apply list_elem_of_fmap_2. by eapply list_elem_of_lookup_2. }
    rewrite attempt_body_eval. cbn [requests ticks stdout slept].
    destruct (generate_content (length (requests w))
                (mkRequest client (model_for purpose) prompt))
      as [text|e] eqn:Hgen.
    + split_and!.
      * exists [mkRequest client (model_for purpose) prompt]. simpl.
        split_and!; [done|lia|by constructor|lia|lia|lia|].
        exists (mkRequest client (model_for purpose) prompt), k,
          (set_error_count 0 (set_last_used (clock (S (ticks w))) ko)).
        split_and!; try done.
        -- rewrite length_app. simpl.
           by replace (length (requests w) + 1 - 1) with (length (requests w))
             by lia.
        -- by rewrite list_lookup_alter_eq, Hko.
      * apply (run_op_coherent (OpMarkSuccess _ k)), Hco1.
      * rewrite <- Hks1.
        apply (run_op_secrets (OpMarkSuccess (clock (S (ticks w))) k) m1).
    + rewrite except_then_retry_bound.
      match goal with |- context [call_with_retry_loop _ _ _ _ n (Some k) (?m2, ?w2)] =>
        destruct (IH (Some k) m2 w2) as (Hout & Hco2 & Hks2) end.
      { by apply run_op_coherent. }
      { by rewrite run_op_secrets. }
      split_and!; [|done..].
      eapply (retry_outcome_step _ _ _ _ _ _ _ _ _
                [mkRequest client (model_for purpose) prompt]);
        [| | |  |exact Hout].
      * by rewrite world_after_failure_requests.
      * simpl. lia.
      * by constructor.
      * by rewrite world_after_failure_slept.
  - destruct bound as [k0|].
    + rewrite except_then_retry_bound.
      match goal with |- context [call_with_retry_loop _ _ _ _ n (Some k0) (?m2, ?w2)] =>
        destruct (IH (Some k0) m2 w2) as (Hout & Hco2 & Hks2) end.
      { by apply run_op_coherent. }
      { by rewrite run_op_secrets. }
      split_and!; [|done..].
      eapply (retry_outcome_step _ _ _ _ _ _ _ _ _ []); [| | | |exact Hout].
      * by rewrite world_after_failure_requests, app_nil_r.
      * simpl. lia.
      * constructor.
      * by rewrite world_after_failure_slept.
    + rewrite except_then_retry_unbound. simpl.
      split_and!; [|done..]. exists []. simpl.
      split_and!; [by rewrite app_nil_r|lia|done|lia|lia|done..].
Qed.

Lemma reachable_is_coherent m : reachable m → coherent m.
Proof.
  induction 1 as [api_keys|o m _ IH|clock purpose m w _ IH
                 |clock svc purpose prompt n m w _ IH].
  - apply init_coherent.
  - by apply run_op_coherent.
  - destruct (get_model clock purpose (m, w)) as [r [m1 w1]] eqn:Hgm.
    apply get_model_inv in Hgm as (_ & _ & Hco & _). by apply Hco.
  - by apply (retry_loop_outcome clock svc purpose prompt (key <$> keys m)).
Qed.

(** X3.  In every state a manager goes through, the key at position [i]
    carries the index [i], and every client in the cache was created with
    the secret of the key whose index it is filed under. *)
Theorem reachable_keys_and_cache (m : GeminiKeyManager) :
  reachable m →
  index <$> keys m = seq 0 (length (keys m))
  ∧ ∀ i c, clients m !! i = Some c →
      ∃ k, keys m !! i = Some k ∧ index k = i ∧ api_key c = key k.
Proof.
  intros [Hid Hcache]%reachable_is_coherent. split; [done|].
  intros i c Hc. destruct (Hcache i c Hc) as (k & Hk & Hsecret).
  exists k. split_and!; [done| |done]. by eapply keys_identified_lookup.
Qed.

Lemma reachable_keys_and_cache_witness :
  index <$> keys (run_op (OpMarkError 1) pool3) = [0; 1; 2].
Proof.
  refine (proj1 (reachable_keys_and_cache (run_op (OpMarkError 1) pool3) _)).
  apply reach_op, reach_init.
Defined.

(** X4.  Neither a scheduler operation nor a call of [call_with_retry]
    changes the secrets of the keys, their order or their number. *)
Theorem secrets_never_change (m : GeminiKeyManager) :
  reachable m →
  (∀ o, key <$> keys (run_op o m) = key <$> keys m)
  ∧ ∀ clock generate_content purpose prompt max_retries w,
      key <$> keys (fst (snd (call_with_retry clock generate_content purpose
                                prompt max_retries (m, w))))
      = key <$> keys m.
Proof.
  intros Hco%reachable_is_coherent. split; [intros o; apply run_op_secrets|].
  intros clock svc purpose prompt n w.
  by apply (retry_loop_outcome clock svc purpose prompt (key <$> keys m)).
Qed.

Lemma secrets_never_change_witness :
  key <$> keys (fst (snd (call_with_retry clock0 flaky_service "vision" "p" 3
                            (pool2, world0))))
  = ["A"; "B"]%string.
Proof.
  refine (proj2 (secrets_never_change pool2 _) clock0 flaky_service
            "vision"%string "p"%string 3%Z world0).
  apply reach_init.
Defined.

(** X5.  A call of [call_with_retry] sends at most [max_retries]
    requests (none when [max_retries] is zero or negative); each carries
    the caller's prompt, the model of the purpose, and a client created
    with the secret of one of the pool's keys. *)
Theorem requests_of_a_call (clock : nat → Z)
    (generate_content : nat → Request → Res string)
    (purpose prompt : string) (max_retries : Z)
    (m : GeminiKeyManager) (w : World) :
  reachable m →
  ∃ sent,
    requests (snd (snd (call_with_retry clock generate_content purpose prompt
                          max_retries (m, w)))) = requests w ++ sent
    ∧ length sent ≤ Z.to_nat max_retries
    ∧ Forall (λ req, req_contents req = prompt ∧
                     req_model req = model_for purpose ∧
                     api_key (req_client req) ∈ key <$> keys m) sent.
Proof.
  intros Hco%reachable_is_coherent.
  destruct (retry_loop_outcome clock generate_content purpose prompt
              (key <$> keys m) (Z.to_nat max_retries) None m w Hco eq_refl)
    as [(sent & Hreq & Hlen & Hgood & _) _].
  exists sent. by split_and!.
Qed.

Lemma requests_of_a_call_witness :
  ∃ sent,
    requests (snd (snd (call_with_retry clock0 flaky_service "vision" "p" 3
                          (pool2, world0)))) = [] ++ sent
    ∧ length sent ≤ 3
    ∧ Forall (λ req, req_contents req = "p"%string ∧
                     req_model req = model_for "vision" ∧
                     api_key (req_client req) ∈ ["A"; "B"]%string) sent.
Proof.
  apply (requests_of_a_call clock0 flaky_service "vision" "p" 3 pool2 world0).
  apply reach_init.
Defined.



(** X7.  When [call_with_retry] returns a text, that text is the
    service's answer to the last request sent, which carried the caller's
    prompt; the key that served it is in the pool, AVAILABLE and with
    [error_count] 0, and the request's client was created with its
    secret. *)
Theorem successful_call (clock : nat → Z)
    (generate_content : nat → Request → Res string)
    (purpose prompt : string) (max_retries : Z)
    (m : GeminiKeyManager) (w : World) (text : string) :
  reachable m →
  let res := call_with_retry clock generate_content purpose prompt
               max_retries (m, w) in
  fst res = Return (Some text) →
  ∃ req k ko,
    last (requests (snd (snd res))) = Some req
    ∧ generate_content (length (requests (snd (snd res))) - 1) req = Return text
    ∧ req_contents req = prompt
    ∧ req_model req = model_for purpose
    ∧ keys (fst (snd res)) !! k = Some ko
    ∧ status ko = AVAILABLE ∧ error_count ko = 0%Z
    ∧ api_key (req_client req) = key ko.
Proof.
  intros Hco%reachable_is_coherent res Htext. unfold call_with_retry in res.
  destruct (retry_loop_outcome clock generate_content purpose prompt
              (key <$> keys m) (Z.to_nat max_retries) None m w Hco eq_refl)
    as [(sent & Hreq & Hlen & Hgood & Hslept & Hres) _].
  fold res in Hreq, Hslept, Hres. rewrite Htext in Hres.
  destruct Hres as (_ & req & k & ko & Hlast & Hgen & Hko & Hst & Hec & Hsecret).
  exists req, k, ko.
  assert (good_request (key <$> keys m) purpose prompt req) as (Hc & Hm & _).
  { rewrite Forall_forall in Hgood. apply Hgood.
    by eapply last_Some_elem_of. }
  split_and!; try done. rewrite Hreq, last_app. by rewrite Hlast.
Qed.

Lemma successful_call_witness :
  ∃ req k ko,
    last (requests (snd (snd (call_with_retry clock0 (service_after 1 "ok")
                                "vision" "p" 3 (pool2, world0))))) = Some req
    ∧ req_contents req = "p"%string
    ∧ keys (fst (snd (call_with_retry clock0 (service_after 1 "ok")
                        "vision" "p" 3 (pool2, world0)))) !! k = Some ko
    ∧ status ko = AVAILABLE ∧ error_count ko = 0%Z
    ∧ api_key (req_client req) = key ko.
Proof.
  destruct (successful_call clock0 (service_after 1 "ok") "vision" "p" 3
              pool2 world0 "ok")
    as (req & k & ko & H1 & _ & H3 & _ & H5 & H6 & H7 & H8).
  - apply reach_init.
  - reflexivity.
  - exists req, k, ko. split_and!; [exact H1|exact H3|exact H5|exact H6|exact H7|exact H8].
Defined.

(** ** The model of a purpose *)

Lemma model_for_purpose purpose :
  model_for purpose =
  if decide (purpose = "pro"%string) then "gemini-3-pro-preview"%string
  else "gemini-3-flash-preview"%string.
Proof.
  unfold model_for, models.
  replace ((list_to_map _ : gmap string string) !!! "fallback"%string)
    with "gemini-3-flash-preview"%string by reflexivity.
  rewrite !list_to_map_cons, list_to_map_nil.
  rewrite !lookup_insert, lookup_empty.
  repeat case_decide; subst; try done.
Qed.

(** X8.  [get_model] resolves the purpose "pro" to the model
    "gemini-3-pro-preview" and every other purpose, listed or not, to
    "gemini-3-flash-preview". *)
Theorem get_model_model_name (clock : nat → Z) (purpose : string)
    (m : GeminiKeyManager) (w : World)
    (client : Client) (model_name : string) (k : nat)
    (s1 : GeminiKeyManager * World) :
  get_model clock purpose (m, w) = (Return (client, model_name, k), s1) →
  model_name =
  if decide (purpose = "pro"%string) then "gemini-3-pro-preview"%string
  else "gemini-3-flash-preview"%string.
Proof.
  destruct s1 as [m1 w1]. intros (_ & _ & _ & -> & _)%get_model_inv.
  apply model_for_purpose.
Qed.

Lemma get_model_model_name_witness :
  "gemini-3-flash-preview"%string =
  if decide ("no such purpose"%string = "pro"%string)
  then "gemini-3-pro-preview"%string else "gemini-3-flash-preview"%string.
Proof.
  refine (get_model_model_name clock0 "no such purpose" pool1 world0
            (mkClient "k0") "gemini-3-flash-preview" 0
            (with_clients (<[0 := mkClient "k0"]> ∅) pool1,
             mkWorld 1 [] [] 0) _).
  reflexivity.
Defined.

(** ** The client cache *)

(** X9.  [get_client] keeps one client per key: asking again for the
    client of the same key returns the same client and changes nothing;
    the first request neither touches the keys nor the cursor nor the
    clients of other keys. *)
Theorem get_client_cached (k : nat) (m : GeminiKeyManager) (w : World)
    (c : Client) (m1 : GeminiKeyManager) (w1 : World) :
  get_client k (m, w) = (Return c, (m1, w1)) →
  get_client k (m1, w1) = (Return c, (m1, w1))
  ∧ w1 = w ∧ keys m1 = keys m ∧ current_index m1 = current_index m
  ∧ clients m1 !! index (key_object k m) = Some c
  ∧ ∀ i, i ≠ index (key_object k m) → clients m1 !! i = clients m !! i.
Proof.
  unfold get_client, key_object.
  destruct (clients m !! _) as [c0|] eqn:Hc; intros Heq; simplify_eq; simpl.
  - rewrite Hc. done.
  - rewrite lookup_insert_eq. split_and!; try done.
    intros i Hi. by rewrite lookup_insert_ne.
Qed.

Lemma get_client_cached_witness :
  get_client 0 (with_clients (<[0 := mkClient "k0"]> ∅) pool1, world0)
  = (Return (mkClient "k0"),
     (with_clients (<[0 := mkClient "k0"]> ∅) pool1, world0)).
Proof.
  refine (proj1 (get_client_cached 0 pool1 world0 (mkClient "k0")
                   (with_clients (<[0 := mkClient "k0"]> ∅) pool1) world0 _)).
  reflexivity.
Defined.

(** ** [get_status] *)

Lemma get_status_fold (l : list APIKey) : ∀ d : gmap string StatusEntry,
  NoDup (status_name <$> l) →
  (∀ k, k ∈ l → d !! status_name k = None) →
  let d' := foldl (λ d k, <[status_name k :=
                   mkStatusEntry (KeyStatus_value (status k)) (error_count k)]> d)
              d l in
  size d' = size d + length l
  ∧ (∀ k, k ∈ l →
       d' !! status_name k =
       Some (mkStatusEntry (KeyStatus_value (status k)) (error_count k)))
  ∧ (∀ x, (∀ k, k ∈ l → x ≠ status_name k) → d' !! x = d !! x).
Proof.
  induction l as [|k l IH]; intros d Hnd Hfresh; simpl.
  { split_and!; [lia| |done]. intros k Hk. by apply elem_of_nil in Hk. }
  rewrite fmap_cons in Hnd. apply NoDup_cons in Hnd as [Hk Hnd].
  set (e := mkStatusEntry (KeyStatus_value (status k)) (error_count k)).
  destruct (IH (<[status_name k := e]> d) Hnd) as (Hsize & Hin & Hout).
  { intros k' Hk'. rewrite lookup_insert_ne; [apply Hfresh; by right|].
    intros Heq. apply Hk. rewrite Heq. by apply list_elem_of_fmap_2. }
  split_and!.
  - rewrite Hsize, map_size_insert_None; [lia|]. apply Hfresh. by left.
  - intros k' [->|Hk']%elem_of_cons; [|by apply Hin].
    rewrite Hout; [by rewrite lookup_insert_eq|].
    intros k' Hk' Heq. apply Hk. rewrite Heq. by apply list_elem_of_fmap_2.
  - intros x Hx. rewrite Hout.
    + rewrite lookup_insert_ne; [done|]. intros Heq. by apply (Hx k); [left|].
    + intros k' Hk'. apply Hx. by right.
Qed.

Lemma status_name_inj k k' : status_name k = status_name k' → index k = index k'.
Proof.
  unfold status_name. intros Heq%(inj (String.app "key_")).
  apply (inj pretty) in Heq. lia.
Qed.

(** X10.  In every state a manager goes through, [get_status] has exactly
    one entry per key, and the entry named [key_<i+1>] reports the status
    value and the [error_count] of the key at position [i]. *)
Theorem get_status_snapshot (m : GeminiKeyManager) :
  reachable m →
  size (get_status m) = length (keys m)
  ∧ ∀ i k, keys m !! i = Some k →
      get_status m !! ("key_" +:+ pretty (i + 1)) =
      Some (mkStatusEntry (KeyStatus_value (status k)) (error_count k)).
Proof.
  intros [Hid _]%reachable_is_coherent.
  assert (NoDup (status_name <$> keys m)) as Hnd.
  { apply NoDup_fmap_2_strong.
    - intros k k' Hk Hk' Heq%status_name_inj.
      apply list_elem_of_lookup in Hk as [i Hi].
      apply list_elem_of_lookup in Hk' as [i' Hi'].
      rewrite (keys_identified_lookup m i k Hid Hi),
              (keys_identified_lookup m i' k' Hid Hi') in Heq.
      subst. by simplify_eq.
    - apply (NoDup_fmap_1 index). rewrite Hid. apply NoDup_seq. }
  destruct (get_status_fold (keys m) ∅ Hnd) as (Hsize & Hin & _); [done|].
  split.
  - unfold get_status. rewrite Hsize, map_size_empty. lia.
  - intros i k Hk. unfold get_status.
    rewrite <- (keys_identified_lookup m i k Hid Hk).
    apply Hin. by eapply list_elem_of_lookup_2.
Qed.

Lemma get_status_snapshot_witness :
  get_status pool1_error !! ("key_" +:+ pretty (0 + 1)) =
  Some (mkStatusEntry "error" 3).
Proof.
  refine (proj2 (get_status_snapshot pool1_error _) 0
            (mkAPIKey "k0" 0 ERROR 0 3 0) eq_refl).
  apply (reach_op (OpMarkError 0)), (reach_op (OpMarkError 0)),
        (reach_op (OpMarkError 0)), reach_init.
Defined.

(** ** Marking a failure *)

(** X11.  [mark_error] and [mark_rate_limited] touch only the key they
    are given: of that key, [mark_error] changes [error_count] and, from
    the third error on, [status]; [mark_rate_limited] changes [status],
    [cooldown_until] and [error_count]; neither changes its secret, its
    index or its [last_used], any other key, the cursor or the client
    cache. *)
Theorem mark_failure_frame (now : Z) (cooldown_seconds : Z) (i : nat)
    (m : GeminiKeyManager) (k : APIKey) :
  keys m !! i = Some k →
  (∃ k', keys (mark_error i m) !! i = Some k' ∧
         key k' = key k ∧ index k' = index k ∧ last_used k' = last_used k ∧
         cooldown_until k' = cooldown_until k ∧
         error_count k' = (error_count k + 1)%Z ∧
         status k' = (if (3 <=? error_count k + 1)%Z then ERROR else status k))
  ∧ (∃ k', keys (mark_rate_limited now i cooldown_seconds m) !! i = Some k' ∧
           key k' = key k ∧ index k' = index k ∧ last_used k' = last_used k ∧
           cooldown_until k' = (now + cooldown_seconds)%Z ∧
           error_count k' = (error_count k + 1)%Z ∧
           status k' = RATE_LIMITED)
  ∧ (∀ j, j ≠ i →
       keys (mark_error i m) !! j = keys m !! j ∧
       keys (mark_rate_limited now i cooldown_seconds m) !! j = keys m !! j)
  ∧ current_index (mark_error i m) = current_index m
  ∧ current_index (mark_rate_limited now i cooldown_seconds m) = current_index m
  ∧ clients (mark_error i m) = clients m
  ∧ clients (mark_rate_limited now i cooldown_seconds m) = clients m.
Proof.
  intros Hk. unfold mark_error, mark_rate_limited.
  split_and!; try done.
  - rewrite lookup_update_key, decide_True, Hk by done. simpl.
    eexists. split; [done|]. by case_match.
  - rewrite lookup_update_key, decide_True, Hk by done. simpl. eauto 10.
  - intros j Hj. by rewrite !lookup_update_key, !decide_False.
Qed.

Lemma mark_failure_frame_witness :
  ∃ k', keys (mark_error 0 (mark_error 0 pool1_limited)) !! 0 = Some k' ∧
        key k' = "k0"%string ∧ status k' = ERROR.
Proof.
  destruct (mark_failure_frame 0 60 0 (mark_error 0 pool1_limited)
              (mkAPIKey "k0" 0 RATE_LIMITED 0 2 60) eq_refl)
    as [(k' & Hk' & Hkey & _ & _ & _ & _ & Hst) _].
  exists k'. split_and!; [exact Hk'|exact Hkey|exact Hst].
Defined.

(** ** Strings *)


Lemma chars_app s1 s2 : chars (s1 +:+ s2) = chars s1 ++ chars s2.
Proof. induction s1 as [|c s1 IH]; simpl; [done|]. by rewrite IH. Qed.













Lemma split_nonempty sep s : split sep s ≠ [].
Proof.
  destruct s as [|c s]; simpl; [done|].
  destruct (Ascii.eqb c sep); [done|]. by destruct (split sep s).
Qed.




(** ** [_load_keys] *)







(** ** A call that is served at once *)

Lemma get_model_found clock purpose m w k :
  fst (get_next_key (clock (ticks w)) m) = Return (Some k) →
  ∃ client s1,
    get_model clock purpose (m, w) = (Return (client, model_for purpose, k), s1).
Proof.
  intros Hsel.
  unfold get_model, self_get_next_key, bind, time_time, get_client, ret.
  simpl. destruct (get_next_key (clock (ticks w)) m) as [r m']. simpl in *.
  subst r. destruct (clients m' !! index (key_object k m')); eauto.
Qed.

Lemma get_model_cursor clock purpose m w r m1 w1 :
  get_model clock purpose (m, w) = (r, (m1, w1)) →
  current_index m1 = current_index (run_op (OpSelect (clock (ticks w))) m).
Proof.
  unfold get_model, self_get_next_key, bind, time_time, get_client, ret, raise.
  simpl. destruct (get_next_key (clock (ticks w)) m) as [[[k|]|e] m'];
    simpl; [|intros; by simplify_eq..].
  destruct (clients m' !! index (key_object k m')); intros; by simplify_eq.
Qed.

(** X14.  When the key under the cursor is AVAILABLE and the service
    answers the request made with its secret, [call_with_retry] returns
    that answer after exactly one request, without sleeping, with the
    cursor moved on by one place and the keys' secrets and statuses as
    they were. *)
Theorem call_served_at_cursor (clock : nat → Z)
    (generate_content : nat → Request → Res string)
    (purpose prompt : string) (max_retries : Z)
    (m : GeminiKeyManager) (w : World) (k : APIKey) (text : string) :
  reachable m →
  (1 ≤ max_retries)%Z →
  keys m !! current_index m = Some k →
  status k = AVAILABLE →
  generate_content (length (requests w))
    (mkRequest (mkClient (key k)) (model_for purpose) prompt) = Return text →
  let res := call_with_retry clock generate_content purpose prompt
               max_retries (m, w) in
  fst res = Return (Some text)
  ∧ requests (snd (snd res)) =
      requests w ++ [mkRequest (mkClient (key k)) (model_for purpose) prompt]
  ∧ slept (snd (snd res)) = slept w
  ∧ current_index (fst (snd res)) =
      (current_index m + 1) mod length (keys m)
  ∧ key <$> keys (fst (snd res)) = key <$> keys m
  ∧ status <$> keys (fst (snd res)) = status <$> keys m.
Proof.
  intros Hreach Hmax Hk Hst Hgen res. subst res. unfold call_with_retry.
  pose proof (reachable_is_coherent m Hreach) as Hco.
  destruct (Z.to_nat max_retries) as [|n] eqn:Hn; [lia|].
  apply lookup_lt_Some in Hk as Hc.
  assert (Hsel : selectable (clock (ticks w)) k = true)
    by (unfold selectable; by rewrite Hst).
  pose proof (get_next_key_hit (clock (ticks w)) m 0 k) as Hhit. simpl in Hhit.
  rewrite Nat.add_0_r, Nat.mod_small in Hhit by done.
  specialize (Hhit ltac:(lia) Hc ltac:(intros; lia) Hk Hsel).
  assert (recovered k = k) as Hrec by (unfold recovered; by rewrite Hst).
  rewrite Hrec, list_insert_id in Hhit by done.
  destruct (get_model_found clock purpose m w (current_index m))
    as (client & [m1 w1] & Hgm); [by rewrite Hhit|].
  pose proof (get_model_cursor _ _ _ _ _ _ _ Hgm) as Hcur.
  apply get_model_inv in Hgm as Hinv.
  destruct Hinv as (-> & Hkeys1 & _ & _ & _ & ko & Hko & _ & Hsecret).
  cbn [run_op] in Hkeys1, Hcur. rewrite Hhit in Hkeys1, Hcur.
  simpl in Hkeys1, Hcur. rewrite Hkeys1, Hk in Hko. simplify_eq.
  specialize (Hsecret Hco).
  assert (client = mkClient (key ko)) as -> by (destruct client; by simplify_eq/=).
  cbn [call_with_retry_loop]. rewrite Hgm, attempt_body_eval.
  cbn [requests]. rewrite Hgen. cbn [fst snd requests slept].
  split_and!; [done..| | |].
  - exact Hcur.
  - rewrite <- Hkeys1. apply (run_op_secrets (OpMarkSuccess _ _) m1).
  - apply list_eq. intros j. rewrite !list_lookup_fmap.
    unfold mark_success. rewrite lookup_update_key, Hkeys1.
    case_decide; [|done]. subst. by destruct (keys m !! current_index m).
Qed.

Lemma call_served_at_cursor_witness :
  fst (call_with_retry clock0 (service_after 0 "ok") "vision" "p" 3
         (pool3, world0)) = Return (Some "ok"%string).
Proof.
  refine (proj1 (call_served_at_cursor clock0 (service_after 0 "ok")
                   "vision" "p" 3 pool3 world0 (new_APIKey "A" 0) "ok"
                   _ _ _ _ _)).
  - apply reach_init.
  - lia.
  - reflexivity.
  - reflexivity.
  - reflexivity.
Defined.

(** ** The manager as the analyzers use it *)

Lemma used_by_analyzers_reachable m : used_by_analyzers m → reachable m.
Proof.
  induction 1 as [api_keys|clock purpose m w _ IH|now i m _ IH].
  - apply reach_init.
  - by apply reach_get_model.
  - by apply (reach_op (OpMarkSuccess now i)).
Qed.

Lemma select_all_available_keys now m :
  well_formed m →
  Forall (λ k, status k = AVAILABLE) (keys m) →
  keys (run_op (OpSelect now) m) = keys m.
Proof.
  intros [[Hnil|Hc] _] Hall; cbn [run_op].
  - unfold get_next_key. by rewrite Hnil.
  - by rewrite get_next_key_all_available.
Qed.

Lemma used_by_analyzers_fresh m :
  used_by_analyzers m →
  Forall (λ k, status k = AVAILABLE ∧ error_count k = 0%Z ∧
               cooldown_until k = 0%Z) (keys m).
Proof.
  induction 1 as [api_keys|clock purpose m w Hm IH|now i m Hm IH].
  - unfold init. simpl. apply Forall_fmap, Forall_true. by intros p.
  - destruct (get_model clock purpose (m, w)) as [r [m1 w1]] eqn:Hgm.
    apply get_model_inv in Hgm as (_ & Hkeys & _). simpl. rewrite Hkeys.
    rewrite select_all_available_keys; [done| |].
    + by apply reachable_well_formed, used_by_analyzers_reachable.
    + eapply Forall_impl; [exact IH|]. by intros k (? & _).
  - apply Forall_lookup. intros j k'. unfold mark_success.
    rewrite lookup_update_key. rewrite Forall_lookup in IH.
    case_decide; subst.
    + destruct (keys m !! j) as [k|] eqn:Hk; intros [= <-].
      destruct (IH j k Hk) as (? & ? & ?). done.
    + apply IH.
Qed.

(** X15.  A manager that is used through [get_model] and
    [mark_success] only (the way [vision_agent.py],
    [hierarchical_analyzer.py] and [orchestrator.py] use it: no failure is
    ever reported to it) never takes a key out of rotation: every key
    stays AVAILABLE with [error_count] 0, and on a pool that is not empty
    every [get_model] returns, with the key under the cursor. *)
Theorem analyzers_never_cool_a_key (m : GeminiKeyManager) :
  used_by_analyzers m →
  Forall (λ k, status k = AVAILABLE ∧ error_count k = 0%Z) (keys m)
  ∧ (keys m ≠ [] →
     ∀ clock purpose w, ∃ client s1,
       get_model clock purpose (m, w) =
       (Return (client, model_for purpose, current_index m), s1)).
Proof.
  intros Hm. pose proof (used_by_analyzers_fresh m Hm) as Hfresh.
  split.
  - eapply Forall_impl; [exact Hfresh|]. by intros k (? & ? & _).
  - intros Hne clock purpose w. apply get_model_found.
    destruct (reachable_well_formed m (used_by_analyzers_reachable m Hm))
      as [[Hnil|Hc] _]; [done|].
    rewrite get_next_key_all_available; [done..|].
    eapply Forall_impl; [exact Hfresh|]. by intros k (? & _).
Qed.

Lemma analyzers_never_cool_a_key_witness :
  Forall (λ k, status k = AVAILABLE ∧ error_count k = 0%Z)
    (keys (mark_success 5 0
             (fst (snd (get_model clock0 "vision" (pool2, world0)))))).
Proof.
  refine (proj1 (analyzers_never_cool_a_key _ _)).
  apply used_mark_success, used_get_model, used_init.
Defined.

(** ** When the executor raises *)

Lemma first_scan_empty_raises clock generate_content purpose prompt n m w :
  fst (get_next_key (clock (ticks w)) m) = Return None →
  fst (call_with_retry_loop clock generate_content purpose prompt (S n) None
         (m, w)) = Raise (UnboundLocalError "key").
Proof.
  intros Hnone. cbn [call_with_retry_loop].
  rewrite get_model_exhausted by done. by rewrite except_then_retry_unbound.
Qed.

(** X16.  [call_with_retry] raises exactly when it is given at least one
    attempt and the scan of the first attempt finds no key; what it raises
    is then [UnboundLocalError] for its local [key].  In every other case
    it returns a text or [None]. *)
Theorem call_raises_iff_first_scan_empty (clock : nat → Z)
    (generate_content : nat → Request → Res string)
    (purpose prompt : string) (max_retries : Z)
    (m : GeminiKeyManager) (w : World) :
  reachable m →
  let res := call_with_retry clock generate_content purpose prompt
               max_retries (m, w) in
  ((∃ e, fst res = Raise e) ↔
   (1 ≤ max_retries)%Z ∧ fst (get_next_key (clock (ticks w)) m) = Return None)
  ∧ (∀ e, fst res = Raise e → e = UnboundLocalError "key").
Proof.
  intros Hreach res.
  pose proof (reachable_is_coherent m Hreach) as Hco.
  assert (∀ e, fst res = Raise e → e = UnboundLocalError "key") as Honly.
  { intros e He. subst res. unfold call_with_retry in He.
    destruct (retry_loop_outcome clock generate_content purpose prompt
                (key <$> keys m) (Z.to_nat max_retries) None m w Hco eq_refl)
      as [(sent & _ & _ & _ & _ & Hres) _].
    rewrite He in Hres. by destruct Hres. }
  split; [|done]. split.
  - intros [e He]. split.
    + destruct (Z.to_nat max_retries) as [|n] eqn:Hn; [|lia].
      subst res. unfold call_with_retry in He. by rewrite Hn in He.
    + destruct (well_formed_scan_returns (clock (ticks w)) m
                  (reachable_well_formed m Hreach)) as [[k|] Hr]; [|done].
      destruct (call_with_retry_returns_when_key_found clock generate_content
                  purpose prompt max_retries m w k Hr) as [r Hret].
      subst res. congruence.
  - intros [Hmax Hnone]. exists (UnboundLocalError "key").
    subst res. unfold call_with_retry.
    destruct (Z.to_nat max_retries) as [|n] eqn:Hn; [lia|].
    by apply first_scan_empty_raises.
Qed.

Lemma call_raises_iff_first_scan_empty_witness :
  ∃ e, fst (call_with_retry clock0 (service_down "x") "vision" "p" 3
              (pool1_error, world0)) = Raise e.
Proof.
  refine (proj2 (proj1 (call_raises_iff_first_scan_empty clock0
            (service_down "x") "vision" "p" 3 pool1_error world0 _)) _).
  - apply (reach_op (OpMarkError 0)), (reach_op (OpMarkError 0)),
          (reach_op (OpMarkError 0)), reach_init.
  - split; [lia|reflexivity].
Defined.

(** ** Operations on different keys *)

Lemma update_key_commute i j f g m :
  i ≠ j →
  update_key i f (update_key j g m) = update_key j g (update_key i f m).
Proof.
  intros Hij. unfold update_key, with_keys. simpl. f_equal.
  apply list_eq. intros p. rewrite !list_lookup_alter.
  repeat case_decide; subst; try done.
Qed.

(** X17.  Marking operations applied to different keys commute: the
    state does not depend on the order in which two callers report the
    outcome of their calls when they hold different keys. *)
Theorem marks_on_different_keys_commute (o1 o2 : Op) (i j : nat)
    (m : GeminiKeyManager) :
  marks i o1 = true → marks j o2 = true → i ≠ j →
  run_op o1 (run_op o2 m) = run_op o2 (run_op o1 m).
Proof.
  intros H1 H2 Hij.
  destruct o1 as [|? i1 ?|i1|? i1]; simpl in H1; [done|..];
    apply bool_decide_eq_true in H1; subst i1;
    (destruct o2 as [|? j2 ?|j2|? j2]; simpl in H2; [done|..];
     apply bool_decide_eq_true in H2; subst j2);
    cbn [run_op]; unfold mark_rate_limited, mark_error, mark_success;
    by apply update_key_commute.
Qed.

Lemma marks_on_different_keys_commute_witness :
  run_op (OpMarkError 0) (run_op (OpMarkRateLimited 3 1 60) pool2)
  = run_op (OpMarkRateLimited 3 1 60) (run_op (OpMarkError 0) pool2).
Proof.
  apply (marks_on_different_keys_commute _ _ 0 1); [reflexivity|reflexivity|lia].
Defined.

(** * Properties of the callers *)

(** ** [hierarchical_analyzer.py] *)

Section AnalyzerProperties.

Variable clock : nat → Z.
Variable path_exists : string → bool.
Variable path_name : string → string.
Variable read_file : string → AppRes string.
Variable generate_media : nat → MediaRequest → AppRes string.
Variable parse_response : string → PyDict.
Variable audio_prompt : string.
Variable visual_prompt : nat → PyVal → string.

Lemma app_get_model_manager purpose s m :
  app_key_manager s = Some m →
  used_by_analyzers m →
  ∃ m', app_key_manager (snd (app_get_model clock purpose s)) = Some m' ∧
        used_by_analyzers m' ∧
        media_requests (snd (app_get_model clock purpose s)) = media_requests s.
Proof.
  intros Hs Hm. unfold app_get_model. rewrite Hs.
  pose proof (used_get_model clock purpose m (app_world s) Hm) as Hm'.
  destruct (get_model clock purpose (m, app_world s)) as [[r|e] [m' w']];
    simpl in *; eauto.
Qed.

Lemma analyze_manager tag verb prompt video_path s m :
  app_key_manager s = Some m →
  used_by_analyzers m →
  ∃ m', app_key_manager
          (snd (analyze clock path_exists path_name read_file generate_media
                  parse_response tag verb prompt video_path s)) = Some m' ∧
        used_by_analyzers m'.
Proof.
  intros Hs Hm. unfold analyze.
  destruct (path_exists video_path); simpl; [|eauto].
  unfold analyze_try.
  destruct (app_get_model_manager "vision" s m Hs Hm) as (m1 & Hs1 & Hm1 & _).
  destruct (app_get_model clock "vision" s) as [[[[client mn] k]|e] s1];
    simpl in *; [|eauto].
  destruct (read_file video_path) as [video_bytes|e]; simpl; [|eauto].
  destruct (generate_media _ _) as [text|e]; simpl; [|eauto].
  unfold app_mark_success. simpl. rewrite Hs1. simpl.
  eexists. split; [done|]. by apply used_mark_success.
Qed.

(** X18.  [hierarchical_analysis] acts on the key manager through
    [get_model] and [mark_success] only, whatever the files and the
    service do: after it, every key is still AVAILABLE with
    [error_count] 0.  A failing request is never reported to the
    manager. *)
Theorem hierarchical_analysis_keeps_keys_available (video_path : string)
    (s : AppState) (m : GeminiKeyManager) :
  app_key_manager s = Some m →
  used_by_analyzers m →
  ∃ m', app_key_manager
          (snd (hierarchical_analysis clock path_exists path_name read_file
                  generate_media parse_response audio_prompt visual_prompt
                  video_path s)) = Some m'
        ∧ used_by_analyzers m'
        ∧ Forall (λ k, status k = AVAILABLE ∧ error_count k = 0%Z) (keys m').
Proof.
  intros Hs Hm.
  assert (∃ m', app_key_manager
            (snd (hierarchical_analysis clock path_exists path_name read_file
                    generate_media parse_response audio_prompt visual_prompt
                    video_path s)) = Some m' ∧ used_by_analyzers m')
    as (m' & Hs' & Hm').
  { unfold hierarchical_analysis, analyze_audio_first, analyze_visual_deep.
    set (s0 := app_print _ s).
    destruct (analyze_manager "[AUDIO]" "Scanning" (λ _, audio_prompt)
                video_path s0 m Hs Hm) as (m1 & Hs1 & Hm1).
    destruct (analyze _ _ _ _ _ _ "[AUDIO]" _ _ _ s0) as [audio s1].
    simpl in Hs1.
    destruct (is_str _ "high" || is_str _ "critical").
    - set (s2 := app_print _ s1).
      match goal with |- context [analyze _ _ _ _ _ _ "[VISUAL]" ?v ?p _ s2] =>
        destruct (analyze_manager "[VISUAL]" v p video_path s2 m1 Hs1 Hm1)
          as (m3 & Hs3 & Hm3);
        destruct (analyze clock path_exists path_name read_file generate_media
                    parse_response "[VISUAL]" v p video_path s2) end.
      simpl in *. eauto.
    - destruct (py_len _) as [n|e]; simpl; [|eauto].
      destruct (0 <? n); simpl; [|eauto].
      set (s2 := app_print _ s1).
      match goal with |- context [analyze _ _ _ _ _ _ "[VISUAL]" ?v ?p _ s2] =>
        destruct (analyze_manager "[VISUAL]" v p video_path s2 m1 Hs1 Hm1)
          as (m3 & Hs3 & Hm3);
        destruct (analyze clock path_exists path_name read_file generate_media
                    parse_response "[VISUAL]" v p video_path s2) end.
      simpl in *. eauto. }
  exists m'. split_and!; [done..|].
  eapply Forall_impl; [exact (used_by_analyzers_fresh m' Hm')|].
  by intros k (? & ? & _).
Qed.

(** An analyzer sends no request and reports an error when the file is
    missing, when no key manager was built, or when [get_model] raises. *)
Lemma analyze_no_request tag verb prompt video_path s :
  path_exists video_path = false
  ∨ app_key_manager s = None
  ∨ (∃ m, app_key_manager s = Some m ∧
          fst (get_next_key (clock (ticks (app_world s))) m) = Return None) →
  ∃ msg,
    fst (analyze clock path_exists path_name read_file generate_media
           parse_response tag verb prompt video_path s) = error_dict msg
    ∧ media_requests
        (snd (analyze clock path_exists path_name read_file generate_media
                parse_response tag verb prompt video_path s))
      = media_requests s.
Proof.
  unfold analyze. destruct (path_exists video_path) eqn:Hex; simpl; [|eauto].
  intros [?|[Hnone|(m & Hs & Hscan)]]; [done| |].
  - unfold analyze_try, app_get_model. rewrite Hnone. simpl. eauto.
  - unfold analyze_try, app_get_model. rewrite Hs.
    rewrite get_model_exhausted by done. simpl. eauto.
Qed.

(** X19.  Fail-open: when the video is missing, or no key manager was
    built (no API key configured), or no key can be selected,
    [hierarchical_analysis] sends no request at all and still returns a
    decision: the audio phase is an error report, the visual phase is
    skipped and [final_decision] is NORMAL / TRUCK / MONITOR / routine. *)
Theorem hierarchical_analysis_fails_open (video_path : string) (s : AppState) :
  path_exists video_path = false
  ∨ app_key_manager s = None
  ∨ (∃ m, app_key_manager s = Some m ∧
          fst (get_next_key (clock (ticks (app_world s))) m) = Return None) →
  ∃ msg,
    fst (hierarchical_analysis clock path_exists path_name read_file
           generate_media parse_response audio_prompt visual_prompt
           video_path s)
    = AReturn (hierarchical_result path_name video_path (error_dict msg)
                 skipped_visual (VDict routine_decision))
    ∧ media_requests
        (snd (hierarchical_analysis clock path_exists path_name read_file
                generate_media parse_response audio_prompt visual_prompt
                video_path s))
      = media_requests s.
Proof.
  intros Hcase. unfold hierarchical_analysis, analyze_audio_first.
  set (s0 := app_print _ s).
  destruct (analyze_no_request "[AUDIO]" "Scanning" (λ _, audio_prompt)
              video_path s0) as (msg & Hres & Hreq); [exact Hcase|].
  destruct (analyze _ _ _ _ _ _ "[AUDIO]" _ _ _ s0) as [audio s1].
  simpl in Hres, Hreq. subst audio. simpl. eauto.
Qed.

Lemma used_get_model_returns m purpose w :
  used_by_analyzers m → keys m ≠ [] →
  ∃ client s1,
    get_model clock purpose (m, w) =
    (Return (client, model_for purpose, current_index m), s1).
Proof.
  intros Hm Hne. apply get_model_found.
  destruct (reachable_well_formed m (used_by_analyzers_reachable m Hm))
    as [[Hnil|Hc] _]; [done|].
  rewrite get_next_key_all_available; [done..|].
  eapply Forall_impl; [exact (used_by_analyzers_fresh m Hm)|].
  by intros k (? & _).
Qed.

Lemma analyze_service_failure tag verb prompt video_path s m video_bytes e :
  path_exists video_path = true →
  app_key_manager s = Some m →
  used_by_analyzers m →
  keys m ≠ [] →
  read_file video_path = AReturn video_bytes →
  (∀ req, generate_media (length (media_requests s)) req = ARaise e) →
  fst (analyze clock path_exists path_name read_file generate_media
         parse_response tag verb prompt video_path s) = error_dict (app_str e)
  ∧ ∃ req,
      media_requests
        (snd (analyze clock path_exists path_name read_file generate_media
                parse_response tag verb prompt video_path s))
      = media_requests s ++ [req]
      ∧ media_bytes req = video_bytes
      ∧ media_model req = model_for "vision".
Proof.
  intros Hex Hs Hm Hne Hread Hdown.
  unfold analyze, analyze_try, app_get_model. rewrite Hex, Hs. cbn [negb].
  destruct (used_get_model_returns m "vision" (app_world s) Hm Hne)
    as (client & [m1 w1] & Hgm).
  rewrite Hgm, Hread. simpl. rewrite Hdown. simpl.
  split; [done|]. eexists. split_and!; done.
Qed.

(** X20.  The same when the service fails during the audio phase: with
    the file there and a key at hand, [hierarchical_analysis] sends the
    one audio request (the bytes of the file, the audio prompt, the model
    of the purpose "vision"), takes the failure as the audio result,
    skips the visual phase and returns the decision NORMAL / TRUCK /
    MONITOR / routine. *)
Theorem audio_service_failure_gives_routine_decision (video_path : string)
    (s : AppState) (m : GeminiKeyManager) (video_bytes : string) (e : AppExn) :
  path_exists video_path = true →
  app_key_manager s = Some m →
  used_by_analyzers m →
  keys m ≠ [] →
  read_file video_path = AReturn video_bytes →
  (∀ req, generate_media (length (media_requests s)) req = ARaise e) →
  fst (hierarchical_analysis clock path_exists path_name read_file
         generate_media parse_response audio_prompt visual_prompt video_path s)
  = AReturn (hierarchical_result path_name video_path (error_dict (app_str e))
               skipped_visual (VDict routine_decision))
  ∧ ∃ req,
      media_requests
        (snd (hierarchical_analysis clock path_exists path_name read_file
                generate_media parse_response audio_prompt visual_prompt
                video_path s))
      = media_requests s ++ [req]
      ∧ media_bytes req = video_bytes
      ∧ media_prompt req = audio_prompt
      ∧ media_model req = "gemini-3-flash-preview"%string.
Proof.
  intros Hex Hs Hm Hne Hread Hdown.
  unfold hierarchical_analysis, analyze_audio_first.
  set (s0 := app_print _ s).
  destruct (analyze_service_failure "[AUDIO]" "Scanning" (λ _, audio_prompt)
              video_path s0 m video_bytes e Hex Hs Hm Hne Hread Hdown)
    as (Hres & req & Hreq & Hbytes & Hmodel).
  assert (media_prompt req = audio_prompt) as Hprompt.
  { revert Hreq. unfold analyze, analyze_try, app_get_model.
    rewrite Hex. cbn [negb]. change (app_key_manager s0) with (app_key_manager s).
    rewrite Hs.
    destruct (used_get_model_returns m "vision" (app_world s0) Hm Hne)
      as (client & [m1 w1] & Hgm).
    rewrite Hgm, Hread. simpl. rewrite Hdown. simpl.
    by intros [= <-]%app_inv_head. }
  destruct (analyze _ _ _ _ _ _ "[AUDIO]" _ _ _ s0) as [audio s1].
  simpl in Hres, Hreq. subst audio. simpl.
  split; [done|]. exists req. split_and!; try done.
Qed.

(** X21.  When the audio phase reports [distress_events] as something
    that has no length ([null], a number, a boolean) and does not report
    the priority "high" or "critical", [hierarchical_analysis] raises
    [TypeError] to its caller. *)
Theorem unsized_distress_events_raise (video_path : string) (s : AppState)
    (audio : PyDict) (s1 : AppState) :
  analyze_audio_first clock path_exists path_name read_file generate_media
    parse_response audio_prompt video_path
    (app_print (String "010" "=== PHASE 1: AUDIO SCAN ===") s)
  = (audio, s1) →
  is_str (dict_get audio "priority_for_visual" (VStr "medium")) "high" = false →
  is_str (dict_get audio "priority_for_visual" (VStr "medium")) "critical" = false →
  (∀ n, py_len (dict_get audio "distress_events" (VList [])) ≠ AReturn n) →
  ∃ msg,
    hierarchical_analysis clock path_exists path_name read_file generate_media
      parse_response audio_prompt visual_prompt video_path s
    = (ARaise (TypeError msg), s1).
Proof.
  intros Haudio Hhigh Hcrit Hlen. unfold hierarchical_analysis.
  rewrite Haudio, Hhigh, Hcrit. simpl.
  destruct (dict_get audio "distress_events" (VList [])) as [| | | | |l|d];
    simpl; eauto; by destruct (Hlen _ eq_refl).
Qed.

End AnalyzerProperties.

Lemma hierarchical_analysis_keeps_keys_available_witness :
  ∃ m', app_key_manager
          (snd (hierarchical_analysis clock0 all_files id read_ok media_down
                  parse_raw "listen" (λ _ _, "look"%string) "v.mp4"
                  (app0 (Some pool2)))) = Some m'
        ∧ used_by_analyzers m'
        ∧ Forall (λ k, status k = AVAILABLE ∧ error_count k = 0%Z) (keys m').
Proof.
  apply (hierarchical_analysis_keeps_keys_available clock0 all_files id read_ok
           media_down parse_raw "listen" (λ _ _, "look"%string) "v.mp4"
           (app0 (Some pool2)) pool2).
  - reflexivity.
  - apply used_init.
Defined.

Lemma hierarchical_analysis_fails_open_witness :
  ∃ msg,
    fst (hierarchical_analysis clock0 all_files id read_ok media_ok parse_raw
           "listen" (λ _ _, "look"%string) "v.mp4" (app0 None))
    = AReturn (hierarchical_result id "v.mp4" (error_dict msg)
                 skipped_visual (VDict routine_decision))
    ∧ media_requests
        (snd (hierarchical_analysis clock0 all_files id read_ok media_ok
                parse_raw "listen" (λ _ _, "look"%string) "v.mp4" (app0 None)))
      = [].
Proof.
  apply (hierarchical_analysis_fails_open clock0 all_files id read_ok media_ok
           parse_raw "listen" (λ _ _, "look"%string) "v.mp4" (app0 None)).
  right. left. reflexivity.
Defined.

Lemma audio_service_failure_gives_routine_decision_witness :
  fst (hierarchical_analysis clock0 all_files id read_ok media_down parse_raw
         "listen" (λ _ _, "look"%string) "v.mp4" (app0 (Some pool2)))
  = AReturn (hierarchical_result id "v.mp4"
               (error_dict "503 Service Unavailable")
               skipped_visual (VDict routine_decision)).
Proof.
  refine (proj1 (audio_service_failure_gives_routine_decision clock0 all_files
            id read_ok media_down parse_raw "listen" (λ _ _, "look"%string)
            "v.mp4" (app0 (Some pool2)) pool2 "bytes"
            (OSError "503 Service Unavailable") _ _ _ _ _ _)).
  - reflexivity.
  - reflexivity.
  - apply used_init.
  - discriminate.
  - reflexivity.
  - reflexivity.
Defined.

Lemma unsized_distress_events_raise_witness :
  ∃ msg,
    fst (hierarchical_analysis clock0 all_files id read_ok media_ok
           parse_null_events "listen" (λ _ _, "look"%string) "v.mp4"
           (app0 (Some pool2)))
    = ARaise (TypeError msg).
Proof.
  destruct (unsized_distress_events_raise clock0 all_files id read_ok media_ok
              parse_null_events "listen" (λ _ _, "look"%string) "v.mp4"
              (app0 (Some pool2))
              (fst (analyze_audio_first clock0 all_files id read_ok media_ok
                      parse_null_events "listen" "v.mp4"
                      (app_print (String "010" "=== PHASE 1: AUDIO SCAN ===")
                         (app0 (Some pool2)))))
              (snd (analyze_audio_first clock0 all_files id read_ok media_ok
                      parse_null_events "listen" "v.mp4"
                      (app_print (String "010" "=== PHASE 1: AUDIO SCAN ===")
                         (app0 (Some pool2))))))
    as [msg Hmsg].
  - reflexivity.
  - reflexivity.
  - reflexivity.
  - intros n. discriminate.
  - exists msg. by rewrite Hmsg.
Defined.

(** ** [orchestrator.py] and [asset_manager.py] *)

Lemma unpack2_of_three unpack_message a b c :
  unpack2 unpack_message [a; b; c] = ARaise (ValueError (unpack_message 3)).
Proof. reflexivity. Qed.

Lemma app_get_model_requests clock purpose s :
  requests (app_world (snd (app_get_model clock purpose s)))
    = requests (app_world s)
  ∧ media_requests (snd (app_get_model clock purpose s)) = media_requests s.
Proof.
  unfold app_get_model. destruct (app_key_manager s) as [m|]; [|done].
  destruct (get_model clock purpose (m, app_world s)) as [r [m1 w1]] eqn:Hgm.
  apply get_model_inv in Hgm as (-> & _). by destruct r.
Qed.

(** X22.  [_call_gemini_brain] never consults the model: [get_model]
    returns three values and the [try] unpacks them into two names, so
    with a key at hand the [try] ends in [ValueError], without one in the
    exception of [get_model], and with no key manager in
    [AttributeError].  Whatever the rest of the [try] would do, the
    result is that of [_fallback_decision] on the water level of the
    vision data and the type of the asset logistics_1; no request is
    sent and the orchestrator records no thought. *)
Theorem brain_always_falls_back (clock : nat → Z) (py_str : PyVal → string)
    (py_hash : string → Z) (unpack_message : nat → string)
    (rest_of_try : PyObj → PyObj → Orchestrator * AppState →
                   AppRes (Decision * string) * (Orchestrator * AppState))
    (vision_data : PyDict) (previous_signature : string)
    (o : Orchestrator) (s : AppState) (a : Asset) :
  assets_lookup (assets o) "logistics_1" = Some a →
  let res := _call_gemini_brain clock py_str py_hash unpack_message rest_of_try
               vision_data previous_signature (o, s) in
  fst res =
    _fallback_decision py_str py_hash
      (dict_get vision_data "water_level_estimate_cm"
         (dict_get vision_data "raw_level" (VInt 0)))
      (asset_type a) previous_signature
  ∧ fst (snd res) = o
  ∧ requests (app_world (snd (snd res))) = requests (app_world s)
  ∧ media_requests (snd (snd res)) = media_requests s.
Proof.
  intros Ha res. subst res. unfold _call_gemini_brain. simpl. rewrite Ha.
  pose proof (app_get_model_requests clock "orchestrator" s) as [Hreq Hmedia].
  destruct (app_get_model clock "orchestrator" s) as [[[[client mn] k]|e] s1];
    simpl in *; by rewrite ?unpack2_of_three.
Qed.

Lemma brain_always_falls_back_witness :
  fst (_call_gemini_brain clock0 (λ _, "45"%string) (λ _, 7%Z) (λ _, "too many"%string)
         (λ _ _ st, (AReturn (mkDecision "MAINTAIN" None None "model", "sig"%string), st))
         [("water_level_estimate_cm"%string, VInt 45)] "init_state_000"
         (new_Orchestrator, app0 (Some pool1)))
  = AReturn (mkDecision "SWAP_ASSET" (Some "logistics_1"%string) (Some "Canoe"%string)
               "Water 45cm exceeds Truck limit (40cm). Switching to Canoe.",
             "fallback_7"%string).
Proof.
  exact (proj1 (brain_always_falls_back clock0 (λ _, "45"%string) (λ _, 7%Z)
                  (λ _, "too many"%string)
                  (λ _ _ st, (AReturn (mkDecision "MAINTAIN" None None "model",
                                       "sig"%string), st))
                  [("water_level_estimate_cm"%string, VInt 45)] "init_state_000"
                  new_Orchestrator (app0 (Some pool1))
                  (new_asset Truck "logistics_1" "Mainland Depot") eq_refl)).
Defined.

Lemma assets_lookup_update d name a a0 :
  assets_lookup d name = Some a0 →
  assets_lookup (assets_update d name a) name = Some a.
Proof.
  induction d as [|[n a'] d IH]; simpl; [done|].
  destruct (String.eqb n name) eqn:Hn; simpl; rewrite Hn; [done|]. apply IH.
Qed.

(** X23.  The swap the fallback decides on can be carried out and is
    final: for a truck and an integer water level of 40 cm or more,
    [_fallback_decision] asks to swap logistics_1 to "Canoe";
    [execute_swap] with these arguments raises nothing and leaves a canoe
    (type "CANOE") at the same location; and from then on
    [_fallback_decision] answers MAINTAIN whatever the water level, also
    when the water is gone. *)
Theorem fallback_swap_is_final (py_str : PyVal → string) (py_hash : string → Z)
    (z : Z) (previous_signature : string)
    (o : Orchestrator) (s : AppState) (a : Asset) :
  assets_lookup (assets o) "logistics_1" = Some a →
  asset_type a = "TRUCK"%string →
  (40 ≤ z)%Z →
  (∃ reason sig,
     _fallback_decision py_str py_hash (VInt z) (asset_type a) previous_signature
     = AReturn (mkDecision "SWAP_ASSET" (Some "logistics_1"%string)
                  (Some "Canoe"%string) reason, sig))
  ∧ fst (execute_swap "logistics_1" "Canoe" (o, s)) = AReturn tt
  ∧ assets_lookup
      (assets (fst (snd (execute_swap "logistics_1" "Canoe" (o, s)))))
      "logistics_1"
    = Some (new_asset Canoe "logistics_1" (current_location a))
  ∧ ∀ v sig' d sig'',
      _fallback_decision py_str py_hash v
        (asset_type (new_asset Canoe "logistics_1" (current_location a))) sig'
      = AReturn (d, sig'') →
      action d = "MAINTAIN"%string.
Proof.
  intros Ha Hty Hz. split_and!.
  - unfold _fallback_decision. simpl. rewrite Hty.
    assert ((40 <=? z)%Z = true) as -> by (by apply Z.leb_le). simpl. eauto.
  - unfold execute_swap. simpl. by rewrite Ha.
  - unfold execute_swap. simpl. rewrite Ha. simpl.
    by eapply assets_lookup_update.
  - intros v sig' d sig''. unfold _fallback_decision. simpl.
    destruct (at_least_40 v) as [big|e]; [|done].
    rewrite andb_false_r. by intros [= <- _].
Qed.

Lemma fallback_swap_is_final_witness :
  assets_lookup
    (assets (fst (snd (execute_swap "logistics_1" "Canoe"
                         (new_Orchestrator, app0 None)))))
    "logistics_1"
  = Some (new_asset Canoe "logistics_1" "Mainland Depot").
Proof.
  refine (proj1 (proj2 (proj2 (fallback_swap_is_final (λ _, ""%string) (λ _, 0%Z)
            55 "sig" new_Orchestrator (app0 None)
            (new_asset Truck "logistics_1" "Mainland Depot") _ _ _)))).
  - reflexivity.
  - reflexivity.
  - lia.
Defined.

Lemma all_from_spec n : ∀ z P,
  all_from n z P = true → ∀ i, (z ≤ i < z + Z.of_nat n)%Z → P i = true.
Proof.
  induction n as [|n IH]; simpl; intros z P Hall i Hi; [lia|].
  destruct (P z) eqn:Hz; [|done].
  destruct (decide (i = z)) as [->|]; [done|].
  apply (IH (z + 1)%Z); [done|lia].
Qed.

Lemma limits_checked : all_from (Z.to_nat 100001) 0 limits_agree = true.
Proof. vm_compute. reflexivity. Qed.

Lemma limits_agree_in_range cm : (0 ≤ cm ≤ 100000)%Z → limits_agree cm = true.
Proof.
  intros Hcm. apply (all_from_spec _ _ _ limits_checked).
  rewrite Z2Nat.id; lia.
Qed.

Lemma can_traverse_class c id loc d :
  can_traverse (new_asset c id loc) d = can_traverse (new_asset c "" "") d.
Proof. by destruct c. Qed.

(** X24.  The limits of the asset classes, in metres as doubles, agree
    at every whole centimetre from 0 to 100000 with the limits the prompt
    of [_call_gemini_brain] states in centimetres, when the depth is
    converted as [verify_assets] converts it ([cm / 100.0]): a truck can
    traverse exactly up to 40 cm, an okada exactly up to 20 cm, a canoe
    exactly from 30 cm. *)
Theorem asset_limits_in_centimetres (cm : Z) (id loc : string) :
  (0 ≤ cm ≤ 100000)%Z →
  can_traverse (new_asset Truck id loc) (cm_to_m cm) = (cm <=? 40)%Z
  ∧ can_traverse (new_asset Okada id loc) (cm_to_m cm) = (cm <=? 20)%Z
  ∧ can_traverse (new_asset Canoe id loc) (cm_to_m cm) = (30 <=? cm)%Z.
Proof.
  intros Hcm. pose proof (limits_agree_in_range cm Hcm) as H.
  unfold limits_agree in H.
  apply andb_true_iff in H as [[H1%Bool.eqb_prop H2%Bool.eqb_prop]%andb_true_iff
                               H3%Bool.eqb_prop].
  by rewrite !can_traverse_class.
Qed.

Lemma asset_limits_in_centimetres_witness :
  can_traverse (new_asset Truck "logistics_1" "Mainland Depot") (cm_to_m 40)
  = true.
Proof.
  refine (proj1 (asset_limits_in_centimetres 40 "logistics_1" "Mainland Depot" _)).
  lia.
Defined.

(** X25.  The fallback keeps a truck's delivery going: for a truck and
    every whole water level from 0 to 100000 cm, either the fallback
    maintains the truck and the truck can traverse that depth, or it
    swaps to a canoe and the canoe left by [execute_swap] can traverse
    it. *)
Theorem fallback_keeps_truck_route_open (py_str : PyVal → string)
    (py_hash : string → Z) (cm : Z) (previous_signature : string)
    (o : Orchestrator) (s : AppState) (a : Asset) :
  (0 ≤ cm ≤ 100000)%Z →
  assets_lookup (assets o) "logistics_1" = Some a →
  asset_class a = Truck →
  asset_type a = "TRUCK"%string →
  ∃ d sig,
    _fallback_decision py_str py_hash (VInt cm) (asset_type a) previous_signature
    = AReturn (d, sig)
    ∧ ((action d = "MAINTAIN"%string ∧ (cm < 40)%Z ∧
        can_traverse a (cm_to_m cm) = true)
       ∨ (action d = "SWAP_ASSET"%string ∧ (40 ≤ cm)%Z ∧
          ∃ a', assets_lookup
                  (assets (fst (snd (execute_swap "logistics_1" "Canoe" (o, s)))))
                  "logistics_1" = Some a'
                ∧ asset_class a' = Canoe
                ∧ can_traverse a' (cm_to_m cm) = true)).
Proof.
  intros Hcm Ha Hcls Hty.
  pose proof (limits_agree_in_range cm Hcm) as H. unfold limits_agree in H.
  apply andb_true_iff in H as [[H1%Bool.eqb_prop _]%andb_true_iff
                               H3%Bool.eqb_prop].
  unfold _fallback_decision. simpl. rewrite Hty.
  destruct (40 <=? cm)%Z eqn:Hbig; simpl; do 2 eexists; (split; [done|]).
  - right. apply Z.leb_le in Hbig. split_and!; [done..|].
    exists (new_asset Canoe "logistics_1" (current_location a)). split_and!.
    + unfold execute_swap. simpl. rewrite Ha. simpl.
      by eapply assets_lookup_update.
    + done.
    + rewrite can_traverse_class, H3. apply Z.leb_le. lia.
  - left. apply Z.leb_gt in Hbig. split_and!; [done..|].
    destruct a as [c ? ? ? ?]. simpl in Hcls. subst c.
    unfold can_traverse in *. simpl in *. rewrite H1. apply Z.leb_le. lia.
Qed.

Lemma fallback_keeps_truck_route_open_witness :
  ∃ d sig,
    _fallback_decision (λ _, "39"%string) (λ _, 0%Z) (VInt 39) "TRUCK" "sig"
    = AReturn (d, sig) ∧ action d = "MAINTAIN"%string.
Proof.
  destruct (fallback_keeps_truck_route_open (λ _, "39"%string) (λ _, 0%Z) 39
              "sig" new_Orchestrator (app0 None)
              (new_asset Truck "logistics_1" "Mainland Depot"))
    as (d & sig & Hd & Hcase).
  - lia.
  - reflexivity.
  - reflexivity.
  - reflexivity.
  - exists d, sig. split; [exact Hd|].
    destruct Hcase as [(Hact & _)|(_ & Hbig & _)]; [exact Hact|lia].
Defined.

(** The fallback never leaves a canoe: at 10 cm of water, where the
    canoe cannot operate and a truck could, it maintains the canoe. *)
Lemma fallback_maintains_stranded_canoe :
  can_traverse (new_asset Canoe "logistics_1" "Mainland Depot") (cm_to_m 10) = false
  ∧ can_traverse (new_asset Truck "logistics_1" "Mainland Depot") (cm_to_m 10) = true
  ∧ ∀ py_str py_hash sig,
      action <$> (match _fallback_decision py_str py_hash (VInt 10) "CANOE" sig with
                  | AReturn (d, _) => Some d
                  | ARaise _ => None
                  end) = Some "MAINTAIN"%string.
Proof. split_and!; [by vm_compute..|done]. Qed.

(** ** [vision_agent.py] *)

Lemma dict_get_set d name v name' default :
  dict_get (dict_set d name v) name' default =
  if String.eqb name name' then v else dict_get d name' default.
Proof.
  induction d as [|[n v'] d IH]; simpl.
  - done.
  - destruct (String.eqb n name) eqn:Hn; simpl.
    + apply String.eqb_eq in Hn. subst n.
      by destruct (String.eqb name name').
    + destruct (String.eqb n name') eqn:Hn'; [|done].
      apply String.eqb_eq in Hn'. subst n.
      by rewrite String.eqb_sym, Hn.
Qed.

Lemma inferred_trend_table is_raining rain_intensity flooding_detected :
  inferred_trend is_raining rain_intensity flooding_detected =
  (if negb (truthy flooding_detected) then "NOT_APPLICABLE"
   else if negb (truthy is_raining) then "STABLE"
   else if is_str rain_intensity "heavy" then "RISING_RAPIDLY"
   else "RISING")%string.
Proof.
  unfold inferred_trend.
  destruct (truthy is_raining), (truthy flooding_detected),
    (is_str rain_intensity "heavy"), (is_str rain_intensity "moderate"); done.
Qed.

Section VisionProperties.

Variable clock : nat → Z.
Variable path_exists : string → bool.
Variable path_name : string → string.
Variable read_file : string → AppRes string.
Variable generate_media : nat → MediaRequest → AppRes string.
Variable parse_response : string → PyDict.
Variable vision_prompt : nat → string → string.
Variable datetime_now : nat → Z.
Variable py_str : PyVal → string.
Variable compare_with_previous : nat → PyVal → Reading → AppRes (option PyDict).

Lemma analyze_try_answer tag verb prompt video_path s m video_bytes text :
  app_key_manager s = Some m →
  used_by_analyzers m →
  keys m ≠ [] →
  read_file video_path = AReturn video_bytes →
  (∀ req, generate_media (length (media_requests s)) req = AReturn text) →
  ∃ s1 req m1,
    analyze_try clock path_name read_file generate_media parse_response
      tag verb prompt video_path s = (AReturn (parse_response text), s1)
    ∧ media_requests s1 = media_requests s ++ [req]
    ∧ media_bytes req = video_bytes
    ∧ app_key_manager s1 = Some m1
    ∧ used_by_analyzers m1.
Proof.
  intros Hs Hm Hne Hread Hok.
  unfold analyze_try, app_get_model. rewrite Hs.
  destruct (used_get_model_returns clock m "vision" (app_world s) Hm Hne)
    as (client & [m1 w1] & Hgm).
  pose proof (used_get_model clock "vision" m (app_world s) Hm) as Hm1.
  rewrite Hgm in Hm1 |- *. simpl in Hm1. rewrite Hread. simpl.
  rewrite Hok. unfold app_mark_success. simpl.
  eexists _, _, _. split_and!; try done.
  by apply used_mark_success.
Qed.

(** X26.  The single-shot inference of [_add_temporal_analysis] never
    answers "UNKNOWN": for a location without a previous reading, a
    flood assessment and weather conditions that are dictionaries and a
    water level that is a number, it returns the result with a
    "temporal_analysis" whose trend is NOT_APPLICABLE when no flooding is
    reported, else STABLE when it does not rain, else RISING_RAPIDLY when
    the rain is "heavy", else RISING; the other entries of the result are
    kept. *)
Theorem single_shot_trend_never_unknown (a : VisionAgent) (result : PyDict)
    (location_id : string) (n : nat) (fd wd : PyDict) (above : bool) :
  previous_readings a !! location_id = None →
  dict_get result "flood_assessment"
    (dict_get result "visual_evidence" (VDict [])) = VDict fd →
  dict_get result "weather_conditions" (VDict []) = VDict wd →
  greater_than_10 (dict_get fd "water_level_cm" (VInt 0)) = AReturn above →
  let raining := dict_get wd "is_raining" (VBool false) in
  let intensity := dict_get wd "rain_intensity" (VStr "none") in
  let flooding := dict_get fd "flooding_detected" (VBool above) in
  ∃ result' inferred_from trend,
    _add_temporal_analysis py_str compare_with_previous a result location_id n
    = AReturn result'
    ∧ dict_get result' "temporal_analysis" VNone
      = VDict [("comparison_frame", VStr "SINGLE_SHOT_INFERENCE");
               ("inferred_from", VStr inferred_from);
               ("trend", VStr trend)]%string
    ∧ trend = (if negb (truthy flooding) then "NOT_APPLICABLE"
               else if negb (truthy raining) then "STABLE"
               else if is_str intensity "heavy" then "RISING_RAPIDLY"
               else "RISING")%string
    ∧ trend ≠ "UNKNOWN"%string
    ∧ ∀ name default, name ≠ "temporal_analysis"%string →
        dict_get result' name default = dict_get result name default.
Proof.
  intros Hnew Hfd Hwd Habove raining intensity flooding.
  unfold _add_temporal_analysis. rewrite Hfd, Hwd. unfold py_get. simpl.
  rewrite Hnew, Habove.
  eexists _, _, _. split; [done|].
  split; [by rewrite dict_get_set|].
  split; [apply inferred_trend_table|].
  split.
  - rewrite inferred_trend_table.
    fold flooding raining intensity.
    destruct (truthy flooding), (truthy raining), (is_str intensity "heavy");
      done.
  - intros name default Hname. rewrite dict_get_set.
    destruct (String.eqb "temporal_analysis" name) eqn:Heq; [|done].
    apply String.eqb_eq in Heq. by subst name.
Qed.

(** X27.  The reading [analyze_video_frame] stores for a location is
    taken from "visual_evidence", not from "flood_assessment": when the
    answer of a successful first analysis has a flood assessment with a
    numeric water level but no "visual_evidence", as the schema of the
    prompt has it, the result carries the single-shot analysis and the
    water level stored in [previous_readings] is 0, whatever level was
    assessed. *)
Theorem stored_reading_ignores_flood_assessment (video_path location_id : string)
    (a : VisionAgent) (s : AppState) (m : GeminiKeyManager)
    (video_bytes text : string) (fd wd : PyDict) (above : bool) :
  path_exists video_path = true →
  app_key_manager s = Some m →
  used_by_analyzers m →
  keys m ≠ [] →
  read_file video_path = AReturn video_bytes →
  (∀ req, generate_media (length (media_requests s)) req = AReturn text) →
  previous_readings a !! location_id = None →
  (∀ default, dict_get (parse_response text) "visual_evidence" default = default) →
  dict_get (parse_response text) "flood_assessment" (VDict []) = VDict fd →
  dict_get (parse_response text) "weather_conditions" (VDict []) = VDict wd →
  greater_than_10 (dict_get fd "water_level_cm" (VInt 0)) = AReturn above →
  let out := analyze_video_frame clock path_exists path_name read_file
               generate_media parse_response vision_prompt datetime_now py_str
               compare_with_previous video_path location_id a s in
  (∃ analysis,
     fst out = dict_set (parse_response text) "temporal_analysis" (VDict analysis)
     ∧ dict_get analysis "comparison_frame" VNone = VStr "SINGLE_SHOT_INFERENCE")
  ∧ ∃ t, previous_readings (fst (snd out)) !! location_id
         = Some (mkReading (VInt 0) t).
Proof.
  intros Hex Hs Hm Hne Hread Hok Hnew Hve Hfd Hwd Habove out.
  subst out. unfold analyze_video_frame, video_frame_try.
  rewrite Hex. cbn [negb].
  destruct (analyze_try_answer "[Vision]" "Uploading video"
              (λ s, vision_prompt (ticks (app_world s)) location_id)
              video_path s m video_bytes text Hs Hm Hne Hread Hok)
    as (s1 & req & m1 & Htry & _).
  rewrite Htry.
  unfold _add_temporal_analysis.
  rewrite (Hve (VDict [])), Hfd, Hwd. unfold py_get. simpl.
  rewrite Hnew, Habove. rewrite dict_get_set. simpl. rewrite Hve. simpl.
  split.
  - eexists. split; [done|]. done.
  - eexists. by rewrite lookup_insert_eq.
Qed.

(** X28.  What [analyze_video_frame] never does: whatever the file
    system, the service and the answer do, it leaves the readings of
    every other location alone, sends at most one request, and changes
    [previous_readings] only by storing, for its own location, the water
    level that the result it returns holds under "visual_evidence". *)
Theorem analyze_video_frame_frame (video_path location_id : string)
    (a : VisionAgent) (s : AppState) :
  let out := analyze_video_frame clock path_exists path_name read_file
               generate_media parse_response vision_prompt datetime_now py_str
               compare_with_previous video_path location_id a s in
  (∀ other, other ≠ location_id →
     previous_readings (fst (snd out)) !! other = previous_readings a !! other)
  ∧ model_purpose (fst (snd out)) = model_purpose a
  ∧ (media_requests (snd (snd out)) = media_requests s
     ∨ ∃ req, media_requests (snd (snd out)) = media_requests s ++ [req])
  ∧ (previous_readings (fst (snd out)) = previous_readings a
     ∨ ∃ r, previous_readings (fst (snd out))
            = <[location_id := r]> (previous_readings a)
          ∧ py_get (dict_get (fst out) "visual_evidence" (VDict []))
              "water_level_cm" (VInt 0)
            = AReturn (reading_water_level_cm r)).
Proof.
  intros out. subst out. unfold analyze_video_frame.
  destruct (path_exists video_path); cbn [negb]; [|simpl; auto].
  unfold video_frame_try.
  assert (media_requests
            (snd (analyze_try clock path_name read_file generate_media
                    parse_response "[Vision]" "Uploading video"
                    (λ s, vision_prompt (ticks (app_world s)) location_id)
                    video_path s)) = media_requests s
          ∨ ∃ req, media_requests
                     (snd (analyze_try clock path_name read_file generate_media
                             parse_response "[Vision]" "Uploading video"
                             (λ s, vision_prompt (ticks (app_world s)) location_id)
                             video_path s)) = media_requests s ++ [req])
    as Hreq.
  { unfold analyze_try.
    pose proof (app_get_model_requests clock "vision" s) as [_ Hgm].
    destruct (app_get_model clock "vision" s) as [[[[client mn] k]|e] s1];
      simpl in *; [|auto].
    destruct (read_file video_path) as [video_bytes|e]; simpl; [|auto].
    destruct (generate_media _ _) as [text|e]; simpl.
    - right. eexists. unfold app_mark_success. simpl.
      destruct (app_key_manager s1); simpl; by rewrite Hgm.
    - right. eexists. by rewrite Hgm. }
  destruct (analyze_try _ _ _ _ _ _ _ _ _ _) as [[parsed|e] s1];
    simpl in *; [|auto].
  destruct (_add_temporal_analysis _ _ _ _ _ _) as [result|e]; simpl; [|auto].
  destruct (py_get _ _ _) as [water_level|e] eqn:Hlevel; simpl; [|auto].
  split_and!; try done.
  - intros other Hother. by rewrite lookup_insert_ne.
  - right. eexists. split; [done|]. done.
Qed.

(** X29.  An answer whose water level is not a number costs the request
    and gives an error report: on a first analysis of a location, when
    the flood assessment holds a water level that [>] does not compare
    with a number (a text, [null], a list), [analyze_video_frame] has
    sent the request, returns [{"error": ..., "source": "error"}] with
    the text of the [TypeError], stores no reading, and the key that
    served stays AVAILABLE with [error_count] 0. *)
Theorem non_numeric_water_level_is_an_error (video_path location_id : string)
    (a : VisionAgent) (s : AppState) (m : GeminiKeyManager)
    (video_bytes text : string) (fd wd : PyDict) (e : AppExn) :
  path_exists video_path = true →
  app_key_manager s = Some m →
  used_by_analyzers m →
  keys m ≠ [] →
  read_file video_path = AReturn video_bytes →
  (∀ req, generate_media (length (media_requests s)) req = AReturn text) →
  previous_readings a !! location_id = None →
  dict_get (parse_response text) "flood_assessment"
    (dict_get (parse_response text) "visual_evidence" (VDict [])) = VDict fd →
  dict_get (parse_response text) "weather_conditions" (VDict []) = VDict wd →
  greater_than_10 (dict_get fd "water_level_cm" (VInt 0)) = ARaise e →
  let out := analyze_video_frame clock path_exists path_name read_file
               generate_media parse_response vision_prompt datetime_now py_str
               compare_with_previous video_path location_id a s in
  fst out = frame_error (app_str e)
  ∧ fst (snd out) = a
  ∧ (∃ req, media_requests (snd (snd out)) = media_requests s ++ [req]
            ∧ media_bytes req = video_bytes)
  ∧ ∃ m', app_key_manager (snd (snd out)) = Some m'
          ∧ Forall (λ k, status k = AVAILABLE ∧ error_count k = 0%Z) (keys m').
Proof.
  intros Hex Hs Hm Hne Hread Hok Hnew Hfd Hwd Hlevel out.
  subst out. unfold analyze_video_frame, video_frame_try.
  rewrite Hex. cbn [negb].
  destruct (analyze_try_answer "[Vision]" "Uploading video"
              (λ s, vision_prompt (ticks (app_world s)) location_id)
              video_path s m video_bytes text Hs Hm Hne Hread Hok)
    as (s1 & req & m1 & Htry & Hreq & Hbytes & Hs1 & Hm1).
  rewrite Htry.
  unfold _add_temporal_analysis.
  rewrite Hfd, Hwd. unfold py_get. simpl.
  rewrite Hnew, Hlevel. simpl.
  split_and!; try done.
  - by exists req.
  - exists m1. split; [done|].
    eapply Forall_impl; [exact (used_by_analyzers_fresh m1 Hm1)|].
    by intros k (? & ? & _).
Qed.

End VisionProperties.

Lemma single_shot_trend_never_unknown_witness :
  ∃ result' inferred_from,
    _add_temporal_analysis str_of_example no_comparison new_VisionAgent
      knee_deep "lekki" 0 = AReturn result'
    ∧ dict_get result' "temporal_analysis" VNone
      = VDict [("comparison_frame", VStr "SINGLE_SHOT_INFERENCE");
               ("inferred_from", VStr inferred_from);
               ("trend", VStr "RISING_RAPIDLY")]%string.
Proof.
  pose proof (single_shot_trend_never_unknown str_of_example no_comparison
                new_VisionAgent knee_deep "lekki" 0
                [("flooding_detected", VBool true); ("water_level_cm", VInt 40)]%string
                [("is_raining", VBool true); ("rain_intensity", VStr "heavy")]%string
                true) as H.
  destruct H as (result' & inferred_from & trend & Hres & Hget & Htrend & _).
  - reflexivity.
  - reflexivity.
  - reflexivity.
  - reflexivity.
  - exists result', inferred_from. split; [exact Hres|].
    rewrite Hget, Htrend. reflexivity.
Defined.

Lemma stored_reading_ignores_flood_assessment_witness :
  ∃ t,
    previous_readings
      (fst (snd (analyze_video_frame clock0 all_files id read_ok media_ok
                   parse_knee_deep (λ _ _, "look"%string) (λ _, 0%Z)
                   str_of_example no_comparison "v.mp4" "lekki"
                   new_VisionAgent (app0 (Some pool2)))))
    !! "lekki"%string
    = Some (mkReading (VInt 0) t).
Proof.
  refine (proj2 (stored_reading_ignores_flood_assessment clock0 all_files id
            read_ok media_ok parse_knee_deep (λ _ _, "look"%string) (λ _, 0%Z)
            str_of_example no_comparison "v.mp4" "lekki" new_VisionAgent
            (app0 (Some pool2)) pool2 "bytes" "{}"
            [("flooding_detected", VBool true); ("water_level_cm", VInt 40)]%string
            [("is_raining", VBool true); ("rain_intensity", VStr "heavy")]%string
            true _ _ _ _ _ _ _ _ _ _ _)).
  - reflexivity.
  - reflexivity.
  - apply used_init.
  - discriminate.
  - reflexivity.
  - reflexivity.
  - reflexivity.
  - reflexivity.
  - reflexivity.
  - reflexivity.
  - reflexivity.
Defined.

Lemma non_numeric_water_level_is_an_error_witness :
  fst (analyze_video_frame clock0 all_files id read_ok media_ok
         parse_knee_deep_text (λ _ _, "look"%string) (λ _, 0%Z)
         str_of_example no_comparison "v.mp4" "lekki"
         new_VisionAgent (app0 (Some pool2)))
  = frame_error "'>' not supported between instances of 'str' and 'int'".
Proof.
  refine (proj1 (non_numeric_water_level_is_an_error clock0 all_files id
            read_ok media_ok parse_knee_deep_text (λ _ _, "look"%string)
            (λ _, 0%Z) str_of_example no_comparison "v.mp4" "lekki"
            new_VisionAgent (app0 (Some pool2)) pool2 "bytes" "{}"
            [("flooding_detected", VBool true); ("water_level_cm", VStr "40cm")]%string
            [("is_raining", VBool true); ("rain_intensity", VStr "heavy")]%string
            (TypeError "'>' not supported between instances of 'str' and 'int'")
            _ _ _ _ _ _ _ _ _ _)).
  - reflexivity.
  - reflexivity.
  - apply used_init.
  - discriminate.
  - reflexivity.
  - reflexivity.
  - reflexivity.
  - reflexivity.
  - reflexivity.
  - reflexivity.
Defined.
